(** * A shallow embedding of the chat gateway's session layer

    The server keeps three kinds of state: the durable document
    collections (users, groups, chats), the presence hashes of the
    key-value store, and the transport's rooms.  Every socket handler of
    [setupSocketIO] is embedded as a computation over that state; a
    handler runs to completion before the next one starts, and a request
    event comes with its acknowledgement function.  The interleaving of
    two handlers at an [await] is outside [step] and [run]; what it can
    do to a presence hash is shown on [removeUserFromGroup_among].
    Of the exceptions a store call can raise, the ones the schemas and
    the casts decide are modelled; an unreachable store is not. *)

From Stdlib Require Import ZArith NArith Lia Ascii String HexadecimalString HexadecimalN.
From Stdlib Require QArith.
From stdpp Require Import gmap strings list fin_maps sorting.

Open Scope string_scope.
Open Scope list_scope.

(** ** Identifiers *)

(** A document identifier: the 12 bytes of an ObjectId read as a number,
    so that [$lt] is [N.ltb]. *)
Definition ObjectId := N.

(** What the document mapper does with an identifier at the program's
    border: a client string is cast to an identifier (the cast fails on a
    malformed string) and an identifier is printed back by [toString()].
    The laws used are that a printed identifier casts back to itself and
    is not the empty string. *)
Class ObjectIdCodec := {
  castObjectId : string -> option ObjectId;
  oid_toString : ObjectId -> string;
  cast_toString : forall i, castObjectId (oid_toString i) = Some i;
  toString_nonempty : forall i, oid_toString i <> ""
}.

(** ** Values a client sends *)

(** A JSON value, as the transport hands it to the server; a number is
    the rational its decimal notation denotes.  The handshake's [auth]
    object is declared with no type for its properties, so its [token]
    is any such value. *)
#[warnings="-register-all"]
Inductive Json :=
| JNull
| JBool (b : bool)
| JNumber (q : QArith_base.Q)
| JString (s : string)
| JArray (items : list Json)
| JObject (fields : list (string * Json)).

Coercion JString : string >-> Json.

(** A string is read as a JSON value also under [Some]. *)
Arguments Some {A} & a.

(** What [User.findOne({ address: v })] does with the filter value [v]:
    the document mapper casts [v] for the [String] path [address] (the
    query throws when the cast fails) and the store selects the
    documents whose address meets the condition, an operator document
    such as [{ $ne: null }] included.  The mapper and the store are not
    part of the repository; the one law used is that a string selects
    the documents whose address is that string. *)
Class AddressFilter := {
  address_filter : Json -> option (string -> bool);
  address_filter_string :
    forall s, address_filter (JString s) = Some (fun a => String.eqb a s)
}.

(** ** Documents (models/User.ts, models/Group.ts, models/Chat.ts) *)

(** The handlers read only [_id] and [address] of a user; the numeric
    reputation fields never reach them. *)
Record User := mkUser {
  user_id : ObjectId;
  address : string
}.

Record Group := mkGroup {
  g_id : ObjectId;
  g_name : string;
  g_description : option string;
  g_owner : ObjectId;
  g_members : list ObjectId;
  g_isPrivate : bool;
  g_createdAt : Z;
  g_updatedAt : Z
}.

Record Chat := mkChat {
  c_id : ObjectId;
  c_message : string;
  c_sender : ObjectId;
  c_groupId : ObjectId;
  c_createdAt : Z;
  c_isDeleted : bool;
  c_updatedAt : Z
}.

(** A group after [populate('owner', 'address')] and
    [populate('members', 'address')]: a reference that resolves to no
    user is [None] for the owner and is dropped from the member array. *)
Record PopulatedGroup := mkPopulated {
  pg_group : Group;
  pg_owner : option User;
  pg_members : list User
}.

(** [interface MessageType] *)
Record MessageType := mkMessage {
  m_id : string;
  m_message : string;
  m_sender_address : string;
  m_createdAt : Z;
  m_groupId : string
}.

(** ** The stores *)

(** Modelled from the spec: the driver's identifier generator is not part
    of the repository; "ids are monotonically increasing in creation
    order by construction of the durable store's identifiers", so the
    store hands out [nextObjectId] and increments it. *)
Record Mongo := mkMongo {
  users : list User;
  groups : list Group;
  chats : list Chat;
  nextObjectId : ObjectId
}.

(** [ServerToClientEvents], the acknowledgement callbacks of the three
    request events, and the transport's refusal of a handshake. *)
Inductive ServerEvent :=
| EvMessage (m : MessageType)
| EvConnectionEstablished (connectionId : string)
| EvError (error : string)
| EvConnectError (error : string)
| AckGroups (gs : list PopulatedGroup)
| AckGroup (g : option PopulatedGroup)
| AckMessages (ms : list MessageType).

Record World := mkWorld {
  mongo : Mongo;
  (* key -> hash (field -> value) *)
  redis : gmap string (gmap string string);
  (* room -> sockets that joined it with [socket.join] *)
  rooms : gmap string (gset string);
  (* sockets whose connection handler ran, with the [user] it closed over *)
  sessions : gmap string User;
  (* what was sent, oldest first: (receiving socket, event) *)
  outbox : list (string * ServerEvent)
}.

(** ** Handlers as computations: state plus exceptions

    A thrown exception does not roll the state back: what a handler wrote
    before the failing call stays written. *)
Inductive Res (A : Type) :=
| Ok (a : A)
| Thrown (e : string).
Arguments Ok {A} a.
Arguments Thrown {A} e.

Definition Async (A : Type) : Type := World -> Res A * World.

Definition ret {A} (a : A) : Async A := fun w => (Ok a, w).

Definition bind {A B} (m : Async A) (k : A -> Async B) : Async B :=
  fun w => match m w with
           | (Ok a, w') => k a w'
           | (Thrown e, w') => (Thrown e, w')
           end.

Definition throw {A} (e : string) : Async A := fun w => (Thrown e, w).

Definition try_catch {A} (body : Async A) (handler : string -> Async A) : Async A :=
  fun w => match body w with
           | (Ok a, w') => (Ok a, w')
           | (Thrown e, w') => handler e w'
           end.

Notation "x <- m ;; k" := (bind m (fun x => k))
  (at level 100, m at next level, right associativity).
Notation "m ;;; k" := (bind m (fun _ => k))
  (at level 100, right associativity).

Definition get_mongo : Async Mongo := fun w => (Ok (mongo w), w).

Definition set_mongo (m : Mongo) : Async unit :=
  fun w => (Ok tt, mkWorld m (redis w) (rooms w) (sessions w) (outbox w)).

Definition redis_cmd (f : gmap string (gmap string string) -> gmap string (gmap string string)) : Async unit :=
  fun w => (Ok tt, mkWorld (mongo w) (f (redis w)) (rooms w) (sessions w) (outbox w)).

(** ** The key-value store's commands

    [hdel] removes the field and nothing else: whether the server drops
    an emptied hash by itself is not relied upon. *)
Definition hset (key field value : string) (r : gmap string (gmap string string))
  : gmap string (gmap string string) :=
  <[key := <[field := value]> (default ∅ (r !! key))]> r.

Definition hdel (key field : string) (r : gmap string (gmap string string))
  : gmap string (gmap string string) :=
  match r !! key with
  | Some h => <[key := delete field h]> r
  | None => r
  end.

Definition hlen (key : string) (r : gmap string (gmap string string)) : nat :=
  size (default ∅ (r !! key)).

Definition del (key : string) (r : gmap string (gmap string string))
  : gmap string (gmap string string) :=
  delete key r.

Definition hgetall (key : string) (r : gmap string (gmap string string))
  : gmap string string :=
  default ∅ (r !! key).

(** Glob matching of a key against a pattern; of the pattern language
    only the literal characters and [*] occur in this program. *)
Fixpoint glob (p s : string) : bool :=
  match p with
  | EmptyString => match s with EmptyString => true | String _ _ => false end
  | String c p' =>
      if Ascii.eqb c "*"%char then
        (fix star (s : string) : bool :=
           glob p' s || match s with
                        | EmptyString => false
                        | String _ s' => star s'
                        end) s
      else match s with
           | String d s' => Ascii.eqb c d && glob p' s'
           | EmptyString => false
           end
  end.

Definition keys (pattern : string) (r : gmap string (gmap string string)) : list string :=
  List.filter (glob pattern) (map fst (map_to_list r)).

(** ** redisHelpers *)

Definition group_key (groupId : string) : string :=
  "group:" +:+ groupId +:+ ":users".

Definition addUserToGroup (groupId socketId userAddress : string)
  (r : gmap string (gmap string string)) : gmap string (gmap string string) :=
  let key := group_key groupId in
  hset key socketId userAddress r.

Definition removeUserFromGroup (groupId socketId : string)
  (r : gmap string (gmap string string)) : gmap string (gmap string string) :=
  let key := group_key groupId in
  let r := hdel key socketId r in
  let remaining := hlen key r in
  if Nat.eqb remaining 0 then del key r else r.

Definition getGroupUsers (groupId : string)
  (r : gmap string (gmap string string)) : gmap string string :=
  let key := group_key groupId in
  hgetall key r.

Definition addUserConnection (socketId userAddress : string)
  (r : gmap string (gmap string string)) : gmap string (gmap string string) :=
  hset "user_connections" socketId userAddress r.

Definition removeUserConnection (socketId : string)
  (r : gmap string (gmap string string)) : gmap string (gmap string string) :=
  hdel "user_connections" socketId r.

(** One turn of the [for (const key of groupKeys)] loop of [cleanup]. *)
Definition cleanup_key (socketId : string)
  (r : gmap string (gmap string string)) (key : string)
  : gmap string (gmap string string) :=
  let r := hdel key socketId r in
  let remaining := hlen key r in
  if Nat.eqb remaining 0 then del key r else r.

Definition cleanup (socketId : string)
  (r : gmap string (gmap string string)) : gmap string (gmap string string) :=
  let groupKeys := keys "group:*:users" r in
  let r := foldl (cleanup_key socketId) r groupKeys in
  hdel "user_connections" socketId r.

(** ** Queries of the document store *)

(** [.sort({ createdAt: -1 })]: newest first.  Documents with the same
    creation time stay in the order the collection holds them, the order
    in which a scan of the index [{ groupId: 1, createdAt: -1 }] meets
    them (a stable insertion sort; each document is put in front of the
    first one that is not newer than it). *)
Fixpoint insert_desc {A} (key : A -> Z) (x : A) (l : list A) : list A :=
  match l with
  | [] => [x]
  | y :: l' => if Z.leb (key y) (key x) then x :: y :: l'
               else y :: insert_desc key x l'
  end.

Definition sort_desc {A} (key : A -> Z) (l : list A) : list A :=
  foldr (insert_desc key) [] l.

(** [.limit(50)] *)
Definition PAGE_LIMIT : nat := 50.

Definition findUserById (id : ObjectId) (us : list User) : option User :=
  List.find (fun u => N.eqb (user_id u) id) us.

(** [populate('members', 'address')] on an array of references. *)
Definition populateMembers (us : list User) (ids : list ObjectId) : list User :=
  omap (fun id => findUserById id us) ids.

Definition populateGroup (us : list User) (g : Group) : PopulatedGroup :=
  mkPopulated g (findUserById (g_owner g) us) (populateMembers us (g_members g)).

(** [updateOne({ _id: id }, ...)]: the first document with that id. *)
Fixpoint updateOne (id : ObjectId) (g' : Group) (gs : list Group) : list Group :=
  match gs with
  | [] => []
  | g :: gs' => if N.eqb (g_id g) id then g' :: gs' else g :: updateOne id g' gs'
  end.

(** JavaScript's truthiness of an optional string: [undefined] and the
    empty string are falsy. *)
Definition truthy (s : option string) : option string :=
  match s with
  | Some EmptyString => None
  | Some s => Some s
  | None => None
  end.

(** JavaScript's truthiness of a property that holds any JSON value or
    is absent: [undefined], [null], [false], [0] and the empty string
    are falsy, every other value (every array and object too) is truthy. *)
Definition truthy_json (v : option Json) : option Json :=
  match v with
  | None => None
  | Some JNull => None
  | Some (JBool b) => if b then v else None
  | Some (JNumber q) => if QArith_base.Qeq_bool q (QArith_base.Qmake 0 1) then None else v
  | Some (JString s) => if String.eqb s "" then None else v
  | Some (JArray _) => v
  | Some (JObject _) => v
  end.

(** The [required: true] validator of a [String] path: a missing value
    and the empty string both fail it. *)
Definition required_string (s : string) : bool :=
  negb (String.eqb s "").

Section Gateway.
Context `{ObjectIdCodec} `{AddressFilter}.

(** [User.findOne({ address: token })]: the first document the filter
    selects, in the collection's order. *)
Definition User_findOne (token : Json) : Async (option User) :=
  match address_filter token with
  | None => throw "CastError"
  | Some selects =>
      m <- get_mongo ;;
      ret (List.find (fun u => selects (address u)) (users m))
  end.

(** [Group.find({ isPrivate: false }).populate('owner', 'address')
      .populate('members', 'address').sort({ createdAt: -1 })] *)
Definition Group_find_public : Async (list PopulatedGroup) :=
  m <- get_mongo ;;
  let found := List.filter (fun g => negb (g_isPrivate g)) (groups m) in
  ret (map (populateGroup (users m)) (sort_desc g_createdAt found)).

(** [Group.create({ name, description, owner, members, isPrivate })]:
    validation, then an insert under a fresh identifier; the
    [timestamps] option stamps [createdAt] and [updatedAt]. *)
Definition Group_create (name : string) (description : option string)
  (owner : ObjectId) (members : list ObjectId) (isPrivate : bool) (now : Z)
  : Async Group :=
  if required_string name then
    m <- get_mongo ;;
    let g := mkGroup (nextObjectId m) name description owner members isPrivate now now in
    set_mongo (mkMongo (users m) (groups m ++ [g]) (chats m) (N.succ (nextObjectId m))) ;;;
    ret g
  else throw "ValidationError".

(** [Group.findById(groupId)] *)
Definition Group_findById (groupId : string) : Async (option Group) :=
  match castObjectId groupId with
  | None => throw "CastError"
  | Some id =>
      m <- get_mongo ;;
      ret (List.find (fun g => N.eqb (g_id g) id) (groups m))
  end.

(** [group.save()] *)
Definition Group_save (g : Group) (now : Z) : Async unit :=
  m <- get_mongo ;;
  let g' := mkGroup (g_id g) (g_name g) (g_description g) (g_owner g)
              (g_members g) (g_isPrivate g) (g_createdAt g) now in
  set_mongo (mkMongo (users m) (updateOne (g_id g) g' (groups m)) (chats m) (nextObjectId m)).

(** [Chat.create({ message, sender, groupId })]: [isDeleted] takes its
    default [false], [createdAt] its default [Date.now]. *)
Definition Chat_create (message : string) (sender : ObjectId) (groupId : string) (now : Z)
  : Async Chat :=
  if required_string message then
    match castObjectId groupId with
    | None => throw "ValidationError"
    | Some gid =>
        m <- get_mongo ;;
        let c := mkChat (nextObjectId m) message sender gid now false now in
        set_mongo (mkMongo (users m) (groups m) (chats m ++ [c]) (N.succ (nextObjectId m))) ;;;
        ret c
    end
  else throw "ValidationError".

(** The filter [{ groupId, isDeleted: false, _id: { $lt: before } }]
    after casting; the [_id] clause is absent when [before] is. *)
Definition chat_matches (gid : ObjectId) (before : option ObjectId) (c : Chat) : bool :=
  N.eqb (c_groupId c) gid
  && negb (c_isDeleted c)
  && match before with
     | Some b => N.ltb (c_id c) b
     | None => true
     end.

Definition find_page (cs : list Chat) (gid : ObjectId) (before : option ObjectId) : list Chat :=
  take PAGE_LIMIT (sort_desc c_createdAt (List.filter (chat_matches gid before) cs)).

(** [Chat.find(query).populate('sender', 'address')
      .sort({ createdAt: -1 }).limit(50)]; each document comes with its
    populated sender, [None] when the reference resolves to no user. *)
Definition Chat_find (groupId : string) (before : option string)
  : Async (list (Chat * option User)) :=
  match castObjectId groupId with
  | None => throw "CastError"
  | Some gid =>
      match truthy before with
      | None =>
          m <- get_mongo ;;
          ret (map (fun c => (c, findUserById (c_sender c) (users m)))
                   (find_page (chats m) gid None))
      | Some b =>
          match castObjectId b with
          | None => throw "CastError"
          | Some bid =>
              m <- get_mongo ;;
              ret (map (fun c => (c, findUserById (c_sender c) (users m)))
                       (find_page (chats m) gid (Some bid)))
          end
      end
  end.

(** ** The transport *)

Definition socket_emit (socketId : string) (ev : ServerEvent) : Async unit :=
  fun w => (Ok tt, mkWorld (mongo w) (redis w) (rooms w) (sessions w)
                     (outbox w ++ [(socketId, ev)])).

Definition room_members (room : string) (w : World) : list string :=
  elements (default ∅ (rooms w !! room)).

(** [io.to(room).emit(...)] *)
Definition io_to_emit (room : string) (ev : ServerEvent) : Async unit :=
  fun w => (Ok tt, mkWorld (mongo w) (redis w) (rooms w) (sessions w)
                     (outbox w ++ map (fun s => (s, ev)) (room_members room w))).

Definition socket_join (socketId room : string) : Async unit :=
  fun w => (Ok tt, mkWorld (mongo w) (redis w)
                     (<[room := {[socketId]} ∪ default ∅ (rooms w !! room)]> (rooms w))
                     (sessions w) (outbox w)).

Definition socket_leave (socketId room : string) : Async unit :=
  fun w => (Ok tt, mkWorld (mongo w) (redis w)
                     (<[room := default ∅ (rooms w !! room) ∖ {[socketId]}]> (rooms w))
                     (sessions w) (outbox w)).

(** ** The handshake middleware, [io.use] *)

(** [token] is [socket.handshake.auth.token]: whatever JSON value the
    client put there, [None] when the property is absent; the code does
    not look at its type.  The result is what [next] is called with:
    [inl err] refuses the connection, [inr user] lets it through with
    [socket.data.user]. *)
Definition authMiddleware (token : option Json) : Async (string + User) :=
  try_catch
    (match truthy_json token with
     | None => ret (inl "Authentication token required")
     | Some token =>
         user <- User_findOne token ;;
         match user with
         | None => ret (inl "Authentication failed")
         | Some user => ret (inr user)
         end
     end)
    (fun _ => ret (inl "Authentication failed")).

(** ** The handlers of [io.on('connection', ...)]

    A request event's handler returns what it passes to [callback]. *)

(** [group.members.some(member => member._id.toString() === user._id.toString())] *)
Definition is_member (user : User) (group : PopulatedGroup) : bool :=
  existsb (fun member =>
             String.eqb (oid_toString (user_id member)) (oid_toString (user_id user)))
          (pg_members group).

Definition getGroups (user : User) : Async (list PopulatedGroup) :=
  try_catch
    (allGroups <- Group_find_public ;;
     let userGroups := List.filter (is_member user) allGroups in
     let otherGroups := List.filter (fun group => negb (is_member user group)) allGroups in
     ret (userGroups ++ otherGroups))
    (fun _ => ret []).

Definition createGroup (user : User) (now : Z) (name : string) (description : option string)
  : Async (option PopulatedGroup) :=
  try_catch
    (group <- Group_create name description (user_id user) [user_id user] false now ;;
     m <- get_mongo ;;
     ret (Some (populateGroup (users m) group)))
    (fun _ => ret None).

(** [group.members.includes(user._id)]: the document array compares
    identifiers by value. *)
Definition includes (id : ObjectId) (members : list ObjectId) : bool :=
  existsb (N.eqb id) members.

(** [group.members.push(user._id)] *)
Definition push_member (g : Group) (id : ObjectId) : Group :=
  mkGroup (g_id g) (g_name g) (g_description g) (g_owner g)
          (g_members g ++ [id]) (g_isPrivate g) (g_createdAt g) (g_updatedAt g).

Definition joinGroup (socketId : string) (user : User) (now : Z) (groupId : string)
  : Async unit :=
  try_catch
    (redis_cmd (addUserToGroup groupId socketId (address user)) ;;;
     group <- Group_findById groupId ;;
     match group with
     | Some group =>
         if negb (includes (user_id user) (g_members group)) then
           Group_save (push_member group (user_id user)) now
         else ret tt
     | None => ret tt
     end ;;;
     socket_join socketId groupId)
    (fun _ => socket_emit socketId (EvError "Failed to join group")).

Definition leaveGroup (socketId : string) (groupId : string) : Async unit :=
  try_catch
    (redis_cmd (removeUserFromGroup groupId socketId) ;;;
     socket_leave socketId groupId)
    (fun _ => socket_emit socketId (EvError "Failed to leave group")).

(** The populated sender of the created chat is not read: the event
    carries [user.address] of the connection. *)
Definition sendMessage (socketId : string) (user : User) (now : Z)
  (groupId message : string) : Async unit :=
  try_catch
    (chat <- Chat_create message (user_id user) groupId now ;;
     let messageData :=
       mkMessage (oid_toString (c_id chat)) (c_message chat) (address user)
                 (c_createdAt chat) (oid_toString (c_groupId chat)) in
     io_to_emit groupId (EvMessage messageData))
    (fun _ => socket_emit socketId (EvError "Failed to send message")).

(** One turn of [messages.map(msg => ...)]; [msg.sender.address] throws
    when the sender was populated to [null]. *)
Definition format_message (msg : Chat * option User) : Async MessageType :=
  match snd msg with
  | Some sender =>
      ret (mkMessage (oid_toString (c_id (fst msg))) (c_message (fst msg))
                     (address sender) (c_createdAt (fst msg))
                     (oid_toString (c_groupId (fst msg))))
  | None => throw "TypeError"
  end.

Fixpoint mapM {A B} (f : A -> Async B) (l : list A) : Async (list B) :=
  match l with
  | [] => ret []
  | x :: l' => y <- f x ;; ys <- mapM f l' ;; ret (y :: ys)
  end.

Definition loadMessages (groupId : string) (before : option string)
  : Async (list MessageType) :=
  try_catch
    (messages <- Chat_find groupId before ;;
     formattedMessages <- mapM format_message messages ;;
     ret formattedMessages)
    (fun _ => ret []).

(** ** A connection's life *)

(** The events of [ClientToServerEvents], their payloads at the types
    declared there; a request event comes with its acknowledgement
    function, which the handler's result is passed to. *)
Inductive ClientEvent :=
| GetGroups
| CreateGroup (name : string) (description : option string)
| JoinGroup (groupId : string)
| LeaveGroup (groupId : string)
| SendMessage (groupId message : string)
| LoadMessages (groupId : string) (before : option string).

(** What reaches the server: a handshake with its credential, an event
    of a socket together with the clock's reading when it is handled, or
    the end of a socket. *)
Inductive Input :=
| Connect (socketId : string) (token : option Json)
| Emit (socketId : string) (now : Z) (ev : ClientEvent)
| Disconnect (socketId : string).

(** The body of the connection handler up to the registration of the
    event handlers, which close over [user]. *)
Definition onConnection (socketId : string) (user : User) : Async unit :=
  redis_cmd (addUserConnection socketId (address user)) ;;;
  socket_emit socketId (EvConnectionEstablished socketId) ;;;
  (fun w => (Ok tt, mkWorld (mongo w) (redis w) (rooms w)
                      (<[socketId := user]> (sessions w)) (outbox w))).

Definition dispatch (socketId : string) (user : User) (now : Z) (ev : ClientEvent)
  : Async unit :=
  match ev with
  | GetGroups =>
      gs <- getGroups user ;; socket_emit socketId (AckGroups gs)
  | CreateGroup name description =>
      g <- createGroup user now name description ;; socket_emit socketId (AckGroup g)
  | JoinGroup groupId => joinGroup socketId user now groupId
  | LeaveGroup groupId => leaveGroup socketId groupId
  | SendMessage groupId message => sendMessage socketId user now groupId message
  | LoadMessages groupId before =>
      ms <- loadMessages groupId before ;; socket_emit socketId (AckMessages ms)
  end.

(** The transport's part of a disconnect: the socket leaves every room
    and its handlers are gone. *)
Definition drop_socket (socketId : string) : Async unit :=
  fun w => (Ok tt, mkWorld (mongo w) (redis w)
                     ((fun members => members ∖ {[socketId]}) <$> rooms w)
                     (delete socketId (sessions w)) (outbox w)).

Definition react (i : Input) : Async unit :=
  match i with
  | Connect socketId token =>
      r <- authMiddleware token ;;
      match r with
      | inl err => socket_emit socketId (EvConnectError err)
      | inr user => onConnection socketId user
      end
  | Emit socketId now ev =>
      fun w => match sessions w !! socketId with
               | Some user => dispatch socketId user now ev w
               | None => (Ok tt, w)
               end
  | Disconnect socketId =>
      fun w => match sessions w !! socketId with
               | Some _ => (redis_cmd (cleanup socketId) ;;; drop_socket socketId) w
               | None => (Ok tt, w)
               end
  end.

Definition step (i : Input) (w : World) : World := snd (react i w).

Definition run (ins : list Input) (w : World) : World :=
  foldl (fun w i => step i w) w ins.

End Gateway.

(** ** The Redis client's retry delay

    [retryStrategy] of the client's options: the delay in milliseconds
    before reconnection attempt number [times]. *)
Definition retryStrategy (times : Z) : Z :=
  let delay := Z.min (times * 50) 2000 in
  delay.

(** ** Two handlers at once

    The three commands of [removeUserFromGroup] are awaited one by one,
    so commands of other handlers can reach the store between them;
    [others] is what those that land between the [hlen] and the [del]
    do to the store.  With nothing in between this is
    [removeUserFromGroup]. *)
Definition removeUserFromGroup_among (groupId socketId : string)
  (others : gmap string (gmap string string) -> gmap string (gmap string string))
  (r : gmap string (gmap string string)) : gmap string (gmap string string) :=
  let key := group_key groupId in
  let r := hdel key socketId r in
  let remaining := hlen key r in
  let r := others r in
  if Nat.eqb remaining 0 then del key r else r.

(** ** The earlier server file, src/server.ts

    Its [joinGroup] handler has the same body; its [catch] only logs. *)
Module ServerTs.
Section Handlers.
Context `{ObjectIdCodec} `{AddressFilter}.

Definition joinGroup (socketId : string) (user : User) (now : Z) (groupId : string)
  : Async unit :=
  try_catch
    (redis_cmd (addUserToGroup groupId socketId (address user)) ;;;
     group <- Group_findById groupId ;;
     match group with
     | Some group =>
         if negb (includes (user_id user) (g_members group)) then
           Group_save (push_member group (user_id user)) now
         else ret tt
     | None => ret tt
     end ;;;
     socket_join socketId groupId)
    (fun _ => ret tt).

End Handlers.
End ServerTs.

(** ** Identifiers as 24 hexadecimal digits

    An instance of the codec: an identifier prints as its hexadecimal
    digits, padded with zeros to 24 characters, and a string of at least
    24 hexadecimal digits casts to the number it spells.  It serves the
    sample runs, whose identifiers are 24 lower-case digits; the driver
    itself takes exactly 24 digits, of either case. *)
Module Hex.

Fixpoint zeros (n : nat) (s : string) : string :=
  match n with
  | O => s
  | S n => String "0"%char (zeros n s)
  end.

Definition toString (i : ObjectId) : string :=
  let digits := NilEmpty.string_of_uint (N.to_hex_uint i) in
  zeros (24 - String.length digits) digits.

Definition cast (s : string) : option ObjectId :=
  if Nat.leb 24 (String.length s)
  then option_map N.of_hex_uint (NilEmpty.uint_of_string s)
  else None.

Lemma length_zeros n s : String.length (zeros n s) = (n + String.length s)%nat.
Proof. induction n as [|n IH]; simpl; [reflexivity | now rewrite IH]. Qed.

Lemma cast_zeros n s :
  option_map N.of_hex_uint (NilEmpty.uint_of_string (zeros n s))
  = option_map N.of_hex_uint (NilEmpty.uint_of_string s).
Proof.
  induction n as [|n IH]; simpl; [reflexivity|].
  rewrite <- IH. now destruct (NilEmpty.uint_of_string (zeros n s)).
Qed.

Lemma cast_toString' i : cast (toString i) = Some i.
Proof.
  unfold cast, toString.
  rewrite length_zeros.
  replace (Nat.leb 24 _) with true by (symmetry; apply Nat.leb_le; lia).
  rewrite cast_zeros, NilEmpty.usu. simpl.
  now rewrite HexadecimalN.Unsigned.of_to.
Qed.

Lemma toString_nonempty' i : toString i <> "".
Proof.
  intros Heq. apply (f_equal String.length) in Heq.
  unfold toString in Heq. rewrite length_zeros in Heq. simpl in Heq. lia.
Qed.

#[export] Instance codec : ObjectIdCodec :=
  {| castObjectId := cast; oid_toString := toString;
     cast_toString := cast_toString'; toString_nonempty := toString_nonempty' |}.

End Hex.

(** ** Filter values on [address]

    An instance of the filter for the sample runs, which send strings
    and the operator document [{ $ne: x }]: a string selects the
    addresses equal to it; [{ $ne: x }] selects the addresses other than
    the string [x], and every address when [x] is [null] (an address is
    required, so none is null).  It is not the driver's whole query
    language: every other value is treated as one the cast rejects. *)
Module Operators.

Definition filter (v : Json) : option (string -> bool) :=
  match v with
  | JString s => Some (fun a => String.eqb a s)
  | JObject [(op, x)] =>
      if String.eqb op "$ne" then
        match x with
        | JNull => Some (fun _ => true)
        | JString s => Some (fun a => negb (String.eqb a s))
        | _ => None
        end
      else None
  | _ => None
  end.

#[export] Instance address : AddressFilter :=
  {| address_filter := filter; address_filter_string := fun s => eq_refl |}.

End Operators.

(** * Concrete runs *)

Module Sample.

#[local] Existing Instance Hex.codec.
#[local] Existing Instance Operators.address.

Definition alice : User := mkUser 1%N "0xA11CE".
Definition bob : User := mkUser 2%N "0xB0B".

(** Two users, nothing else; the next identifier is 16. *)
Definition world0 : World :=
  mkWorld (mkMongo [alice; bob] [] [] 16%N) ∅ ∅ ∅ [].

(** The identifier the first created document gets, and one that no
    document ever gets in these runs. *)
Definition G1 : string := "000000000000000000000010".
Definition missing : string := "0000000000000000000000ff".

(** The identifier of the second created document. *)
Definition G2 : string := "000000000000000000000011".

(** Alice connects, creates a group and joins it; Bob connects and
    joins it too. *)
Definition world1 : World :=
  run [Connect "s1" (Some "0xA11CE");
       Emit "s1" 1000 (CreateGroup "G1" None);
       Emit "s1" 1001 (JoinGroup G1);
       Connect "s2" (Some "0xB0B");
       Emit "s2" 1002 (JoinGroup G1)] world0.

(** [n] messages sent by alice to [G1], one per millisecond from [t]. *)
Fixpoint sends (n : nat) (t : Z) : list Input :=
  match n with
  | O => []
  | S n => Emit "s1" t (SendMessage G1 "m") :: sends n (t + 1)
  end.

(** 120 messages with strictly increasing creation times. *)
Definition world120 : World := run (sends 120 2000) world1.

(** 51 messages, the first two created in the same millisecond. *)
Definition world_tied : World :=
  run (Emit "s1" 2000 (SendMessage G1 "m") :: sends 50 2000) world1.

(** 51 messages with pairwise different creation times, the second
    created one millisecond before the first (the clock was set back
    between the two). *)
Definition world_stepped : World :=
  run (Emit "s1" 2000 (SendMessage G1 "m")
       :: Emit "s1" 1999 (SendMessage G1 "m") :: sends 49 2001) world1.

(** Alice also joined an identifier that names no group. *)
Definition world_ghost : World :=
  step (Emit "s1" 1003 (JoinGroup missing)) world1.

(** Two more groups: one of Bob's, then one of Alice's. *)
Definition world_groups : World :=
  run [Emit "s2" 1010 (CreateGroup "G2" (Some "second"));
       Emit "s1" 1020 (CreateGroup "G3" None)] world1.

End Sample.

(** * The vocabulary of the properties *)

(** ** Presence *)

(** What the loop body of [cleanup] (and [removeUserFromGroup]) leaves
    under the key it works on. *)
Definition purged (socketId : string) (o : option (gmap string string))
  : option (gmap string string) :=
  match o with
  | Some h => if Nat.eqb (size (delete socketId h)) 0 then None
              else Some (delete socketId h)
  | None => None
  end.

(** No key of a group's presence holds an empty hash. *)
Definition no_empty_presence (r : gmap string (gmap string string)) : Prop :=
  forall key, glob "group:*:users" key = true -> r !! key <> Some ∅.

(** ** Documents *)

(** [Group.findById] after the cast. *)
Definition find_group (id : ObjectId) (m : Mongo) : option Group :=
  List.find (fun g => N.eqb (g_id g) id) (groups m).

(** The world after the three steps of a join that met no exception and
    had nothing to save. *)
Definition joined (socketId groupId : string) (user : User) (w : World) : World :=
  mkWorld (mongo w)
          (addUserToGroup groupId socketId (address user) (redis w))
          (<[groupId := {[socketId]} ∪ default ∅ (rooms w !! groupId)]> (rooms w))
          (sessions w) (outbox w).

(** The group document as [save] writes it after the push. *)
Definition with_member (g : Group) (id : ObjectId) (now : Z) : Group :=
  mkGroup (g_id g) (g_name g) (g_description g) (g_owner g)
          (g_members g ++ [id]) (g_isPrivate g) (g_createdAt g) now.

(** A group document is kept: same identity, privacy flag, owner and
    creation time, and every member it had. *)
Definition group_kept (g g' : Group) : Prop :=
  g_id g' = g_id g
  /\ g_isPrivate g' = g_isPrivate g
  /\ g_owner g' = g_owner g
  /\ g_createdAt g' = g_createdAt g
  /\ forall id, In id (g_members g) -> In id (g_members g').

Definition groups_kept (m m' : Mongo) : Prop :=
  forall g, In g (groups m) -> exists g', In g' (groups m') /\ group_kept g g'.

(** No group's member list holds an identity twice. *)
Definition members_nodup (m : Mongo) : Prop :=
  Forall (fun g => NoDup (g_members g)) (groups m).

(** The groups [getGroups] asks the store for, in the collection's order. *)
Definition public_groups (m : Mongo) : list Group :=
  List.filter (fun g => negb (g_isPrivate g)) (groups m).

(** The identifiers of the private groups, in the collection's order. *)
Definition private_ids (m : Mongo) : list ObjectId :=
  map g_id (List.filter g_isPrivate (groups m)).

(** ** Orders *)

(** [a] is listed before [b]: [b] is not newer than [a]. *)
Definition not_older {A} (key : A -> Z) (a b : A) : Prop := (key b <= key a)%Z.

(** [a] is listed before [b]: [a] has the larger identifier. *)
Definition newer_id (a b : Chat) : Prop := (c_id b < c_id a)%N.

(** [a] is listed before [b]: [a] was created strictly later. *)
Definition created_later (a b : Chat) : Prop := (c_createdAt b < c_createdAt a)%Z.

(** ** A group's history and the walk through it *)

(** The non-deleted messages of a group, in the collection's order. *)
Definition group_messages (gid : ObjectId) (cs : list Chat) : list Chat :=
  List.filter (fun c => N.eqb (c_groupId c) gid && negb (c_isDeleted c)) cs.

(** Creation time strictly increases with the identifier. *)
Definition time_follows_ids (l : list Chat) : Prop :=
  forall a b, In a l -> In b l ->
    (c_id a < c_id b)%N -> (c_createdAt a < c_createdAt b)%Z.

(** Every sender reference resolves to a user. *)
Definition senders_known (us : list User) (l : list Chat) : Prop :=
  forall c, In c l -> findUserById (c_sender c) us <> None.

(** The two premises as checks that compute. *)
Definition time_follows_ids_b (l : list Chat) : bool :=
  forallb (fun a =>
    forallb (fun b => implb (N.ltb (c_id a) (c_id b))
                            (Z.ltb (c_createdAt a) (c_createdAt b))) l) l.

Definition senders_known_b (us : list User) (l : list Chat) : bool :=
  forallb (fun c => match findUserById (c_sender c) us with
                    | Some _ => true
                    | None => false
                    end) l.

(** [pages] cuts [all] into consecutive non-empty pages of [PAGE_LIMIT]
    messages, the last one possibly shorter. *)
Definition paged {A} (all : list A) (pages : list (list A)) : Prop :=
  concat pages = all
  /\ forall i page, pages !! i = Some page ->
       page = take PAGE_LIMIT (drop (PAGE_LIMIT * i) all) /\ page <> [].

(** [w'] is a state of the stores after [w] in which messages were
    only inserted, none of them into group [gid] with an identifier
    smaller than that of a message the group had in [w]; the users are
    the same. *)
Definition inserted_no_smaller (gid : ObjectId) (w w' : World) : Prop :=
  users (mongo w') = users (mongo w)
  /\ exists new,
       chats (mongo w') = chats (mongo w) ++ new
       /\ forall c, In c new -> c_groupId c = gid ->
            forall c0, In c0 (group_messages gid (chats (mongo w))) ->
              (c_id c0 <= c_id c)%N.

Section ClientWalk.
Context `{ObjectIdCodec}.

(** The client's walk through the history: ask for a page and, as long
    as the page is not empty, ask again with the identifier of the
    page's last (oldest) message as [before].  The pages are returned
    first page first; [None] when the fuel is used up before an empty
    page ends the walk. *)
Fixpoint walk (fuel : nat) (groupId : string) (before : option string) (w : World)
  : option (list (list MessageType)) :=
  match fuel with
  | O => None
  | S fuel =>
      match fst (loadMessages groupId before w) with
      | Ok page =>
          match last page with
          | None => Some []
          | Some oldest => cons page <$> walk fuel groupId (Some (m_id oldest)) w
          end
      | Thrown _ => None
      end
  end.

(** The same walk while the server goes on: request number [k] (from
    0) is answered in the world [at_request k], whatever the server
    handled between two requests of the walk. *)
Fixpoint walk_during (fuel : nat) (groupId : string) (before : option string)
  (at_request : nat -> World) (k : nat) : option (list (list MessageType)) :=
  match fuel with
  | O => None
  | S fuel =>
      match fst (loadMessages groupId before (at_request k)) with
      | Ok page =>
          match last page with
          | None => Some []
          | Some oldest =>
              cons page <$> walk_during fuel groupId (Some (m_id oldest)) at_request (S k)
          end
      | Thrown _ => None
      end
  end.

(** A chat as [loadMessages] formats it, its sender looked up in [us]. *)
Definition format_chat (us : list User) (c : Chat) : MessageType :=
  mkMessage (oid_toString (c_id c)) (c_message c)
            (from_option address "" (findUserById (c_sender c) us))
            (c_createdAt c) (oid_toString (c_groupId c)).

End ClientWalk.

(** ** Steps *)

(** A computation that leaves the world as it found it. *)
Definition read_only {A} (m : Async A) : Prop := forall w, snd (m w) = w.

(** What one input can do to the document store; [ss] are the
    connections' users at that moment, and every write is made for the
    user of one of them. *)
Inductive mongo_step (ss : gmap string User) (m : Mongo) : Mongo -> Prop :=
| mongo_same : mongo_step ss m m
| mongo_group_created socketId user name description now :
    ss !! socketId = Some user ->
    mongo_step ss m
      (mkMongo (users m)
               (groups m ++ [mkGroup (nextObjectId m) name description (user_id user)
                                     [user_id user] false now now])
               (chats m) (N.succ (nextObjectId m)))
| mongo_member_added socketId user id g now :
    ss !! socketId = Some user ->
    find_group id m = Some g ->
    includes (user_id user) (g_members g) = false ->
    mongo_step ss m
      (mkMongo (users m)
               (updateOne (g_id g) (with_member g (user_id user) now) (groups m))
               (chats m) (nextObjectId m))
| mongo_chat_created socketId user message gid now :
    ss !! socketId = Some user ->
    mongo_step ss m
      (mkMongo (users m) (groups m)
               (chats m ++ [mkChat (nextObjectId m) message (user_id user) gid now
                                   false now])
               (N.succ (nextObjectId m))).

(** What one input can do to the connections' users. *)
Inductive sessions_step (w : World) : gmap string User -> Prop :=
| sessions_same : sessions_step w (sessions w)
| sessions_opened socketId user :
    In user (users (mongo w)) ->
    sessions_step w (<[socketId := user]> (sessions w))
| sessions_closed socketId : sessions_step w (delete socketId (sessions w)).

(** What one input can do to the key-value store. *)
Inductive redis_step (r : gmap string (gmap string string))
  : gmap string (gmap string string) -> Prop :=
| redis_same : redis_step r r
| redis_joined groupId socketId a : redis_step r (addUserToGroup groupId socketId a r)
| redis_left groupId socketId : redis_step r (removeUserFromGroup groupId socketId r)
| redis_connected socketId a : redis_step r (addUserConnection socketId a r)
| redis_cleaned socketId : redis_step r (cleanup socketId r).

(** Chat identifiers are distinct and below the generator's next
    identifier, every chat's sender is a user of the store, and so is
    every connection's user. *)
Definition store_ok (w : World) : Prop :=
  NoDup (map c_id (chats (mongo w)))
  /\ (forall c, In c (chats (mongo w)) -> (c_id c < nextObjectId (mongo w))%N)
  /\ senders_known (users (mongo w)) (chats (mongo w))
  /\ (forall socketId user, sessions w !! socketId = Some user ->
         In user (users (mongo w))).

(** ** Connections *)

(** What one input can do to the presence store, the rooms and the
    connections' users together. *)
Inductive conn_step (w : World)
  : gmap string (gmap string string) -> gmap string (gset string)
    -> gmap string User -> Prop :=
| conn_same : conn_step w (redis w) (rooms w) (sessions w)
| conn_opened socketId user :
    conn_step w (addUserConnection socketId (address user) (redis w)) (rooms w)
              (<[socketId := user]> (sessions w))
| conn_presence socketId user groupId :
    sessions w !! socketId = Some user ->
    conn_step w (addUserToGroup groupId socketId (address user) (redis w)) (rooms w)
              (sessions w)
| conn_joined socketId user groupId :
    sessions w !! socketId = Some user ->
    conn_step w (addUserToGroup groupId socketId (address user) (redis w))
              (<[groupId := {[socketId]} ∪ default ∅ (rooms w !! groupId)]> (rooms w))
              (sessions w)
| conn_left socketId groupId :
    conn_step w (removeUserFromGroup groupId socketId (redis w))
              (<[groupId := default ∅ (rooms w !! groupId) ∖ {[socketId]}]> (rooms w))
              (sessions w)
| conn_closed socketId :
    conn_step w (cleanup socketId (redis w))
              ((fun members => members ∖ {[socketId]}) <$> rooms w)
              (delete socketId (sessions w)).

(** The global connection hash lists the live connections with their
    users' addresses; a presence entry belongs to a live connection; a
    connection in a room is in that room's presence hash. *)
Definition connections_ok (w : World) : Prop :=
  (forall socketId,
      hgetall "user_connections" (redis w) !! socketId
      = address <$> sessions w !! socketId)
  /\ (forall groupId socketId,
         is_Some (getGroupUsers groupId (redis w) !! socketId) ->
         is_Some (sessions w !! socketId))
  /\ (forall room socketId,
         socketId ∈ default ∅ (rooms w !! room) ->
         is_Some (getGroupUsers room (redis w) !! socketId)).

Section Cursor.
Context `{ObjectIdCodec} `{AddressFilter}.

(** The [_id] clause of the query of [loadMessages]: [None] when the
    cast of a truthy [before] fails, [Some None] when there is no
    clause. *)
Definition cursor_of (before : option string) : option (option ObjectId) :=
  match truthy before with
  | None => Some None
  | Some b => match castObjectId b with
              | Some bid => Some (Some bid)
              | None => None
              end
  end.

End Cursor.

(** * Properties *)

(** ** The presence store *)

Section Presence.
Implicit Types r : gmap string (gmap string string).
Implicit Types key k socketId groupId : string.

Lemma glob_star_suffix (p s t : string) :
  glob p t = true -> glob (String "*"%char p) (s +:+ t) = true.
Proof.
  intros Ht.
  assert (Hstar : forall u, glob (String "*"%char p) u
                            = glob p u || match u with
                                          | EmptyString => false
                                          | String _ u' => glob (String "*"%char p) u'
                                          end).
  { intros [|c u]; reflexivity. }
  induction s as [|c s IH].
  - change ("" +:+ t) with t. now rewrite Hstar, Ht.
  - change (String c s +:+ t) with (String c (s +:+ t)).
    rewrite Hstar, IH. apply orb_true_r.
Qed.

Lemma glob_group_key groupId : glob "group:*:users" (group_key groupId) = true.
Proof.
  unfold group_key.
  change (glob "group:*:users" ("group:" +:+ groupId +:+ ":users"))
    with (glob "*:users" (groupId +:+ ":users")).
  now apply glob_star_suffix.
Qed.

Lemma glob_user_connections : glob "group:*:users" "user_connections" = false.
Proof. reflexivity. Qed.

Lemma glob_not_user_connections k :
  glob "group:*:users" k = true -> k <> "user_connections".
Proof. intros Hk ->. discriminate Hk. Qed.

Lemma elem_of_keys pattern r k :
  k ∈ keys pattern r <-> glob pattern k = true /\ is_Some (r !! k).
Proof.
  unfold keys. rewrite list_elem_of_In, filter_In, <- list_elem_of_In.
  rewrite list_elem_of_fmap. split.
  - intros [[[k' h] [-> Hin]] Hg]. split; [exact Hg|].
    apply elem_of_map_to_list in Hin. simpl. eauto.
  - intros [Hg [h Hh]]. split; [|exact Hg].
    exists (k, h). split; [reflexivity|]. now apply elem_of_map_to_list.
Qed.

Lemma purged_idemp socketId o : purged socketId (purged socketId o) = purged socketId o.
Proof.
  destruct o as [h|]; simpl; [|reflexivity].
  destruct (Nat.eqb (size (delete socketId h)) 0) eqn:E; simpl; [reflexivity|].
  rewrite delete_delete_eq. now rewrite E.
Qed.

Lemma purged_lookup socketId o h : purged socketId o = Some h -> h !! socketId = None.
Proof.
  destruct o as [h0|]; simpl; [|discriminate].
  destruct (Nat.eqb _ 0); [discriminate|].
  intros [= <-]. apply lookup_delete_eq.
Qed.

Lemma purged_nonempty socketId o : purged socketId o <> Some ∅.
Proof.
  destruct o as [h0|]; simpl; [|discriminate].
  destruct (Nat.eqb _ 0) eqn:E; [discriminate|].
  intros [= Heq]. rewrite Heq, map_size_empty in E. discriminate.
Qed.

Lemma lookup_cleanup_key socketId r key k :
  cleanup_key socketId r key !! k
  = if decide (k = key) then purged socketId (r !! k) else r !! k.
Proof.
  unfold cleanup_key, hdel, hlen, del.
  destruct (decide (k = key)) as [->|Hne].
  - destruct (r !! key) as [h|] eqn:E; simpl.
    + rewrite lookup_insert_eq. simpl.
      destruct (Nat.eqb _ 0); [apply lookup_delete_eq | apply lookup_insert_eq].
    + rewrite E. simpl. rewrite map_size_empty. simpl. apply lookup_delete_eq.
  - destruct (r !! key) as [h|] eqn:E; simpl.
    + rewrite lookup_insert_eq. simpl.
      destruct (Nat.eqb _ 0).
      * rewrite lookup_delete_ne by congruence. now rewrite lookup_insert_ne by congruence.
      * now rewrite lookup_insert_ne by congruence.
    + rewrite E. simpl. rewrite map_size_empty. simpl.
      now rewrite lookup_delete_ne by congruence.
Qed.

Lemma lookup_cleanup_loop socketId (ks : list string) r k :
  foldl (cleanup_key socketId) r ks !! k
  = if decide (k ∈ ks) then purged socketId (r !! k) else r !! k.
Proof.
  revert r. induction ks as [|key ks IH]; intros r; simpl.
  - destruct (decide (k ∈ [])) as [Hin|]; [inversion Hin | reflexivity].
  - rewrite IH, lookup_cleanup_key.
    destruct (decide (k = key)) as [->|Hne].
    + destruct (decide (key ∈ ks)), (decide (key ∈ key :: ks)) as [|Hn];
        try reflexivity; try apply purged_idemp.
      all: exfalso; apply Hn; constructor.
    + destruct (decide (k ∈ ks)) as [Hin|Hnin], (decide (k ∈ key :: ks)) as [Hin'|Hnin'];
        try reflexivity.
      * exfalso. apply Hnin'. now constructor.
      * exfalso. apply Hnin. inversion Hin'; subst; [congruence | assumption].
Qed.

Lemma lookup_hdel_ne key field r k : k <> key -> hdel key field r !! k = r !! k.
Proof.
  intros Hne. unfold hdel. destruct (r !! key); [|reflexivity].
  now rewrite lookup_insert_ne by congruence.
Qed.

Lemma lookup_hdel_eq key field r :
  hdel key field r !! key = delete field <$> (r !! key).
Proof.
  unfold hdel. destruct (r !! key) eqn:E; simpl.
  - apply lookup_insert_eq.
  - exact E.
Qed.

(** The group keys after [cleanup]: every one of them went through the
    loop body. *)
Lemma lookup_cleanup_group socketId r k :
  glob "group:*:users" k = true ->
  cleanup socketId r !! k = purged socketId (r !! k).
Proof.
  intros Hg. unfold cleanup.
  rewrite lookup_hdel_ne by now apply glob_not_user_connections.
  rewrite lookup_cleanup_loop.
  destruct (decide (k ∈ keys "group:*:users" r)) as [|Hn]; [reflexivity|].
  destruct (r !! k) as [h|] eqn:E; [|reflexivity].
  exfalso. apply Hn. apply elem_of_keys. rewrite E. eauto.
Qed.

Lemma lookup_cleanup_connections socketId r :
  cleanup socketId r !! "user_connections"
  = delete socketId <$> (r !! "user_connections").
Proof.
  unfold cleanup. rewrite lookup_hdel_eq. f_equal.
  rewrite lookup_cleanup_loop.
  destruct (decide _) as [Hin|]; [|reflexivity].
  apply elem_of_keys in Hin. destruct Hin as [Hg _]. discriminate Hg.
Qed.

Lemma lookup_removeUserFromGroup groupId socketId r k :
  removeUserFromGroup groupId socketId r !! k
  = if decide (k = group_key groupId) then purged socketId (r !! k) else r !! k.
Proof. apply lookup_cleanup_key. Qed.

Lemma lookup_hset key field value r k :
  hset key field value r !! k
  = if decide (k = key) then Some (<[field := value]> (default ∅ (r !! key)))
    else r !! k.
Proof.
  unfold hset. destruct (decide (k = key)) as [->|Hne].
  - apply lookup_insert_eq.
  - now rewrite lookup_insert_ne by congruence.
Qed.

End Presence.

(** ** What each handler does to the world *)

Ltac unfold_async :=
  unfold try_catch, bind, ret, throw, get_mongo, set_mongo, redis_cmd,
    socket_emit, io_to_emit, socket_join, socket_leave; simpl.

Section Handlers.
Context `{ObjectIdCodec} `{AddressFilter}.

Lemma joinGroup_malformed socketId user now groupId w :
  castObjectId groupId = None ->
  joinGroup socketId user now groupId w
  = (Ok tt, mkWorld (mongo w)
              (addUserToGroup groupId socketId (address user) (redis w))
              (rooms w) (sessions w)
              (outbox w ++ [(socketId, EvError "Failed to join group")])).
Proof.
  intros Hc. unfold joinGroup, Group_findById. rewrite Hc. reflexivity.
Qed.

Lemma joinGroup_no_group socketId user now groupId id w :
  castObjectId groupId = Some id ->
  find_group id (mongo w) = None ->
  joinGroup socketId user now groupId w = (Ok tt, joined socketId groupId user w).
Proof.
  intros Hc Hf. unfold joinGroup, Group_findById. rewrite Hc.
  unfold_async. unfold find_group in Hf. rewrite Hf. reflexivity.
Qed.

Lemma joinGroup_already_member socketId user now groupId id g w :
  castObjectId groupId = Some id ->
  find_group id (mongo w) = Some g ->
  includes (user_id user) (g_members g) = true ->
  joinGroup socketId user now groupId w = (Ok tt, joined socketId groupId user w).
Proof.
  intros Hc Hf Hi. unfold joinGroup, Group_findById. rewrite Hc.
  unfold_async. unfold find_group in Hf. rewrite Hf, Hi. reflexivity.
Qed.

Lemma joinGroup_new_member socketId user now groupId id g w :
  castObjectId groupId = Some id ->
  find_group id (mongo w) = Some g ->
  includes (user_id user) (g_members g) = false ->
  joinGroup socketId user now groupId w
  = (Ok tt,
     mkWorld (mkMongo (users (mongo w))
                      (updateOne (g_id g) (with_member g (user_id user) now)
                                 (groups (mongo w)))
                      (chats (mongo w)) (nextObjectId (mongo w)))
             (addUserToGroup groupId socketId (address user) (redis w))
             (<[groupId := {[socketId]} ∪ default ∅ (rooms w !! groupId)]> (rooms w))
             (sessions w) (outbox w)).
Proof.
  intros Hc Hf Hi. unfold joinGroup, Group_findById. rewrite Hc.
  unfold_async. unfold find_group in Hf. rewrite Hf, Hi. reflexivity.
Qed.

Lemma leaveGroup_eq socketId groupId w :
  leaveGroup socketId groupId w
  = (Ok tt, mkWorld (mongo w)
              (removeUserFromGroup groupId socketId (redis w))
              (<[groupId := default ∅ (rooms w !! groupId) ∖ {[socketId]}]> (rooms w))
              (sessions w) (outbox w)).
Proof. reflexivity. Qed.

Lemma createGroup_invalid user now description w :
  createGroup user now "" description w = (Ok None, w).
Proof. reflexivity. Qed.

Lemma createGroup_valid user now name description w :
  name <> "" ->
  let g := mkGroup (nextObjectId (mongo w)) name description (user_id user)
                   [user_id user] false now now in
  createGroup user now name description w
  = (Ok (Some (populateGroup (users (mongo w)) g)),
     mkWorld (mkMongo (users (mongo w)) (groups (mongo w) ++ [g]) (chats (mongo w))
                      (N.succ (nextObjectId (mongo w))))
             (redis w) (rooms w) (sessions w) (outbox w)).
Proof.
  intros Hn g. unfold createGroup, Group_create, required_string.
  destruct (String.eqb_spec name ""); [contradiction|]. reflexivity.
Qed.

Lemma sendMessage_fails socketId user now groupId message w :
  message = "" \/ castObjectId groupId = None ->
  sendMessage socketId user now groupId message w
  = (Ok tt, mkWorld (mongo w) (redis w) (rooms w) (sessions w)
              (outbox w ++ [(socketId, EvError "Failed to send message")])).
Proof.
  intros Hf. unfold sendMessage, Chat_create, required_string.
  destruct (String.eqb_spec message ""); simpl; [reflexivity|].
  destruct Hf as [?|Hc]; [contradiction|]. rewrite Hc. reflexivity.
Qed.

Lemma sendMessage_ok socketId user now groupId message gid w :
  message <> "" ->
  castObjectId groupId = Some gid ->
  let c := mkChat (nextObjectId (mongo w)) message (user_id user) gid now false now in
  let ev := EvMessage (mkMessage (oid_toString (c_id c)) message (address user) now
                                 (oid_toString gid)) in
  sendMessage socketId user now groupId message w
  = (Ok tt,
     mkWorld (mkMongo (users (mongo w)) (groups (mongo w)) (chats (mongo w) ++ [c])
                      (N.succ (nextObjectId (mongo w))))
             (redis w) (rooms w) (sessions w)
             (outbox w ++ map (fun s => (s, ev)) (room_members groupId w))).
Proof.
  intros Hn Hc c ev. unfold sendMessage, Chat_create, required_string.
  destruct (String.eqb_spec message ""); [contradiction|]. simpl.
  rewrite Hc. reflexivity.
Qed.

End Handlers.

(** ** Computations that only read *)

Create HintDb readonly.

Lemma read_only_ret {A} (a : A) : read_only (ret a).
Proof. intros w. reflexivity. Qed.

Lemma read_only_throw {A} e : read_only (@throw A e).
Proof. intros w. reflexivity. Qed.

Lemma read_only_get_mongo : read_only get_mongo.
Proof. intros w. reflexivity. Qed.

Lemma read_only_bind {A B} (m : Async A) (k : A -> Async B) :
  read_only m -> (forall a, read_only (k a)) -> read_only (bind m k).
Proof.
  intros Hm Hk w. unfold bind. specialize (Hm w).
  destruct (m w) as [[a|e] w']; simpl in *; subst; [apply Hk | reflexivity].
Qed.

Lemma read_only_try_catch {A} (m : Async A) (h : string -> Async A) :
  read_only m -> (forall e, read_only (h e)) -> read_only (try_catch m h).
Proof.
  intros Hm Hh w. unfold try_catch. specialize (Hm w).
  destruct (m w) as [[a|e] w']; simpl in *; subst; [reflexivity | apply Hh].
Qed.

#[export] Hint Resolve read_only_ret read_only_throw read_only_get_mongo
  read_only_bind read_only_try_catch : readonly.

Ltac read_only_tac :=
  repeat first
    [ apply read_only_ret | apply read_only_throw | apply read_only_get_mongo
    | apply read_only_bind | apply read_only_try_catch
    | match goal with |- forall _, _ => intro end
    | match goal with |- read_only (match ?x with _ => _ end) => destruct x end
    | match goal with |- read_only (if ?x then _ else _) => destruct x end ].

Section ReadOnly.
Context `{ObjectIdCodec} `{AddressFilter}.

Lemma User_findOne_read_only token : read_only (User_findOne token).
Proof. unfold User_findOne. read_only_tac. Qed.

Lemma authMiddleware_read_only token : read_only (authMiddleware token).
Proof.
  unfold authMiddleware. read_only_tac; try apply User_findOne_read_only; read_only_tac.
Qed.

Lemma getGroups_read_only user : read_only (getGroups user).
Proof. unfold getGroups, Group_find_public. read_only_tac. Qed.

Lemma mapM_format_read_only l : read_only (mapM format_message l).
Proof.
  induction l as [|x l IH]; simpl; [apply read_only_ret|].
  apply read_only_bind.
  - unfold format_message. read_only_tac.
  - intros y. apply read_only_bind; [exact IH | intros; apply read_only_ret].
Qed.

Lemma Chat_find_read_only groupId before : read_only (Chat_find groupId before).
Proof. unfold Chat_find. read_only_tac. Qed.

Lemma loadMessages_read_only groupId before : read_only (loadMessages groupId before).
Proof.
  unfold loadMessages. apply read_only_try_catch; [|intros; apply read_only_ret].
  apply read_only_bind; [apply Chat_find_read_only|]. intros ms.
  apply read_only_bind; [apply mapM_format_read_only | intros; apply read_only_ret].
Qed.

End ReadOnly.

(** ** What one input can do to the stores *)

Section Steps.
Context `{ObjectIdCodec} `{AddressFilter}.

(** The handshake by cases: it answers, and it changes nothing. *)
Lemma authMiddleware_cases token w :
  authMiddleware token w
  = (Ok match truthy_json token with
        | None => inl "Authentication token required"
        | Some v =>
            match address_filter v with
            | None => inl "Authentication failed"
            | Some selects =>
                match List.find (fun u => selects (address u)) (users (mongo w)) with
                | None => inl "Authentication failed"
                | Some user => inr user
                end
            end
        end, w).
Proof.
  unfold authMiddleware. destruct (truthy_json token) as [v|]; [|reflexivity].
  unfold try_catch, User_findOne, bind. destruct (address_filter v) as [selects|];
    [|reflexivity].
  unfold get_mongo, ret. simpl.
  now destruct (List.find _ (users (mongo w))).
Qed.

Lemma authMiddleware_accepts token w user w' :
  authMiddleware token w = (Ok (inr user), w') -> In user (users (mongo w)).
Proof.
  rewrite authMiddleware_cases.
  destruct (truthy_json token) as [v|]; [|discriminate].
  destruct (address_filter v) as [selects|]; [|discriminate].
  destruct (List.find _ (users (mongo w))) as [u|] eqn:E; [|discriminate].
  intros [= <- _]. now apply find_some in E.
Qed.

Ltac effect_done :=
  simpl; repeat split; first [eassumption | econstructor; eassumption].

Lemma step_effect i w :
  mongo_step (sessions w) (mongo w) (mongo (step i w))
  /\ redis_step (redis w) (redis (step i w))
  /\ sessions_step w (sessions (step i w)).
Proof.
  unfold step. destruct i as [socketId token | socketId now ev | socketId]; simpl.
  - unfold bind. pose proof (authMiddleware_read_only token w) as Hro.
    destruct (authMiddleware token w) as [[[err|user]|e] w'] eqn:Ha;
      simpl in Hro; subst w'; try effect_done.
    apply authMiddleware_accepts in Ha. effect_done.
  - destruct (sessions w !! socketId) as [user|] eqn:Hs; [|effect_done].
    destruct ev as [|name description|groupId|groupId|groupId message|groupId before]; simpl.
    + unfold bind. pose proof (getGroups_read_only user w) as Hro.
      destruct (getGroups user w) as [[gs|e] w']; simpl in Hro; subst w'; effect_done.
    + unfold bind. destruct (String.eqb_spec name "") as [->|Hn].
      * rewrite createGroup_invalid. effect_done.
      * rewrite createGroup_valid by assumption. effect_done.
    + destruct (castObjectId groupId) as [id|] eqn:Hc.
      * destruct (find_group id (mongo w)) as [g|] eqn:Hf.
        -- destruct (includes (user_id user) (g_members g)) eqn:Hi.
           ++ erewrite joinGroup_already_member by eassumption. effect_done.
           ++ erewrite joinGroup_new_member by eassumption. effect_done.
        -- erewrite joinGroup_no_group by eassumption. effect_done.
      * rewrite joinGroup_malformed by assumption. effect_done.
    + effect_done.
    + destruct (String.eqb_spec message "") as [->|Hn].
      * rewrite sendMessage_fails by (now left). effect_done.
      * destruct (castObjectId groupId) as [gid|] eqn:Hc.
        -- erewrite sendMessage_ok by eassumption. effect_done.
        -- rewrite sendMessage_fails by (now right). effect_done.
    + unfold bind. pose proof (loadMessages_read_only groupId before w) as Hro.
      destruct (loadMessages groupId before w) as [[ms|e] w']; simpl in Hro; subst w';
        effect_done.
  - destruct (sessions w !! socketId) as [user|]; effect_done.
Qed.

Lemma step_mongo i w : mongo_step (sessions w) (mongo w) (mongo (step i w)).
Proof. apply step_effect. Qed.

Lemma step_redis i w : redis_step (redis w) (redis (step i w)).
Proof. apply step_effect. Qed.

Lemma step_sessions i w : sessions_step w (sessions (step i w)).
Proof. apply step_effect. Qed.

Lemma run_app ins1 ins2 w : run (ins1 ++ ins2) w = run ins2 (run ins1 w).
Proof. unfold run. apply foldl_app. Qed.

Lemma run_cons i ins w : run (i :: ins) w = run ins (step i w).
Proof. reflexivity. Qed.

(** An invariant of single inputs is an invariant of every run. *)
Lemma run_invariant (P : World -> Prop) :
  (forall i w, P w -> P (step i w)) ->
  forall ins w, P w -> P (run ins w).
Proof.
  intros Hstep ins. induction ins as [|i ins IH]; intros w Hw; [exact Hw|].
  rewrite run_cons. apply IH, Hstep, Hw.
Qed.

End Steps.

(** ** Presence after a disconnect, and empty presence keys *)

Lemma redis_step_no_empty r r' :
  redis_step r r' -> no_empty_presence r -> no_empty_presence r'.
Proof.
  intros Hstep Hr key Hg. destruct Hstep.
  - now apply Hr.
  - unfold addUserToGroup. rewrite lookup_hset.
    destruct (decide _); [|now apply Hr].
    intros [= Heq]. now apply insert_non_empty in Heq.
  - rewrite lookup_removeUserFromGroup.
    destruct (decide _); [apply purged_nonempty | now apply Hr].
  - unfold addUserConnection. rewrite lookup_hset.
    destruct (decide _) as [->|]; [discriminate Hg | now apply Hr].
  - rewrite lookup_cleanup_group by assumption. apply purged_nonempty.
Qed.

(** C3: after the disconnect cleanup ran for a connection id, no group's
    presence hash holds that id (whatever the number of groups it had
    joined, and under every key the scan's pattern matches), the global
    connection hash does not hold it either, and the disconnect of a live
    connection runs exactly that cleanup. *)
Theorem cleanup_purges_connection `{ObjectIdCodec} `{AddressFilter} (socketId : string) :
  (forall r groupId, getGroupUsers groupId (cleanup socketId r) !! socketId = None)
  /\ (forall r key, glob "group:*:users" key = true ->
                    hgetall key (cleanup socketId r) !! socketId = None)
  /\ (forall r, hgetall "user_connections" (cleanup socketId r) !! socketId = None)
  /\ (forall w user, sessions w !! socketId = Some user ->
        redis (step (Disconnect socketId) w) = cleanup socketId (redis w)).
Proof.
  assert (Hkey : forall r key, glob "group:*:users" key = true ->
                   hgetall key (cleanup socketId r) !! socketId = None).
  { intros r key Hg. unfold hgetall. rewrite lookup_cleanup_group by assumption.
    destruct (purged socketId (r !! key)) as [h|] eqn:E; simpl.
    - eapply purged_lookup, E.
    - apply lookup_empty. }
  repeat split.
  - intros r groupId. apply Hkey, glob_group_key.
  - exact Hkey.
  - intros r. unfold hgetall. rewrite lookup_cleanup_connections.
    destruct (r !! "user_connections"); simpl; [apply lookup_delete_eq | apply lookup_empty].
  - intros w user Hs. unfold step. simpl. rewrite Hs. reflexivity.
Qed.

(** C7: an operation that removes entries from a presence hash deletes
    the key when the hash became empty: [removeUserFromGroup] never
    leaves an empty hash under its group's key, [cleanup] leaves none
    under any presence key, and from a store without empty presence
    hashes (the empty store is one) no run of the server reaches a store
    with one. *)
Theorem no_empty_presence_key_persists `{ObjectIdCodec} `{AddressFilter} :
  (forall groupId socketId r,
      removeUserFromGroup groupId socketId r !! group_key groupId <> Some ∅)
  /\ (forall socketId r, no_empty_presence (cleanup socketId r))
  /\ (forall ins w, no_empty_presence (redis w) -> no_empty_presence (redis (run ins w)))
  /\ (forall ins w, redis w = ∅ -> no_empty_presence (redis (run ins w))).
Proof.
  assert (Hrun : forall ins w, no_empty_presence (redis w) ->
                   no_empty_presence (redis (run ins w))).
  { intros ins. apply (run_invariant (fun w => no_empty_presence (redis w))).
    intros i w. apply redis_step_no_empty, step_redis. }
  repeat split.
  - intros groupId socketId r. rewrite lookup_removeUserFromGroup.
    destruct (decide _); [apply purged_nonempty | congruence].
  - intros socketId r key Hg. rewrite lookup_cleanup_group by assumption.
    apply purged_nonempty.
  - exact Hrun.
  - intros ins w Hw. apply Hrun. intros key _. rewrite Hw, lookup_empty. discriminate.
Qed.

(** ** Lists of documents *)

Lemma find_none_intro {A} (f : A -> bool) (l : list A) :
  (forall x, In x l -> f x = false) -> List.find f l = None.
Proof.
  induction l as [|x l IH]; intros Hf; simpl; [reflexivity|].
  rewrite (Hf x) by now left. apply IH. intros y Hy. apply Hf. now right.
Qed.

Lemma find_group_none id m :
  (forall g, In g (groups m) -> g_id g <> id) -> find_group id m = None.
Proof.
  intros Hg. apply find_none_intro. intros g Hin.
  apply N.eqb_neq. now apply Hg.
Qed.

Lemma find_group_some id m g :
  find_group id m = Some g -> In g (groups m) /\ g_id g = id.
Proof.
  intros Hf. apply find_some in Hf. destruct Hf as [Hin Heq].
  split; [exact Hin | now apply N.eqb_eq].
Qed.

(** [updateOne] replaces the document that [findById] returned. *)
Lemma updateOne_split id m g g' :
  find_group id m = Some g ->
  exists l1 l2, groups m = l1 ++ g :: l2
                /\ updateOne (g_id g) g' (groups m) = l1 ++ g' :: l2.
Proof.
  unfold find_group. induction (groups m) as [|g0 gs IH]; simpl; [discriminate|].
  destruct (N.eqb (g_id g0) id) eqn:E.
  - intros [= ->]. exists [], gs. simpl. now rewrite N.eqb_refl.
  - intros Hf. destruct (IH Hf) as (l1 & l2 & -> & Hu).
    apply find_some in Hf. destruct Hf as [_ Hid]. apply N.eqb_eq in Hid.
    rewrite Hid, E. exists (g0 :: l1), l2. simpl. now rewrite <- Hid, Hu.
Qed.

Lemma includes_In id members : includes id members = true <-> In id members.
Proof.
  unfold includes. rewrite existsb_exists. split.
  - intros (x & Hin & Heq). apply N.eqb_eq in Heq. now subst.
  - intros Hin. exists id. split; [exact Hin | apply N.eqb_refl].
Qed.

Lemma group_kept_refl g : group_kept g g.
Proof. repeat split; auto. Qed.

Lemma group_kept_trans g1 g2 g3 : group_kept g1 g2 -> group_kept g2 g3 -> group_kept g1 g3.
Proof.
  intros (? & ? & ? & ? & ?) (? & ? & ? & ? & ?).
  repeat split; try congruence; auto.
Qed.

Lemma mongo_step_groups_kept ss m m' : mongo_step ss m m' -> groups_kept m m'.
Proof.
  intros Hstep g Hin. destruct Hstep as [| | sid u id g0 now _ Hf Hi |]; simpl.
  - exists g. split; [exact Hin | apply group_kept_refl].
  - exists g. split; [apply in_or_app; now left | apply group_kept_refl].
  - destruct (updateOne_split id m g0 (with_member g0 (user_id u) now) Hf)
      as (l1 & l2 & Hg & ->).
    rewrite Hg in Hin. apply in_app_or in Hin. destruct Hin as [Hin|[<-|Hin]].
    + exists g. split; [apply in_or_app; now left | apply group_kept_refl].
    + exists (with_member g0 (user_id u) now).
      split; [apply in_or_app; right; now left|].
      repeat split; simpl; auto. intros id' Hid. apply in_or_app. now left.
    + exists g. split; [apply in_or_app; right; now right | apply group_kept_refl].
  - exists g. split; [exact Hin | apply group_kept_refl].
Qed.

Lemma mongo_step_users ss m m' : mongo_step ss m m' -> users m' = users m.
Proof. now intros []. Qed.

Section Kept.
Context `{ObjectIdCodec} `{AddressFilter}.

Lemma run_groups_kept ins w : groups_kept (mongo w) (mongo (run ins w)).
Proof.
  revert w. induction ins as [|i ins IH]; intros w g Hin.
  - exists g. split; [exact Hin | apply group_kept_refl].
  - rewrite run_cons.
    destruct (mongo_step_groups_kept _ _ _ (step_mongo i w) g Hin) as (g1 & Hin1 & Hk1).
    destruct (IH (step i w) g1 Hin1) as (g2 & Hin2 & Hk2).
    exists g2. split; [exact Hin2 | eapply group_kept_trans; eassumption].
Qed.

Lemma run_users ins w : users (mongo (run ins w)) = users (mongo w).
Proof.
  revert w. induction ins as [|i ins IH]; intros w; [reflexivity|].
  rewrite run_cons, IH. eapply mongo_step_users, step_mongo.
Qed.

End Kept.

(** ** The handshake *)

Section Handshake.
Context `{ObjectIdCodec} `{AddressFilter}.

Lemma User_findOne_cases v w :
  User_findOne v w
  = (match address_filter v with
     | None => Thrown "CastError"
     | Some selects => Ok (List.find (fun u => selects (address u)) (users (mongo w)))
     end, w).
Proof. unfold User_findOne. now destruct (address_filter v). Qed.

(** A string is looked up by equality with the address. *)
Lemma User_findOne_string (s : string) w :
  User_findOne s w
  = (Ok (List.find (fun u => String.eqb (address u) s) (users (mongo w))), w).
Proof. rewrite User_findOne_cases, address_filter_string. reflexivity. Qed.

Lemma User_findOne_unknown_address (s : string) w :
  (forall u, In u (users (mongo w)) -> address u <> s) ->
  forall user, fst (User_findOne s w) <> Ok (Some user).
Proof.
  intros Hno user. rewrite User_findOne_string. simpl.
  rewrite find_none_intro; [discriminate|].
  intros u Hu. apply String.eqb_neq. now apply Hno.
Qed.

Lemma authMiddleware_refuses token w :
  truthy_json token = None
  \/ (exists v, truthy_json token = Some v
                /\ forall user, fst (User_findOne v w) <> Ok (Some user)) ->
  exists err, authMiddleware token w = (Ok (inl err), w).
Proof.
  intros Ht. rewrite authMiddleware_cases.
  destruct Ht as [->|(v & -> & Hno)]; [eexists; reflexivity|].
  pose proof Hno as Hno'. setoid_rewrite User_findOne_cases in Hno'. simpl in Hno'.
  destruct (address_filter v) as [selects|]; [|eexists; reflexivity].
  destruct (List.find _ (users (mongo w))) as [u|]; [|eexists; reflexivity].
  now contradiction (Hno' u).
Qed.

Lemma emit_without_session socketId now ev w :
  sessions w !! socketId = None -> step (Emit socketId now ev) w = w.
Proof. intros Hs. unfold step. simpl. now rewrite Hs. Qed.

End Handshake.

(** C4: a handshake whose token is absent or falsy (no token, [null],
    [false], zero, the empty string), or is a value for which the lookup
    [User.findOne({ address: token })] returns no user (it finds none,
    or the filter does not cast and the query throws), is refused: the
    client is sent the refusal and nothing else, no store, room or
    session changes (so the connection is not in the global connection
    hash unless it already was, and no connection-established event is
    emitted), and every later event of that socket is dropped.  The
    token is the value the client sent, of whatever type; for a string
    the lookup returns no user exactly when no user has that address
    ([User_findOne_string]). *)
Theorem refused_handshake_creates_no_session `{ObjectIdCodec} `{AddressFilter}
  (socketId : string) (token : option Json) (w : World) :
  truthy_json token = None
  \/ (exists v, truthy_json token = Some v
                /\ forall user, fst (User_findOne v w) <> Ok (Some user)) ->
  sessions w !! socketId = None ->
  let w' := step (Connect socketId token) w in
  (exists err, authMiddleware token w = (Ok (inl err), w)
               /\ outbox w' = outbox w ++ [(socketId, EvConnectError err)])
  /\ mongo w' = mongo w /\ redis w' = redis w /\ rooms w' = rooms w
  /\ sessions w' = sessions w
  /\ (forall evs : list (Z * ClientEvent),
        run (map (fun e => Emit socketId (fst e) (snd e)) evs) w' = w')
  /\ step (Disconnect socketId) w' = w'.
Proof.
  intros Ht Hs w'.
  destruct (authMiddleware_refuses token w Ht) as [err Herr].
  assert (Hw' : w' = mkWorld (mongo w) (redis w) (rooms w) (sessions w)
                       (outbox w ++ [(socketId, EvConnectError err)])).
  { unfold w', step. simpl. unfold bind. rewrite Herr. reflexivity. }
  rewrite Hw'. simpl. repeat split.
  - exists err. split; [exact Herr | reflexivity].
  - intros evs. induction evs as [|e evs IH]; [reflexivity|].
    simpl map. rewrite run_cons, emit_without_session by exact Hs. exact IH.
  - unfold step. simpl. now rewrite Hs.
Qed.

(** ** Joining and leaving *)

Lemma elem_of_room_members socketId room w :
  socketId ∈ room_members room w <-> socketId ∈ default ∅ (rooms w !! room).
Proof. unfold room_members. apply elem_of_elements. Qed.

(** C6: leaving a group removes the connection from the group's presence
    hash and from the transport room and leaves the durable store as it
    was; and no input whatsoever removes an identity from a group's
    member list: after any run every group is still there with every
    member it had. *)
Theorem leave_keeps_durable_membership `{ObjectIdCodec} `{AddressFilter}
  (socketId : string) (user : User) (now : Z) (groupId : string) (w : World) :
  sessions w !! socketId = Some user ->
  let w' := step (Emit socketId now (LeaveGroup groupId)) w in
  getGroupUsers groupId (redis w') !! socketId = None
  /\ (socketId ∉ room_members groupId w')
  /\ mongo w' = mongo w
  /\ outbox w' = outbox w
  /\ (forall ins w0 g, In g (groups (mongo w0)) ->
        exists g', In g' (groups (mongo (run ins w0)))
                   /\ g_id g' = g_id g
                   /\ forall id, In id (g_members g) -> In id (g_members g')).
Proof.
  intros Hs w'.
  assert (Hw' : w' = snd (leaveGroup socketId groupId w)).
  { unfold w', step. simpl. now rewrite Hs. }
  rewrite Hw', leaveGroup_eq. simpl. repeat split.
  - unfold getGroupUsers, hgetall. rewrite lookup_removeUserFromGroup.
    destruct (decide _) as [_|Hne]; [|congruence].
    destruct (purged socketId _) as [h|] eqn:E; simpl.
    + eapply purged_lookup, E.
    + apply lookup_empty.
  - rewrite elem_of_room_members. simpl. rewrite lookup_insert_eq. simpl.
    rewrite elem_of_difference, elem_of_singleton. tauto.
  - intros ins w0 g Hin.
    destruct (run_groups_kept ins w0 g Hin) as (g' & Hin' & Hid & _ & _ & _ & Hm).
    exists g'. auto.
Qed.

(** C10: a join whose group id is well formed but names no group
    succeeds without an error event: the connection is recorded in that
    id's presence hash and subscribed to the room of that id, and the
    durable store is not touched. *)
Theorem join_of_missing_group_succeeds `{ObjectIdCodec} `{AddressFilter}
  (socketId : string) (user : User) (now : Z) (groupId : string) (id : ObjectId)
  (w : World) :
  sessions w !! socketId = Some user ->
  castObjectId groupId = Some id ->
  (forall g, In g (groups (mongo w)) -> g_id g <> id) ->
  let w' := step (Emit socketId now (JoinGroup groupId)) w in
  joinGroup socketId user now groupId w = (Ok tt, w')
  /\ outbox w' = outbox w
  /\ getGroupUsers groupId (redis w') !! socketId = Some (address user)
  /\ (socketId ∈ room_members groupId w')
  /\ mongo w' = mongo w
  /\ find_group id (mongo w') = None.
Proof.
  intros Hs Hc Hg w'.
  pose proof (find_group_none id (mongo w) Hg) as Hf.
  assert (Hw' : w' = joined socketId groupId user w).
  { unfold w', step. simpl. rewrite Hs.
    now rewrite (joinGroup_no_group _ _ _ _ _ _ Hc Hf). }
  rewrite Hw'. repeat split; simpl.
  - apply (joinGroup_no_group _ _ _ _ _ _ Hc Hf).
  - unfold getGroupUsers, hgetall, addUserToGroup. rewrite lookup_hset.
    destruct (decide _) as [_|Hne]; [|congruence]. simpl. apply lookup_insert_eq.
  - rewrite elem_of_room_members. simpl. rewrite lookup_insert_eq. simpl.
    apply elem_of_union_l. now apply elem_of_singleton.
  - exact Hf.
Qed.

(** ** Durable membership *)

Lemma NoDup_push (id : ObjectId) members :
  NoDup members -> includes id members = false -> NoDup (members ++ [id]).
Proof.
  intros Hnd Hi. apply NoDup_app. split; [exact Hnd|]. split.
  - intros x Hx Hx'. apply list_elem_of_singleton in Hx'. subst x.
    apply list_elem_of_In, includes_In in Hx. congruence.
  - apply NoDup_singleton.
Qed.

Lemma mongo_step_members_nodup ss m m' :
  mongo_step ss m m' -> members_nodup m -> members_nodup m'.
Proof.
  unfold members_nodup. intros Hstep Hm.
  destruct Hstep as [| | sid u id g now _ Hf Hi |]; simpl; try assumption.
  - apply Forall_app. split; [exact Hm|]. constructor; [|constructor].
    simpl. apply NoDup_singleton.
  - destruct (updateOne_split id m g (with_member g (user_id u) now) Hf)
      as (l1 & l2 & Hg & ->).
    rewrite Hg in Hm. apply Forall_app in Hm. destruct Hm as [H1 H2].
    apply Forall_cons in H2. destruct H2 as [Hg0 H2].
    apply Forall_app. split; [exact H1|]. constructor; [|exact H2].
    simpl. now apply NoDup_push.
Qed.

Lemma find_updateOne id gs g g' :
  List.find (fun x => N.eqb (g_id x) id) gs = Some g ->
  g_id g' = id ->
  List.find (fun x => N.eqb (g_id x) id) (updateOne (g_id g) g' gs) = Some g'.
Proof.
  intros Hf Hid'.
  pose proof (find_some _ _ Hf) as [_ Hid]. apply N.eqb_eq in Hid. rewrite Hid.
  clear Hid. induction gs as [|g0 gs IH]; simpl in *; [discriminate|].
  destruct (N.eqb (g_id g0) id) eqn:E; simpl.
  - now rewrite Hid', N.eqb_refl.
  - rewrite E. now apply IH.
Qed.

Section Membership.
Context `{ObjectIdCodec} `{AddressFilter}.

Lemma run_members_nodup ins w :
  members_nodup (mongo w) -> members_nodup (mongo (run ins w)).
Proof.
  apply (run_invariant (fun w => members_nodup (mongo w))).
  intros i w0. eapply mongo_step_members_nodup, step_mongo.
Qed.

(** A join of an existing group: afterwards the identity is a member,
    and nothing was written when it already was. *)
Lemma join_existing socketId user now groupId id g w :
  sessions w !! socketId = Some user ->
  castObjectId groupId = Some id ->
  find_group id (mongo w) = Some g ->
  let w' := step (Emit socketId now (JoinGroup groupId)) w in
  sessions w' = sessions w
  /\ (In (user_id user) (g_members g) -> mongo w' = mongo w)
  /\ exists g', find_group id (mongo w') = Some g'
                /\ In (user_id user) (g_members g').
Proof.
  intros Hs Hc Hf w'. unfold w', step. simpl. rewrite Hs.
  destruct (includes (user_id user) (g_members g)) eqn:Hi.
  - rewrite (joinGroup_already_member _ _ _ _ _ _ _ Hc Hf Hi). simpl.
    repeat split. exists g. split; [exact Hf | now apply includes_In].
  - rewrite (joinGroup_new_member _ _ _ _ _ _ _ Hc Hf Hi). simpl.
    split; [reflexivity|]. split.
    + intros Hin. apply includes_In in Hin. congruence.
    + exists (with_member g (user_id user) now). split.
      * unfold find_group. simpl. apply find_updateOne; [exact Hf|].
        simpl. now apply find_group_some in Hf.
      * simpl. apply in_or_app. right. now left.
Qed.

End Membership.

(** C2: two joins of the same existing group by the same identity (from
    one connection or two) leave the identity in the member list exactly
    once, the second join writing nothing; and when no member list holds
    a duplicate, none does after any run of the server (in particular
    after any run from a store with no group). *)
Theorem join_is_idempotent_on_members `{ObjectIdCodec} `{AddressFilter}
  (s1 s2 : string) (user : User) (now1 now2 : Z) (groupId : string) (id : ObjectId)
  (g : Group) (w : World) :
  sessions w !! s1 = Some user ->
  sessions w !! s2 = Some user ->
  castObjectId groupId = Some id ->
  find_group id (mongo w) = Some g ->
  members_nodup (mongo w) ->
  let w1 := step (Emit s1 now1 (JoinGroup groupId)) w in
  let w2 := step (Emit s2 now2 (JoinGroup groupId)) w1 in
  (exists g2, find_group id (mongo w2) = Some g2
              /\ count_occ N.eq_dec (g_members g2) (user_id user) = 1%nat)
  /\ mongo w2 = mongo w1
  /\ (forall ins, members_nodup (mongo (run ins w)))
  /\ (forall ins w0, groups (mongo w0) = [] -> members_nodup (mongo (run ins w0))).
Proof.
  intros Hs1 Hs2 Hc Hf Hnd w1 w2.
  destruct (join_existing s1 user now1 groupId id g w Hs1 Hc Hf) as (Hss & _ & g1 & Hf1 & Hin1).
  fold w1 in Hss, Hf1.
  assert (Hs2' : sessions w1 !! s2 = Some user) by now rewrite Hss.
  destruct (join_existing s2 user now2 groupId id g1 w1 Hs2' Hc Hf1) as (_ & Hsame & _).
  fold w2 in Hsame. specialize (Hsame Hin1).
  repeat split.
  - exists g1. rewrite Hsame. split; [exact Hf1|].
    assert (Hnd1 : members_nodup (mongo w1)).
    { eapply mongo_step_members_nodup; [apply step_mongo | exact Hnd]. }
    unfold members_nodup in Hnd1. rewrite Forall_forall in Hnd1.
    apply find_group_some in Hf1. destruct Hf1 as [Hg1 _].
    apply list_elem_of_In in Hg1.
    specialize (Hnd1 g1 Hg1). apply NoDup_ListNoDup in Hnd1.
    rewrite (NoDup_count_occ' N.eq_dec) in Hnd1.
    now apply Hnd1.
  - exact Hsame.
  - intros ins. now apply run_members_nodup.
  - intros ins w0 Hw0. apply run_members_nodup. unfold members_nodup.
    rewrite Hw0. constructor.
Qed.

(** ** Sorting newest first *)

Section SortDesc.
Context {A : Type} (key : A -> Z).

Lemma insert_desc_perm x l : insert_desc key x l ≡ₚ x :: l.
Proof.
  induction l as [|y l IH]; simpl; [reflexivity|].
  destruct (Z.leb (key y) (key x)); [reflexivity|].
  rewrite IH. apply perm_swap.
Qed.

Lemma sort_desc_perm l : sort_desc key l ≡ₚ l.
Proof.
  induction l as [|x l IH]; simpl; [reflexivity|].
  unfold sort_desc in *. simpl. now rewrite insert_desc_perm, IH.
Qed.

Lemma insert_desc_sorted x l :
  StronglySorted (not_older key) l -> StronglySorted (not_older key) (insert_desc key x l).
Proof.
  induction l as [|y l IH]; intros Hs; simpl.
  - repeat constructor.
  - apply StronglySorted_inv in Hs. destruct Hs as [Hl Hy].
    destruct (Z.leb_spec (key y) (key x)) as [Hle|Hlt].
    + constructor; [now constructor|]. constructor; [exact Hle|].
      eapply Forall_impl; [exact Hy|]. unfold not_older. simpl. intros; lia.
    + constructor; [now apply IH|].
      rewrite insert_desc_perm. constructor; [unfold not_older; lia | exact Hy].
Qed.

Lemma sort_desc_sorted l : StronglySorted (not_older key) (sort_desc key l).
Proof.
  induction l as [|x l IH]; simpl; [constructor|].
  unfold sort_desc in *. simpl. now apply insert_desc_sorted.
Qed.

Lemma sort_desc_In x l : In x (sort_desc key l) <-> In x l.
Proof.
  rewrite <- !list_elem_of_In. now rewrite sort_desc_perm.
Qed.

End SortDesc.

(** ** Filters *)

Lemma filter_partition_perm {A} (f : A -> bool) (l : list A) :
  List.filter f l ++ List.filter (fun x => negb (f x)) l ≡ₚ l.
Proof.
  induction l as [|x l IH]; simpl; [reflexivity|].
  destruct (f x); simpl.
  - now rewrite IH.
  - rewrite <- Permutation_middle. now rewrite IH.
Qed.

Lemma filter_map_comm {A B} (f : B -> bool) (g : A -> B) (l : list A) :
  List.filter f (map g l) = map g (List.filter (fun a => f (g a)) l).
Proof.
  induction l as [|x l IH]; simpl; [reflexivity|].
  destruct (f (g x)); simpl; now rewrite IH.
Qed.

Lemma filter_ext_in' {A} (f g : A -> bool) (l : list A) :
  (forall x, In x l -> f x = g x) -> List.filter f l = List.filter g l.
Proof.
  induction l as [|x l IH]; intros Hfg; simpl; [reflexivity|].
  rewrite (Hfg x) by now left. rewrite IH; [reflexivity|].
  intros y Hy. apply Hfg. now right.
Qed.

Lemma filter_sublist {A} (f : A -> bool) (l : list A) : List.filter f l `sublist_of` l.
Proof.
  induction l as [|x l IH]; simpl; [constructor|].
  destruct (f x); now constructor.
Qed.

Lemma StronglySorted_filter {A} (R : A -> A -> Prop) (f : A -> bool) (l : list A) :
  StronglySorted R l -> StronglySorted R (List.filter f l).
Proof.
  induction 1 as [|x l Hs IH Hx]; simpl; [constructor|].
  destruct (f x); [|exact IH]. constructor; [exact IH|].
  rewrite Forall_forall in *. intros y Hy. apply Hx.
  apply list_elem_of_In in Hy. apply filter_In in Hy. apply list_elem_of_In. tauto.
Qed.

(** ** Listing the groups *)

Section Listing.
Context `{ObjectIdCodec} `{AddressFilter}.

Lemma oid_toString_inj a b : oid_toString a = oid_toString b -> a = b.
Proof.
  intros Heq. pose proof (cast_toString a) as Ha. rewrite Heq, cast_toString in Ha.
  congruence.
Qed.

Lemma oid_toString_eqb a b : String.eqb (oid_toString a) (oid_toString b) = N.eqb a b.
Proof.
  destruct (N.eqb_spec a b) as [->|Hne].
  - apply String.eqb_refl.
  - apply String.eqb_neq. intros Heq. now apply Hne, oid_toString_inj.
Qed.

Lemma findUserById_some id us u : findUserById id us = Some u -> In u us /\ user_id u = id.
Proof.
  intros Hf. apply find_some in Hf. destruct Hf as [Hin Heq].
  split; [exact Hin | now apply N.eqb_eq].
Qed.

Lemma findUserById_known u us : In u us -> exists u', findUserById (user_id u) us = Some u'.
Proof.
  intros Hin. destruct (findUserById (user_id u) us) as [u'|] eqn:E; [eauto|].
  pose proof (find_none _ _ E u Hin) as Hn. simpl in Hn.
  rewrite N.eqb_refl in Hn. discriminate.
Qed.

(** For a viewer whose user document is in the store, the membership
    test on the populated group is the test on the stored references. *)
Lemma is_member_populated viewer us g :
  In viewer us ->
  is_member viewer (populateGroup us g) = includes (user_id viewer) (g_members g).
Proof.
  intros Hv. unfold is_member, populateGroup, populateMembers, includes. simpl.
  induction (g_members g) as [|id ids IH]; simpl; [reflexivity|].
  destruct (N.eqb_spec (user_id viewer) id) as [<-|Hne]; simpl.
  - destruct (findUserById_known viewer us Hv) as [u' Hu']. rewrite Hu'. simpl.
    apply findUserById_some in Hu'. destruct Hu' as [_ ->].
    now rewrite String.eqb_refl.
  - destruct (findUserById id us) as [u'|] eqn:E; simpl; [|exact IH].
    apply findUserById_some in E. destruct E as [_ ->].
    rewrite oid_toString_eqb.
    destruct (N.eqb_spec id (user_id viewer)); [congruence | exact IH].
Qed.

Lemma getGroups_eq viewer w :
  let all := sort_desc g_createdAt (public_groups (mongo w)) in
  In viewer (users (mongo w)) ->
  getGroups viewer w
  = (Ok (map (populateGroup (users (mongo w)))
             (List.filter (fun g => includes (user_id viewer) (g_members g)) all)
         ++ map (populateGroup (users (mongo w)))
             (List.filter (fun g => negb (includes (user_id viewer) (g_members g))) all)),
     w).
Proof.
  intros all Hv. unfold getGroups, Group_find_public. unfold_async.
  fold (public_groups (mongo w)). fold all.
  rewrite !filter_map_comm. do 3 f_equal.
  - f_equal. apply filter_ext_in'. intros g _. now apply is_member_populated.
  - f_equal. apply filter_ext_in'. intros g _. now rewrite is_member_populated.
Qed.

End Listing.

(** C8: for a viewer who is a user of the store, [getGroups] answers with
    exactly the non-private groups; the groups the viewer is a member of
    come first and the others after them; each of the two parts is the
    newest-first listing of all non-private groups restricted to it, so
    it is itself newest first and keeps the listing's order. *)
Theorem getGroups_lists_members_first `{ObjectIdCodec} (viewer : User) (w : World) :
  In viewer (users (mongo w)) ->
  let all := sort_desc g_createdAt (public_groups (mongo w)) in
  exists mine others : list PopulatedGroup,
    getGroups viewer w = (Ok (mine ++ others), w)
    /\ map pg_group (mine ++ others) ≡ₚ public_groups (mongo w)
    /\ Forall (fun pg => In (user_id viewer) (g_members (pg_group pg))) mine
    /\ Forall (fun pg => ~ In (user_id viewer) (g_members (pg_group pg))) others
    /\ StronglySorted (not_older g_createdAt) all
    /\ all ≡ₚ public_groups (mongo w)
    /\ map pg_group mine
       = List.filter (fun g => includes (user_id viewer) (g_members g)) all
    /\ map pg_group others
       = List.filter (fun g => negb (includes (user_id viewer) (g_members g))) all
    /\ StronglySorted (not_older g_createdAt) (map pg_group mine)
    /\ StronglySorted (not_older g_createdAt) (map pg_group others)
    /\ map pg_group mine `sublist_of` all
    /\ map pg_group others `sublist_of` all.
Proof.
  intros Hv all.
  set (us := users (mongo w)).
  set (mineb := fun g => includes (user_id viewer) (g_members g)).
  assert (Hmap : forall l, map pg_group (map (populateGroup us) l) = l).
  { intros l. rewrite map_map. simpl. apply map_id. }
  exists (map (populateGroup us) (List.filter mineb all)),
         (map (populateGroup us) (List.filter (fun g => negb (mineb g)) all)).
  pose proof (sort_desc_sorted g_createdAt (public_groups (mongo w))) as Hsorted.
  fold all in Hsorted.
  rewrite map_app, !Hmap. repeat split.
  - now apply getGroups_eq.
  - rewrite filter_partition_perm. apply sort_desc_perm.
  - rewrite Forall_forall. intros pg Hpg. apply list_elem_of_In, in_map_iff in Hpg.
    destruct Hpg as (g & <- & Hg). simpl. apply filter_In in Hg.
    now apply includes_In.
  - rewrite Forall_forall. intros pg Hpg. apply list_elem_of_In, in_map_iff in Hpg.
    destruct Hpg as (g & <- & Hg). simpl. apply filter_In in Hg.
    destruct Hg as [_ Hg]. intros Hin. apply includes_In in Hin.
    unfold mineb in Hg. rewrite Hin in Hg. discriminate.
  - exact Hsorted.
  - apply sort_desc_perm.
  - now apply StronglySorted_filter.
  - now apply StronglySorted_filter.
  - apply filter_sublist.
  - apply filter_sublist.
Qed.

(** ** Creating a group *)

Lemma mongo_step_private_ids ss m m' :
  mongo_step ss m m' -> private_ids m' = private_ids m.
Proof.
  unfold private_ids. intros Hstep.
  destruct Hstep as [| | sid u id g now _ Hf Hi |]; simpl; try reflexivity.
  - rewrite List.filter_app. simpl. now rewrite app_nil_r.
  - destruct (updateOne_split id m g (with_member g (user_id u) now) Hf)
      as (l1 & l2 & -> & ->).
    rewrite !List.filter_app. simpl. destruct (g_isPrivate g); [|reflexivity].
    now rewrite !map_app.
Qed.

Section Creation.
Context `{ObjectIdCodec} `{AddressFilter}.

Lemma run_private_ids ins w : private_ids (mongo (run ins w)) = private_ids (mongo w).
Proof.
  revert w. induction ins as [|i ins IH]; intros w; [reflexivity|].
  rewrite run_cons, IH. eapply mongo_step_private_ids, step_mongo.
Qed.

(** Every non-private group of the store is in the answer of
    [getGroups], whoever asks. *)
Lemma getGroups_lists_public viewer w g :
  In g (groups (mongo w)) -> g_isPrivate g = false ->
  exists l, getGroups viewer w = (Ok l, w) /\ In g (map pg_group l).
Proof.
  intros Hin Hpub. unfold getGroups, Group_find_public. unfold_async.
  eexists. split; [reflexivity|].
  set (all := map _ (sort_desc _ _)).
  assert (Hall : In (populateGroup (users (mongo w)) g) all).
  { apply in_map, sort_desc_In, filter_In. split; [exact Hin | now rewrite Hpub]. }
  apply in_map_iff. exists (populateGroup (users (mongo w)) g). split; [reflexivity|].
  apply in_or_app.
  destruct (is_member viewer (populateGroup (users (mongo w)) g)) eqn:E.
  - left. apply filter_In. now split.
  - right. apply filter_In. split; [exact Hall | now rewrite E].
Qed.

End Creation.

(** C9: [createGroup] with a non-empty name stores one new group whose
    privacy flag is [false] (the event carries only a name and a
    description), whose owner is the caller and whose only member is the
    owner; after any further run of the server every viewer's
    [getGroups] still lists a group with that identifier; and no input
    changes which groups are private, so none creates a private group. *)
Theorem created_group_is_public_and_listed `{ObjectIdCodec} `{AddressFilter}
  (socketId : string) (user : User) (now : Z) (name : string)
  (description : option string) (w : World) :
  sessions w !! socketId = Some user ->
  name <> "" ->
  let w1 := step (Emit socketId now (CreateGroup name description)) w in
  exists g,
    createGroup user now name description w
    = (Ok (Some (populateGroup (users (mongo w)) g)),
       mkWorld (mongo w1) (redis w) (rooms w) (sessions w) (outbox w))
    /\ groups (mongo w1) = groups (mongo w) ++ [g]
    /\ g_isPrivate g = false
    /\ g_owner g = user_id user
    /\ g_members g = [user_id user]
    /\ g_name g = name /\ g_description g = description
    /\ (forall ins viewer, exists l,
          getGroups viewer (run ins w1) = (Ok l, run ins w1)
          /\ exists g', In g' (map pg_group l)
                        /\ g_id g' = g_id g /\ g_isPrivate g' = false)
    /\ (forall ins w0, private_ids (mongo (run ins w0)) = private_ids (mongo w0)).
Proof.
  intros Hs Hn w1.
  pose proof (createGroup_valid user now name description w Hn) as Hc. simpl in Hc.
  set (g := mkGroup (nextObjectId (mongo w)) name description (user_id user)
                    [user_id user] false now now) in *.
  assert (Hw1 : mongo w1 = mkMongo (users (mongo w)) (groups (mongo w) ++ [g])
                             (chats (mongo w)) (N.succ (nextObjectId (mongo w)))).
  { unfold w1, step. simpl. rewrite Hs. unfold bind. rewrite Hc. reflexivity. }
  exists g. rewrite Hw1. split; [exact Hc|]. repeat split.
  - intros ins viewer.
    assert (Hin : In g (groups (mongo w1))).
    { rewrite Hw1. simpl. apply in_or_app. right. now left. }
    destruct (run_groups_kept ins w1 g Hin) as (g' & Hin' & Hid & Hp & _).
    destruct (getGroups_lists_public viewer (run ins w1) g' Hin') as (l & Hl & Hg').
    { now rewrite Hp. }
    exists l. split; [exact Hl|]. exists g'. repeat split; assumption.
  - intros ins w0. apply run_private_ids.
Qed.

(** ** Paging through a group's history *)

Lemma filter_perm {A} (f : A -> bool) (l l' : list A) :
  l ≡ₚ l' -> List.filter f l ≡ₚ List.filter f l'.
Proof.
  induction 1 as [|x l l' _ IH|x y l|l1 l2 l3 _ IH1 _ IH2]; simpl.
  - reflexivity.
  - destruct (f x); [now rewrite IH | exact IH].
  - destruct (f x), (f y); try reflexivity. apply perm_swap.
  - now rewrite IH1.
Qed.

Lemma filter_all {A} (f : A -> bool) (l : list A) :
  (forall x, In x l -> f x = true) -> List.filter f l = l.
Proof.
  induction l as [|x l IH]; intros Hf; simpl; [reflexivity|].
  rewrite (Hf x) by now left. f_equal. apply IH. intros y Hy. apply Hf. now right.
Qed.

Lemma filter_none {A} (f : A -> bool) (l : list A) :
  (forall x, In x l -> f x = false) -> List.filter f l = [].
Proof.
  induction l as [|x l IH]; intros Hf; simpl; [reflexivity|].
  rewrite (Hf x) by now left. apply IH. intros y Hy. apply Hf. now right.
Qed.

Section SortedById.

Lemma time_follows_ids_perm l l' : l ≡ₚ l' -> time_follows_ids l -> time_follows_ids l'.
Proof.
  intros Hp Hl a b Ha Hb. apply Hl; apply list_elem_of_In; rewrite Hp;
    now apply list_elem_of_In.
Qed.

Lemma time_follows_ids_filter f l : time_follows_ids l -> time_follows_ids (List.filter f l).
Proof.
  intros Hl a b Ha Hb. apply filter_In in Ha, Hb. apply Hl; tauto.
Qed.

Lemma NoDup_ids_filter f (l : list Chat) :
  NoDup (map c_id l) -> NoDup (map c_id (List.filter f l)).
Proof.
  intros Hnd. apply (sublist_NoDup _ (map c_id l)); [exact Hnd|].
  apply (fmap_sublist c_id), filter_sublist.
Qed.

(** When identifiers are distinct and time follows them, newest first
    is largest identifier first, strictly. *)
Lemma sorted_by_time_sorted_by_id l :
  NoDup (map c_id l) -> time_follows_ids l ->
  StronglySorted (not_older c_createdAt) l -> StronglySorted newer_id l.
Proof.
  intros Hnd Ht Hs. induction Hs as [|a l Hs IH Ha]; [constructor|].
  simpl in Hnd. apply NoDup_cons in Hnd. destruct Hnd as [Hna Hnd].
  constructor.
  - apply IH; [exact Hnd|]. intros x y Hx Hy. apply Ht; now right.
  - rewrite Forall_forall in *. intros b Hb. specialize (Ha b Hb).
    unfold not_older in Ha. unfold newer_id.
    destruct (N.lt_trichotomy (c_id b) (c_id a)) as [Hlt|[Heq|Hgt]].
    + exact Hlt.
    + exfalso. apply Hna. rewrite <- Heq. now apply list_elem_of_fmap_2.
    + exfalso. apply list_elem_of_In in Hb.
      pose proof (Ht a b (or_introl eq_refl) (or_intror Hb) Hgt). lia.
Qed.

Lemma sort_desc_sorted_by_id l :
  NoDup (map c_id l) -> time_follows_ids l ->
  StronglySorted newer_id (sort_desc c_createdAt l).
Proof.
  intros Hnd Ht. apply sorted_by_time_sorted_by_id.
  - now rewrite sort_desc_perm.
  - eapply time_follows_ids_perm; [symmetry; apply sort_desc_perm | exact Ht].
  - apply sort_desc_sorted.
Qed.

(** Sorting the messages below a cursor gives the sorted history
    restricted to the cursor. *)
Lemma sort_below_cursor (b : ObjectId) l :
  NoDup (map c_id l) -> time_follows_ids l ->
  sort_desc c_createdAt (List.filter (fun c => N.ltb (c_id c) b) l)
  = List.filter (fun c => N.ltb (c_id c) b) (sort_desc c_createdAt l).
Proof.
  intros Hnd Ht.
  apply (StronglySorted_unique_strong newer_id).
  - unfold newer_id. intros x y _ _ Hxy Hyx. lia.
  - apply sort_desc_sorted_by_id;
      [now apply NoDup_ids_filter | now apply time_follows_ids_filter].
  - apply StronglySorted_filter. now apply sort_desc_sorted_by_id.
  - rewrite sort_desc_perm. apply filter_perm. symmetry. apply sort_desc_perm.
Qed.

(** In the sorted history, the messages below the identifier of [x] are
    those listed after [x]. *)
Lemma filter_below_element l1 x l2 :
  StronglySorted newer_id (l1 ++ x :: l2) ->
  List.filter (fun c => N.ltb (c_id c) (c_id x)) (l1 ++ x :: l2) = l2.
Proof.
  intros Hs. rewrite List.filter_app. simpl. rewrite N.ltb_irrefl.
  rewrite filter_none, filter_all; [reflexivity| |].
  - intros y Hy. apply N.ltb_lt.
    apply (StronglySorted_app_1_elem_of newer_id (l1 ++ [x]) l2 x y).
    + now rewrite <- app_assoc.
    + apply elem_of_app. right. now apply list_elem_of_singleton.
    + now apply list_elem_of_In.
  - intros y Hy. apply N.ltb_ge.
    pose proof (StronglySorted_app_1_elem_of newer_id l1 (x :: l2) y x Hs) as Hyx.
    unfold newer_id in Hyx. apply N.lt_le_incl, Hyx.
    + now apply list_elem_of_In.
    + now left.
Qed.

End SortedById.

Section Walk.
Context `{ObjectIdCodec} `{AddressFilter}.

Lemma mapM_format_ok us page w :
  senders_known us page ->
  mapM format_message (map (fun c => (c, findUserById (c_sender c) us)) page) w
  = (Ok (map (format_chat us) page), w).
Proof.
  intros Hk. induction page as [|c page IH]; simpl; [reflexivity|].
  unfold bind, format_message at 1. simpl.
  destruct (findUserById (c_sender c) us) as [u|] eqn:E.
  - unfold ret at 1. rewrite IH by (intros c' Hc'; apply Hk; now right).
    unfold ret, format_chat. simpl. now rewrite E.
  - exfalso. apply (Hk c); [now left | exact E].
Qed.

Lemma filter_matches_none gid cs :
  List.filter (chat_matches gid None) cs = group_messages gid cs.
Proof.
  apply filter_ext_in'. intros c _. unfold chat_matches. apply andb_true_r.
Qed.

Lemma filter_matches_before gid b cs :
  List.filter (chat_matches gid (Some b)) cs
  = List.filter (fun c => N.ltb (c_id c) b) (group_messages gid cs).
Proof.
  unfold group_messages. induction cs as [|c cs IH]; simpl; [reflexivity|].
  unfold chat_matches at 1.
  destruct (N.eqb (c_groupId c) gid && negb (c_isDeleted c)); simpl.
  - destruct (N.ltb (c_id c) b); now rewrite IH.
  - exact IH.
Qed.

Lemma loadMessages_first groupId gid w :
  castObjectId groupId = Some gid ->
  let page := find_page (chats (mongo w)) gid None in
  senders_known (users (mongo w)) page ->
  loadMessages groupId None w = (Ok (map (format_chat (users (mongo w))) page), w).
Proof.
  intros Hc page Hk. unfold loadMessages, Chat_find. rewrite Hc. simpl.
  unfold try_catch, bind, get_mongo, ret at 1. simpl.
  fold page. now rewrite mapM_format_ok.
Qed.

Lemma loadMessages_before groupId gid b w :
  castObjectId groupId = Some gid ->
  let page := find_page (chats (mongo w)) gid (Some b) in
  senders_known (users (mongo w)) page ->
  loadMessages groupId (Some (oid_toString b)) w
  = (Ok (map (format_chat (users (mongo w))) page), w).
Proof.
  intros Hc page Hk. unfold loadMessages, Chat_find. rewrite Hc.
  assert (Ht : truthy (Some (oid_toString b)) = Some (oid_toString b)).
  { pose proof (toString_nonempty b). simpl. now destruct (oid_toString b). }
  rewrite Ht, cast_toString.
  unfold try_catch, bind, get_mongo, ret at 1. simpl.
  fold page. now rewrite mapM_format_ok.
Qed.

End Walk.

Section WalkPages.
Context `{ObjectIdCodec}.
Variables (groupId : string) (w : World) (history : list Chat)
          (at_request : nat -> World).
Let fmt := format_chat (users (mongo w)).

(** What the store answers, at any request of the walk, below the
    identifier of a message of the history: the page that follows it. *)
Hypothesis page_after :
  forall k pre x post, history = pre ++ x :: post ->
    fst (loadMessages groupId (Some (oid_toString (c_id x))) (at_request k))
    = Ok (map fmt (take PAGE_LIMIT post)).

Lemma walk_rest n :
  forall rest pre before k,
    history = pre ++ rest ->
    (length rest <= n)%nat ->
    fst (loadMessages groupId before (at_request k))
    = Ok (map fmt (take PAGE_LIMIT rest)) ->
    exists pages,
      paged rest pages
      /\ forall fuel, (length rest < fuel)%nat ->
           walk_during fuel groupId before at_request k = Some (map (map fmt) pages).
Proof.
  induction n as [|n IH]; intros rest pre before k Hh Hlen Hpage.
  - destruct rest; [|simpl in Hlen; lia].
    exists []. split; [split; [reflexivity | intros i page Hi; discriminate Hi]|].
    intros [|fuel] Hf; [simpl in Hf; lia|]. simpl. now rewrite Hpage.
  - destruct rest as [|r rest0].
    { exists []. split; [split; [reflexivity | intros i page Hi; discriminate Hi]|].
      intros [|fuel] Hf; [simpl in Hf; lia|]. simpl. now rewrite Hpage. }
    set (rest := r :: rest0) in *.
    assert (Hne : take PAGE_LIMIT rest <> []) by (unfold PAGE_LIMIT; discriminate).
    destruct (last (take PAGE_LIMIT rest)) as [x|] eqn:Hlast;
      [|apply last_None in Hlast; contradiction].
    pose proof Hlast as Hsplit. apply last_Some in Hsplit. destruct Hsplit as [init Hinit].
    assert (Hh' : history = (pre ++ init) ++ x :: drop PAGE_LIMIT rest).
    { rewrite Hh, <- (take_drop PAGE_LIMIT rest) at 1. rewrite Hinit.
      now rewrite <- !app_assoc. }
    assert (Hshort : (length (drop PAGE_LIMIT rest) <= n)%nat).
    { rewrite length_drop. unfold PAGE_LIMIT. simpl in *. lia. }
    destruct (IH (drop PAGE_LIMIT rest) (pre ++ take PAGE_LIMIT rest)
                 (Some (oid_toString (c_id x))) (S k)) as (pages & [Hcat Hidx] & Hwalk).
    + now rewrite <- app_assoc, take_drop.
    + exact Hshort.
    + apply (page_after _ _ _ _ Hh').
    + exists (take PAGE_LIMIT rest :: pages). split; [split|].
      * cbn [concat]. now rewrite Hcat, take_drop.
      * intros [|i] page Hi.
        -- injection Hi as <-. now rewrite Nat.mul_0_r.
        -- change (pages !! i = Some page) in Hi.
           destruct (Hidx i page Hi) as [-> Hnil]. split; [|exact Hnil].
           rewrite drop_drop. do 2 f_equal. lia.
      * intros [|fuel] Hf; [lia|]. cbn [walk_during]. rewrite Hpage.
        change (last (map fmt (take PAGE_LIMIT rest)))
          with (last (fmt <$> take PAGE_LIMIT rest)).
        rewrite fmap_last, Hlast. cbn [fmap option_fmap option_map map].
        change (m_id (fmt x)) with (oid_toString (c_id x)).
        rewrite Hwalk; [reflexivity|].
        rewrite length_drop. unfold PAGE_LIMIT.
        assert (length rest = S (length rest0)) by reflexivity. lia.
Qed.

End WalkPages.

Section Frozen.
Context `{ObjectIdCodec}.

(** With the same world at every request, the walk is the one through a
    store at rest. *)
Lemma walk_during_frozen fuel groupId before w k :
  walk_during fuel groupId before (fun _ => w) k = walk fuel groupId before w.
Proof.
  revert before k. induction fuel as [|fuel IH]; intros before k; [reflexivity|].
  simpl. destruct (fst (loadMessages groupId before w)) as [page|]; [|reflexivity].
  destruct (last page); [|reflexivity]. now rewrite IH.
Qed.

End Frozen.

Lemma inserted_no_smaller_refl gid w : inserted_no_smaller gid w w.
Proof.
  split; [reflexivity|]. exists []. split; [now rewrite app_nil_r | intros c []].
Qed.

(** The cut of a list into pages is determined by the list. *)
Lemma concat_length_bound {A} (pages : list (list A)) n :
  (forall i page, pages !! i = Some page -> (length page <= n)%nat) ->
  (length (concat pages) <= n * length pages)%nat.
Proof.
  induction pages as [|p pages IH]; intros Hb; simpl; [lia|].
  rewrite length_app. pose proof (Hb 0%nat p eq_refl) as Hp.
  assert (Hrest : (length (concat pages) <= n * length pages)%nat).
  { apply IH. intros i page Hi. apply (Hb (S i)). exact Hi. }
  lia.
Qed.

Lemma paged_unique {A} (all : list A) (p1 p2 : list (list A)) :
  paged all p1 -> paged all p2 -> p1 = p2.
Proof.
  assert (Hhalf : forall q1 q2 : list (list A), paged all q1 -> paged all q2 ->
            forall i page, q1 !! i = Some page -> q2 !! i = Some page).
  { intros q1 q2 [_ H1] [Hcat2 H2] i page Hi.
    destruct (H1 i page Hi) as [Heq Hne].
    destruct (q2 !! i) as [page'|] eqn:E.
    - destruct (H2 i page' E) as [-> _]. now rewrite Heq.
    - exfalso. apply Hne. rewrite Heq.
      apply lookup_ge_None in E.
      assert (Hlen : (length all <= PAGE_LIMIT * length q2)%nat).
      { rewrite <- Hcat2. apply concat_length_bound.
        intros j pj Hj. destruct (H2 j pj Hj) as [-> _]. rewrite length_take. lia. }
      rewrite drop_ge; [reflexivity|]. nia. }
  intros P1 P2. apply list_eq. intros i.
  destruct (p1 !! i) as [page|] eqn:E1.
  - symmetry. now apply (Hhalf p1 p2).
  - destruct (p2 !! i) as [page|] eqn:E2; [|reflexivity].
    apply (Hhalf p2 p1 P2 P1) in E2. congruence.
Qed.


Lemma StronglySorted_sublist {A} (R : A -> A -> Prop) (l1 l2 : list A) :
  l1 `sublist_of` l2 -> StronglySorted R l2 -> StronglySorted R l1.
Proof.
  intros Hsub Hs. revert l1 Hsub.
  induction Hs as [|x l2 Hs IH Hx]; intros l1 Hsub.
  - apply sublist_nil_r in Hsub. subst. constructor.
  - apply sublist_cons_r in Hsub. destruct Hsub as [Hsub|(l1' & -> & Hsub)].
    + now apply IH.
    + constructor; [now apply IH|].
      rewrite Forall_forall in *. intros y Hy. apply Hx.
      eapply sublist_subseteq; eassumption.
Qed.

Lemma StronglySorted_impl_in {A} (R R' : A -> A -> Prop) (l : list A) :
  (forall x y, In x l -> In y l -> R x y -> R' x y) ->
  StronglySorted R l -> StronglySorted R' l.
Proof.
  intros Himpl Hs. induction Hs as [|x l Hs IH Hx]; [constructor|].
  constructor.
  - apply IH. intros a b Ha Hb. apply Himpl; now right.
  - rewrite Forall_forall in *. intros y Hy. apply Himpl.
    + now left.
    + right. now apply list_elem_of_In.
    + now apply Hx.
Qed.

Section History.
Context `{ObjectIdCodec} `{AddressFilter}.

Lemma senders_known_sub us l l' :
  (forall c, In c l' -> In c l) -> senders_known us l -> senders_known us l'.
Proof. intros Hsub Hk c Hc. apply Hk, Hsub, Hc. Qed.

Lemma In_take {A} (x : A) n l : In x (take n l) -> In x l.
Proof.
  rewrite <- !list_elem_of_In. apply subseteq_take.
Qed.

(** A page below the identifier of a message the group had is not
    changed by what was inserted since. *)
Lemma find_page_later gid w w' x :
  inserted_no_smaller gid w w' ->
  In x (group_messages gid (chats (mongo w))) ->
  find_page (chats (mongo w')) gid (Some (c_id x))
  = find_page (chats (mongo w)) gid (Some (c_id x)).
Proof.
  intros (_ & new & Hch & Hnew) Hx. unfold find_page.
  rewrite Hch, List.filter_app.
  rewrite (filter_none (chat_matches gid (Some (c_id x))) new);
    [now rewrite app_nil_r|].
  intros c Hc. unfold chat_matches.
  destruct (N.eqb_spec (c_groupId c) gid) as [Hg|]; [|reflexivity].
  specialize (Hnew c Hc Hg x Hx).
  assert (Hge : N.ltb (c_id c) (c_id x) = false) by now apply N.ltb_ge.
  rewrite Hge. apply andb_false_r.
Qed.

(** The store's answers along the walk, for a group whose messages have
    distinct identifiers followed by their creation times and senders
    that resolve: the first page is the head of the sorted history, and
    the page below a message's identifier is what follows the message,
    also after messages with no smaller identifier were inserted. *)
Lemma history_pages groupId gid w :
  castObjectId groupId = Some gid ->
  let msgs := group_messages gid (chats (mongo w)) in
  let us := users (mongo w) in
  let history := sort_desc c_createdAt msgs in
  NoDup (map c_id msgs) -> time_follows_ids msgs -> senders_known us msgs ->
  fst (loadMessages groupId None w) = Ok (map (format_chat us) (take PAGE_LIMIT history))
  /\ forall w', inserted_no_smaller gid w w' ->
     forall pre x post, history = pre ++ x :: post ->
       fst (loadMessages groupId (Some (oid_toString (c_id x))) w')
       = Ok (map (format_chat us) (take PAGE_LIMIT post)).
Proof.
  intros Hc msgs us history Hnd Ht Hk.
  assert (Hin : forall c, In c history -> In c msgs).
  { intros c. apply sort_desc_In. }
  split.
  - rewrite (loadMessages_first groupId gid w Hc).
    + unfold find_page. now rewrite filter_matches_none.
    + unfold find_page. rewrite filter_matches_none.
      eapply senders_known_sub; [|exact Hk]. intros c Hc'. now apply In_take, Hin in Hc'.
  - intros w' Hlater pre x post Hh.
    assert (Hx : In x msgs).
    { apply Hin. rewrite Hh. apply in_or_app. right. now left. }
    assert (Hpage : find_page (chats (mongo w')) gid (Some (c_id x))
                    = take PAGE_LIMIT post).
    { rewrite (find_page_later gid w w' x Hlater Hx).
      unfold find_page. rewrite filter_matches_before. fold msgs.
      rewrite sort_below_cursor by assumption. fold history. rewrite Hh.
      rewrite filter_below_element; [reflexivity|].
      rewrite <- Hh. now apply sort_desc_sorted_by_id. }
    destruct Hlater as [Hus _].
    rewrite (loadMessages_before groupId gid (c_id x) w' Hc); rewrite Hpage, Hus.
    + reflexivity.
    + eapply senders_known_sub; [|exact Hk]. intros c Hc'. apply Hin.
      rewrite Hh. apply in_or_app. right. right. now apply In_take in Hc'.
Qed.

End History.

(** C1 (amended): for a group whose non-deleted messages have creation
    times that strictly increase with the identifier (and distinct
    identifiers and senders that resolve to users, as in every store
    the server produces: [run_store_ok], [store_ok_history]), the walk
    that passes the identifier of each page's oldest message as the
    next [before] ends (with any fuel above the number of messages) and
    returns every message the group had at the first request exactly
    once, whether the store is at rest or messages are inserted between
    the requests of the walk, as long as none is inserted into the
    group with a smaller identifier: the pages put end to end are the
    group's messages, strictly newest first by identifier and by
    creation time; page [i] holds [min 50 (N - 50 * i)] messages, and
    every message of a page has an identifier below the cursor it was
    asked with.  What was inserted during the walk is in no page. *)
Theorem walk_returns_every_message_once `{ObjectIdCodec}
  (groupId : string) (gid : ObjectId) (w : World) :
  castObjectId groupId = Some gid ->
  let msgs := group_messages gid (chats (mongo w)) in
  let us := users (mongo w) in
  NoDup (map c_id msgs) ->
  time_follows_ids msgs ->
  senders_known us msgs ->
  exists pages : list (list Chat),
    (forall fuel, (length msgs < fuel)%nat ->
        walk fuel groupId None w = Some (map (map (format_chat us)) pages))
    /\ (forall at_request : nat -> World,
          at_request 0%nat = w ->
          (forall k, inserted_no_smaller gid w (at_request k)) ->
          forall fuel, (length msgs < fuel)%nat ->
            walk_during fuel groupId None at_request 0
            = Some (map (map (format_chat us)) pages))
    /\ concat pages ≡ₚ msgs
    /\ length (concat pages) = length msgs
    /\ NoDup (map m_id (map (format_chat us) (concat pages)))
    /\ StronglySorted newer_id (concat pages)
    /\ StronglySorted created_later (concat pages)
    /\ (forall i page, pages !! i = Some page ->
          length page = min PAGE_LIMIT (length msgs - PAGE_LIMIT * i)
          /\ page <> []
          /\ page = take PAGE_LIMIT (drop (PAGE_LIMIT * i) (concat pages))
          /\ StronglySorted newer_id page
          /\ StronglySorted created_later page)
    /\ (forall i page oldest next,
          pages !! i = Some page -> last page = Some oldest ->
          pages !! S i = Some next ->
          forall c, In c next -> (c_id c < c_id oldest)%N).
Proof.
  intros Hc msgs us Hnd Ht Hk.
  set (history := sort_desc c_createdAt msgs).
  destruct (history_pages groupId gid w Hc Hnd Ht Hk) as [Hfirst Hafter].
  fold msgs us history in Hfirst, Hafter.
  assert (Hduring : forall at_request : nat -> World,
             at_request 0%nat = w ->
             (forall k, inserted_no_smaller gid w (at_request k)) ->
             exists pages,
               paged history pages
               /\ forall fuel, (length history < fuel)%nat ->
                    walk_during fuel groupId None at_request 0
                    = Some (map (map (format_chat us)) pages)).
  { intros at_request H0 Hlater.
    assert (Hpa : forall k pre x post, history = pre ++ x :: post ->
               fst (loadMessages groupId (Some (oid_toString (c_id x))) (at_request k))
               = Ok (map (format_chat us) (take PAGE_LIMIT post))).
    { intros k pre x post Hh. now apply (Hafter (at_request k) (Hlater k) pre). }
    apply (walk_rest groupId w history at_request Hpa (length history) history [] None 0).
    - reflexivity.
    - lia.
    - now rewrite H0. }
  destruct (Hduring (fun _ => w) eq_refl (fun _ => inserted_no_smaller_refl gid w))
    as (pages & Hpaged & Hwalk).
  pose proof Hpaged as [Hcat Hidx].
  assert (Hperm : history ≡ₚ msgs) by apply sort_desc_perm.
  assert (Hlen : length history = length msgs) by now rewrite Hperm.
  assert (Hsid : StronglySorted newer_id history) by now apply sort_desc_sorted_by_id.
  assert (Hst : StronglySorted created_later history).
  { apply (StronglySorted_impl_in newer_id); [|exact Hsid].
    intros a b Ha Hb Hab. apply Ht; [| |exact Hab]; now apply (sort_desc_In c_createdAt). }
  assert (Hpage : forall i page, pages !! i = Some page -> page `sublist_of` history).
  { intros i page Hi. destruct (Hidx i page Hi) as [-> _].
    etransitivity; [apply sublist_take | apply sublist_drop]. }
  exists pages. rewrite Hcat.
  split; [|split; [|split; [|split; [|split; [|split; [|split; [|split]]]]]]].
  - intros fuel Hf. rewrite <- (walk_during_frozen fuel groupId None w 0).
    apply Hwalk. now rewrite Hlen.
  - intros at_request H0 Hlater fuel Hf.
    destruct (Hduring at_request H0 Hlater) as (pages' & Hpaged' & Hwalk').
    rewrite (paged_unique history pages pages' Hpaged Hpaged').
    apply Hwalk'. now rewrite Hlen.
  - exact Hperm.
  - exact Hlen.
  - assert (Hids : map m_id (map (format_chat us) history)
                   = map oid_toString (map c_id history)).
    { rewrite !map_map. reflexivity. }
    rewrite Hids. apply NoDup_fmap_2_strong; [|now rewrite Hperm].
    intros a b _ _. apply oid_toString_inj.
  - exact Hsid.
  - exact Hst.
  - intros i page Hi. destruct (Hidx i page Hi) as [Heq Hne].
    pose proof (Hpage i page Hi) as Hsub. repeat split.
    + rewrite Heq, length_take, length_drop. now rewrite Hlen.
    + exact Hne.
    + exact Heq.
    + eapply StronglySorted_sublist; [exact Hsub | exact Hsid].
    + eapply StronglySorted_sublist; [exact Hsub | exact Hst].
  - intros i page oldest next Hi Hlast Hnext c Hcn.
    destruct (Hidx i page Hi) as [-> _]. destruct (Hidx (S i) next Hnext) as [-> _].
    apply (StronglySorted_app_1_elem_of newer_id
             (take (PAGE_LIMIT * S i) history) (drop (PAGE_LIMIT * S i) history)).
    + now rewrite take_drop.
    + apply last_Some_elem_of in Hlast. apply list_elem_of_lookup in Hlast.
      destruct Hlast as [j Hj]. apply lookup_take_Some in Hj. destruct Hj as [Hj Hlt].
      rewrite lookup_drop in Hj. apply elem_of_take.
      exists (PAGE_LIMIT * i + j)%nat. split; [exact Hj | lia].
    + apply list_elem_of_In in Hcn. eapply subseteq_take, Hcn.
Qed.

(** ** Sending a message *)

(** C5 (amended): [sendMessage] with a non-empty text fails, with an
    error event to the sender and nothing stored, exactly when the group
    id is malformed.  With a well-formed id, whether or not a group with
    that id exists, the message is stored with its sender, group
    reference and creation time, the [message] event goes to exactly the
    connections in the room of that id (to nobody when no connection is
    in it), no error event is sent, and no group is created. *)
Theorem sendMessage_checks_only_the_id_form `{ObjectIdCodec} `{AddressFilter}
  (socketId : string) (user : User) (now : Z) (groupId message : string) (w : World) :
  sessions w !! socketId = Some user ->
  message <> "" ->
  let w' := step (Emit socketId now (SendMessage groupId message)) w in
  match castObjectId groupId with
  | None =>
      mongo w' = mongo w
      /\ outbox w' = outbox w ++ [(socketId, EvError "Failed to send message")]
  | Some gid =>
      let c := mkChat (nextObjectId (mongo w)) message (user_id user) gid now false now in
      let ev := EvMessage (mkMessage (oid_toString (c_id c)) message (address user) now
                                     (oid_toString gid)) in
      chats (mongo w') = chats (mongo w) ++ [c]
      /\ groups (mongo w') = groups (mongo w)
      /\ outbox w' = outbox w ++ map (fun s => (s, ev)) (room_members groupId w)
      /\ (forall e, ~ In (socketId, EvError e)
                      (map (fun s => (s, ev)) (room_members groupId w)))
      /\ (room_members groupId w = [] -> outbox w' = outbox w)
  end
  /\ redis w' = redis w /\ rooms w' = rooms w.
Proof.
  intros Hs Hn w'.
  assert (Hw' : w' = snd (sendMessage socketId user now groupId message w)).
  { unfold w', step. simpl. now rewrite Hs. }
  rewrite Hw'. destruct (castObjectId groupId) as [gid|] eqn:Hc.
  - rewrite (sendMessage_ok _ _ _ _ _ gid _ Hn Hc). simpl. repeat split.
    + intros e Hin. apply in_map_iff in Hin. destruct Hin as (s & Heq & _).
      discriminate Heq.
    + intros ->. simpl. apply app_nil_r.
  - rewrite sendMessage_fails by now right. simpl. repeat split.
Qed.

(** ** The store as the server keeps it *)

Section StoreOk.
Context `{ObjectIdCodec} `{AddressFilter}.

Lemma step_store_ok i w : store_ok w -> store_ok (step i w).
Proof.
  intros (Hnd & Hlt & Hk & Hs).
  destruct (step_effect i w) as (Hm & _ & Hss).
  assert (Hus : users (mongo (step i w)) = users (mongo w))
    by (eapply mongo_step_users, Hm).
  assert (Hs' : forall socketId user,
             sessions (step i w) !! socketId = Some user -> In user (users (mongo w))).
  { intros socketId user. destruct Hss as [|sid u Hu|sid].
    - apply Hs.
    - rewrite lookup_insert. destruct (decide (sid = socketId)); [|apply Hs].
      now intros [= <-].
    - rewrite lookup_delete. destruct (decide (sid = socketId)); [discriminate | apply Hs]. }
  unfold store_ok. rewrite Hus.
  destruct Hm as [|sid u name description now Hu|sid u id g now Hu Hf Hi
                 |sid u message gid now Hu]; simpl.
  - repeat split; assumption.
  - repeat split; try assumption. intros c Hc. specialize (Hlt c Hc). lia.
  - repeat split; assumption.
  - repeat split; try assumption.
    + rewrite map_app. simpl. apply NoDup_app. split; [exact Hnd|]. split.
      * intros x Hx Hx'. apply list_elem_of_singleton in Hx'. subst x.
        apply list_elem_of_fmap in Hx. destruct Hx as (c & Heq & Hc).
        apply list_elem_of_In in Hc. specialize (Hlt c Hc). lia.
      * apply NoDup_singleton.
    + intros c Hc. apply in_app_or in Hc. destruct Hc as [Hc|[<-|[]]].
      * specialize (Hlt c Hc). lia.
      * simpl. lia.
    + intros c Hc. apply in_app_or in Hc. destruct Hc as [Hc|[<-|[]]].
      * now apply Hk.
      * simpl. destruct (findUserById_known u (users (mongo w)) (Hs sid u Hu)) as [u' Hu'].
        now rewrite Hu'.
Qed.

Lemma run_store_ok ins w : store_ok w -> store_ok (run ins w).
Proof. apply (run_invariant store_ok). apply step_store_ok. Qed.

(** What the server inserts gets the generator's next identifier. *)
Lemma mongo_step_chats ss m m' :
  mongo_step ss m m' ->
  (nextObjectId m <= nextObjectId m')%N
  /\ exists new, chats m' = chats m ++ new
                 /\ forall c, In c new -> (nextObjectId m <= c_id c)%N.
Proof.
  intros [| | |sid u message gid now Hu]; simpl.
  - split; [lia|]. exists []. split; [now rewrite app_nil_r | intros c []].
  - split; [lia|]. exists []. split; [now rewrite app_nil_r | intros c []].
  - split; [lia|]. exists []. split; [now rewrite app_nil_r | intros c []].
  - split; [lia|]. eexists. split; [reflexivity|].
    intros c [<-|[]]. simpl. lia.
Qed.

Lemma run_chats ins w :
  (nextObjectId (mongo w) <= nextObjectId (mongo (run ins w)))%N
  /\ exists new, chats (mongo (run ins w)) = chats (mongo w) ++ new
                 /\ forall c, In c new -> (nextObjectId (mongo w) <= c_id c)%N.
Proof.
  revert w. induction ins as [|i ins IH]; intros w.
  - split; [reflexivity|]. exists []. split; [now rewrite app_nil_r | intros c []].
  - rewrite run_cons.
    destruct (mongo_step_chats _ _ _ (step_mongo i w)) as (Hn1 & new1 & Hc1 & Hi1).
    destruct (IH (step i w)) as (Hn2 & new2 & Hc2 & Hi2).
    split; [lia|]. exists (new1 ++ new2). split.
    + now rewrite Hc2, Hc1, <- app_assoc.
    + intros c Hc. apply in_app_or in Hc. destruct Hc as [Hc|Hc].
      * now apply Hi1.
      * specialize (Hi2 c Hc). lia.
Qed.

(** Whatever the server handles, in a store it produced, it inserts no
    message with an identifier smaller than one that is there. *)
Lemma run_inserted_no_smaller gid ins w :
  store_ok w -> inserted_no_smaller gid w (run ins w).
Proof.
  intros (_ & Hlt & _ & _). split; [apply run_users|].
  destruct (run_chats ins w) as (_ & new & Hch & Hnew).
  exists new. split; [exact Hch|].
  intros c Hc _ c0 Hc0. unfold group_messages in Hc0. apply filter_In in Hc0.
  destruct Hc0 as [Hc0 _]. specialize (Hlt c0 Hc0). specialize (Hnew c Hc). lia.
Qed.

(** In such a store the premises of the paging theorem other than the
    one on creation times hold for every group. *)
Lemma store_ok_history gid w :
  store_ok w ->
  NoDup (map c_id (group_messages gid (chats (mongo w))))
  /\ senders_known (users (mongo w)) (group_messages gid (chats (mongo w))).
Proof.
  intros (Hnd & _ & Hk & _). split.
  - now apply NoDup_ids_filter.
  - intros c Hc. apply Hk. unfold group_messages in Hc. now apply filter_In in Hc.
Qed.

End StoreOk.

(** ** Checking the premises of the paging theorem on a concrete store *)

Lemma time_follows_ids_b_ok l : time_follows_ids_b l = true -> time_follows_ids l.
Proof.
  unfold time_follows_ids_b. rewrite forallb_forall. intros Hb a b Ha Hb' Hlt.
  specialize (Hb a Ha). rewrite forallb_forall in Hb. specialize (Hb b Hb').
  apply N.ltb_lt in Hlt. rewrite Hlt in Hb. simpl in Hb. now apply Z.ltb_lt.
Qed.

Lemma senders_known_b_ok us l : senders_known_b us l = true -> senders_known us l.
Proof.
  unfold senders_known_b. rewrite forallb_forall. intros Hb c Hc.
  specialize (Hb c Hc). now destruct (findUserById (c_sender c) us).
Qed.

Section WalkFuel.
Context `{ObjectIdCodec} `{AddressFilter}.

Lemma walk_fuel_mono fuel groupId before w pages :
  walk fuel groupId before w = Some pages ->
  forall fuel', (fuel <= fuel')%nat -> walk fuel' groupId before w = Some pages.
Proof.
  revert before pages. induction fuel as [|fuel IH]; intros before pages Hw fuel' Hle;
    [discriminate Hw|].
  destruct fuel' as [|fuel']; [lia|]. simpl in *.
  destruct (fst (loadMessages groupId before w)) as [page|]; [|discriminate Hw].
  destruct (last page) as [oldest|]; [|exact Hw].
  destruct (walk fuel groupId (Some (m_id oldest)) w) as [rest|] eqn:E;
    [|discriminate Hw].
  rewrite (IH _ _ E fuel') by lia. exact Hw.
Qed.

End WalkFuel.

(** * Further properties of the code *)

(** ** The retry delay *)

(** X1: the reconnection delay is 50 ms per attempt up to attempt 40
    and 2000 ms from then on; it never exceeds 2000 ms, never decreases
    from one attempt to the next, and is at least 50 ms for every
    attempt from the first on. *)
Theorem retryStrategy_is_capped_and_monotone (times : Z) :
  (retryStrategy times <= 2000)%Z
  /\ ((times <= 40)%Z -> retryStrategy times = (50 * times)%Z)
  /\ ((40 <= times)%Z -> retryStrategy times = 2000%Z)
  /\ (forall later, (times <= later)%Z -> (retryStrategy times <= retryStrategy later)%Z)
  /\ ((1 <= times)%Z -> (50 <= retryStrategy times)%Z).
Proof.
  unfold retryStrategy. cbv zeta.
  split; [lia|]. split; [lia|]. split; [lia|]. split; [intros; lia | lia].
Qed.

(** ** The presence helpers *)

Section PresenceHelpers.
Implicit Types r : gmap string (gmap string string).
Implicit Types key socketId groupId a : string.

Lemma hgetall_purged socketId (o : option (gmap string string)) :
  default ∅ (purged socketId o) = delete socketId (default ∅ o).
Proof.
  destruct o as [h|]; simpl; [|now rewrite delete_empty].
  destruct (Nat.eqb (size (delete socketId h)) 0) eqn:E; simpl; [|reflexivity].
  apply Nat.eqb_eq in E. symmetry. now apply map_size_empty_iff.
Qed.

Lemma group_key_not_connections groupId : group_key groupId <> "user_connections".
Proof. apply glob_not_user_connections, glob_group_key. Qed.

Lemma String_append_inj_l (s t u : string) : s +:+ u = t +:+ u -> s = t.
Proof.
  assert (Hlen : forall x y : string,
             String.length (x +:+ y) = (String.length x + String.length y)%nat).
  { intros x y. induction x as [|c x IH]; simpl; [reflexivity | now rewrite IH]. }
  revert t. induction s as [|c s IH]; intros [|d t] Heq; simpl in *.
  - reflexivity.
  - apply (f_equal String.length) in Heq. rewrite !Hlen in Heq. simpl in Heq. lia.
  - apply (f_equal String.length) in Heq. rewrite !Hlen in Heq. simpl in Heq. lia.
  - injection Heq as -> Heq. f_equal. now apply IH.
Qed.

Lemma group_key_inj groupId groupId' : group_key groupId = group_key groupId' -> groupId = groupId'.
Proof.
  unfold group_key. intros Heq.
  assert (Hpre : forall p x y : string, p +:+ x = p +:+ y -> x = y).
  { intros p x y. induction p as [|c p IH]; simpl; [tauto|].
    intros [= Hp]. now apply IH. }
  apply Hpre in Heq. now apply String_append_inj_l in Heq.
Qed.

End PresenceHelpers.

(** X2: [addUserToGroup] is an upsert.  Afterwards [getGroupUsers] of
    that group gives the address under the connection id; every other
    entry of that group, every other key of the store and the global
    connection hash are as before; and writing twice is writing the last
    value once. *)
Theorem addUserToGroup_upserts (groupId socketId a : string)
  (r : gmap string (gmap string string)) :
  getGroupUsers groupId (addUserToGroup groupId socketId a r) !! socketId = Some a
  /\ (forall other, other <> socketId ->
        getGroupUsers groupId (addUserToGroup groupId socketId a r) !! other
        = getGroupUsers groupId r !! other)
  /\ (forall key, key <> group_key groupId ->
        addUserToGroup groupId socketId a r !! key = r !! key)
  /\ hgetall "user_connections" (addUserToGroup groupId socketId a r)
     = hgetall "user_connections" r
  /\ (forall a0, addUserToGroup groupId socketId a (addUserToGroup groupId socketId a0 r)
                 = addUserToGroup groupId socketId a r).
Proof.
  unfold getGroupUsers, hgetall, addUserToGroup. repeat split.
  - rewrite lookup_hset. destruct (decide _); [|congruence]. simpl. apply lookup_insert_eq.
  - intros other Hne. rewrite lookup_hset. destruct (decide _); [|congruence]. simpl.
    now rewrite lookup_insert_ne by congruence.
  - intros key Hne. rewrite lookup_hset. destruct (decide _); congruence.
  - rewrite lookup_hset. destruct (decide _) as [Heq|]; [|reflexivity].
    symmetry in Heq. now apply group_key_not_connections in Heq.
  - intros a0. unfold hset. rewrite lookup_insert_eq. simpl.
    now rewrite !insert_insert_eq.
Qed.

(** X3: [removeUserFromGroup] undoes [addUserToGroup]: when the
    connection was not in the group's presence hash, adding it and
    removing it leaves every hash of the store reading as before. *)
Theorem removeUserFromGroup_undoes_add (groupId socketId a : string)
  (r : gmap string (gmap string string)) :
  getGroupUsers groupId r !! socketId = None ->
  forall key,
    hgetall key (removeUserFromGroup groupId socketId (addUserToGroup groupId socketId a r))
    = hgetall key r.
Proof.
  unfold getGroupUsers, hgetall. intros Habs key.
  rewrite lookup_removeUserFromGroup. unfold addUserToGroup. rewrite lookup_hset.
  destruct (decide (key = group_key groupId)) as [->|Hne]; [|reflexivity].
  rewrite hgetall_purged. simpl. rewrite delete_insert_eq.
  now apply delete_id.
Qed.

(** X4: [removeUserFromGroup] touches one entry of one hash: every
    other entry of the group and every other key are as before, removing
    a connection that is not there changes no reading of the store, and
    removing twice is removing once. *)
Theorem removeUserFromGroup_is_local_and_idempotent (groupId socketId : string)
  (r : gmap string (gmap string string)) :
  getGroupUsers groupId (removeUserFromGroup groupId socketId r)
  = delete socketId (getGroupUsers groupId r)
  /\ (forall key, key <> group_key groupId ->
        removeUserFromGroup groupId socketId r !! key = r !! key)
  /\ (getGroupUsers groupId r !! socketId = None ->
      forall key, hgetall key (removeUserFromGroup groupId socketId r) = hgetall key r)
  /\ removeUserFromGroup groupId socketId (removeUserFromGroup groupId socketId r)
     = removeUserFromGroup groupId socketId r.
Proof.
  unfold getGroupUsers, hgetall. repeat split.
  - rewrite lookup_removeUserFromGroup. destruct (decide _); [|congruence].
    apply hgetall_purged.
  - intros key Hne. rewrite lookup_removeUserFromGroup. destruct (decide _); congruence.
  - intros Habs key. rewrite lookup_removeUserFromGroup.
    destruct (decide (key = group_key groupId)) as [->|]; [|reflexivity].
    rewrite hgetall_purged. now apply delete_id.
  - apply map_eq. intros key. rewrite !lookup_removeUserFromGroup.
    destruct (decide _); [apply purged_idemp | reflexivity].
Qed.

(** X5: [cleanup] removes the one connection and nothing else: every
    group presence hash and the global connection hash read as before
    without that connection id, what it leaves under a group's key is
    what [removeUserFromGroup] leaves there, what it leaves in the
    global hash is what [removeUserConnection] leaves, keys of neither
    kind are not touched, and a second [cleanup] changes nothing. *)
Theorem cleanup_removes_one_connection (socketId : string)
  (r : gmap string (gmap string string)) :
  (forall key, glob "group:*:users" key = true ->
      hgetall key (cleanup socketId r) = delete socketId (hgetall key r))
  /\ (forall groupId,
        cleanup socketId r !! group_key groupId
        = removeUserFromGroup groupId socketId r !! group_key groupId)
  /\ hgetall "user_connections" (cleanup socketId r)
     = delete socketId (hgetall "user_connections" r)
  /\ cleanup socketId r !! "user_connections"
     = removeUserConnection socketId r !! "user_connections"
  /\ (forall key, glob "group:*:users" key = false -> key <> "user_connections" ->
        cleanup socketId r !! key = r !! key)
  /\ cleanup socketId (cleanup socketId r) = cleanup socketId r.
Proof.
  assert (Hother : forall r0 key, glob "group:*:users" key = false ->
                     key <> "user_connections" -> cleanup socketId r0 !! key = r0 !! key).
  { intros r0 key Hg Hne. unfold cleanup. rewrite lookup_hdel_ne by exact Hne.
    rewrite lookup_cleanup_loop. destruct (decide _) as [Hin|]; [|reflexivity].
    apply elem_of_keys in Hin. destruct Hin as [Hg' _]. congruence. }
  unfold hgetall. repeat split.
  - intros key Hg. rewrite lookup_cleanup_group by exact Hg. apply hgetall_purged.
  - intros groupId. rewrite lookup_cleanup_group by apply glob_group_key.
    rewrite lookup_removeUserFromGroup. destruct (decide _); congruence.
  - rewrite lookup_cleanup_connections.
    destruct (r !! "user_connections"); simpl; [reflexivity | now rewrite delete_empty].
  - rewrite lookup_cleanup_connections. unfold removeUserConnection.
    now rewrite lookup_hdel_eq.
  - apply Hother.
  - apply map_eq. intros key.
    destruct (glob "group:*:users" key) eqn:Hg.
    + rewrite !lookup_cleanup_group by exact Hg. apply purged_idemp.
    + destruct (decide (key = "user_connections")) as [->|Hne].
      * rewrite !lookup_cleanup_connections.
        destruct (r !! "user_connections"); simpl; [|reflexivity].
        now rewrite delete_delete_eq.
      * now rewrite !Hother.
Qed.

(** X6: the global connection hash: [addUserConnection] records the
    address under the connection id, [removeUserConnection] removes
    exactly that entry (so the pair leaves the hash reading as before
    when the id was not in it), and neither touches any group's
    presence. *)
Theorem user_connection_round_trip (socketId a : string)
  (r : gmap string (gmap string string)) :
  hgetall "user_connections" (addUserConnection socketId a r) !! socketId = Some a
  /\ hgetall "user_connections" (removeUserConnection socketId r)
     = delete socketId (hgetall "user_connections" r)
  /\ (hgetall "user_connections" r !! socketId = None ->
      hgetall "user_connections"
        (removeUserConnection socketId (addUserConnection socketId a r))
      = hgetall "user_connections" r)
  /\ (forall groupId,
        getGroupUsers groupId (addUserConnection socketId a r) = getGroupUsers groupId r
        /\ getGroupUsers groupId (removeUserConnection socketId r)
           = getGroupUsers groupId r).
Proof.
  unfold getGroupUsers, hgetall, addUserConnection, removeUserConnection. repeat split.
  - rewrite lookup_hset. destruct (decide _); [|congruence]. simpl. apply lookup_insert_eq.
  - rewrite lookup_hdel_eq.
    destruct (r !! "user_connections"); simpl; [reflexivity | now rewrite delete_empty].
  - intros Habs. rewrite lookup_hdel_eq, lookup_hset.
    destruct (decide _); [|congruence]. simpl. rewrite delete_insert_eq.
    now apply delete_id.
  - rewrite lookup_hset. destruct (decide _) as [Heq|]; [|reflexivity].
    now apply group_key_not_connections in Heq.
  - rewrite lookup_hdel_ne by apply group_key_not_connections. reflexivity.
Qed.


(** ** Connections *)

Section Connections.
Context `{ObjectIdCodec} `{AddressFilter}.

Lemma step_conn i w :
  conn_step w (redis (step i w)) (rooms (step i w)) (sessions (step i w)).
Proof.
  unfold step. destruct i as [socketId token | socketId now ev | socketId]; simpl.
  - unfold bind. rewrite authMiddleware_cases.
    destruct (truthy_json token) as [v|]; [|simpl; constructor].
    destruct (address_filter v) as [selects|]; [|simpl; constructor].
    destruct (List.find _ (users (mongo w))); simpl; constructor.
  - destruct (sessions w !! socketId) as [user|] eqn:Hs; [|constructor].
    destruct ev as [|name description|groupId|groupId|groupId message|groupId before]; simpl.
    + unfold bind. pose proof (getGroups_read_only user w) as Hro.
      destruct (getGroups user w) as [[gs|e] w']; simpl in Hro; subst w';
        simpl; constructor.
    + unfold bind. destruct (String.eqb_spec name "") as [->|Hn].
      * rewrite createGroup_invalid. simpl. constructor.
      * rewrite createGroup_valid by assumption. simpl. constructor.
    + destruct (castObjectId groupId) as [id|] eqn:Hc.
      * destruct (find_group id (mongo w)) as [g|] eqn:Hf.
        -- destruct (includes (user_id user) (g_members g)) eqn:Hi.
           ++ erewrite joinGroup_already_member by eassumption.
              simpl. now apply conn_joined.
           ++ erewrite joinGroup_new_member by eassumption.
              simpl. now apply (conn_joined w socketId user groupId).
        -- erewrite joinGroup_no_group by eassumption. simpl. now apply conn_joined.
      * rewrite joinGroup_malformed by assumption.
        simpl. now apply (conn_presence w socketId user groupId).
    + apply conn_left.
    + destruct (String.eqb_spec message "") as [->|Hn].
      * rewrite sendMessage_fails by (now left). simpl. constructor.
      * destruct (castObjectId groupId) as [gid|] eqn:Hc.
        -- erewrite sendMessage_ok by eassumption. simpl. constructor.
        -- rewrite sendMessage_fails by (now right). simpl. constructor.
    + unfold bind. pose proof (loadMessages_read_only groupId before w) as Hro.
      destruct (loadMessages groupId before w) as [[ms|e] w']; simpl in Hro; subst w';
        simpl; constructor.
  - destruct (sessions w !! socketId) as [user|]; simpl; constructor.
Qed.

Lemma conn_step_ok w r' rooms' sessions' :
  conn_step w r' rooms' sessions' ->
  connections_ok w ->
  (forall socketId,
      hgetall "user_connections" r' !! socketId = address <$> sessions' !! socketId)
  /\ (forall groupId socketId,
         is_Some (getGroupUsers groupId r' !! socketId) -> is_Some (sessions' !! socketId))
  /\ (forall room socketId,
         socketId ∈ default ∅ (rooms' !! room) ->
         is_Some (getGroupUsers room r' !! socketId)).
Proof.
  intros Hstep (Hreg & Hpres & Hroom).
  destruct Hstep as [|sid user|sid user gid Hs|sid user gid Hs|sid gid|sid].
  - auto.
  - split; [|split].
    + intros s. unfold hgetall, addUserConnection. rewrite lookup_hset.
      destruct (decide _); [|congruence]. simpl. rewrite !lookup_insert.
      destruct (decide (sid = s)); [reflexivity | apply Hreg].
    + intros g s Hp. unfold getGroupUsers, hgetall, addUserConnection in Hp.
      rewrite lookup_hset in Hp.
      destruct (decide _) as [Heq|]; [now apply group_key_not_connections in Heq|].
      rewrite lookup_insert. destruct (decide (sid = s)); [eauto | now apply (Hpres g)].
    + intros room s Hin. unfold getGroupUsers, hgetall, addUserConnection.
      rewrite lookup_hset.
      destruct (decide _) as [Heq|]; [now apply group_key_not_connections in Heq|].
      now apply Hroom.
  - split; [|split].
    + intros s. rewrite <- Hreg. unfold hgetall, addUserToGroup. rewrite lookup_hset.
      destruct (decide _) as [Heq|]; [|reflexivity].
      symmetry in Heq. now apply group_key_not_connections in Heq.
    + intros g s Hp. unfold getGroupUsers, hgetall, addUserToGroup in Hp.
      rewrite lookup_hset in Hp. destruct (decide _) as [Heq|]; [|now apply (Hpres g)].
      simpl in Hp. rewrite lookup_insert in Hp.
      destruct (decide (sid = s)) as [<-|]; [eauto|].
      apply (Hpres gid). unfold getGroupUsers, hgetall. exact Hp.
    + intros room s Hin. specialize (Hroom room s Hin).
      unfold getGroupUsers, hgetall, addUserToGroup in *. rewrite lookup_hset.
      destruct (decide _) as [Heq|]; [|exact Hroom].
      simpl. rewrite lookup_insert. destruct (decide (sid = s)); [eauto|].
      now rewrite <- Heq.
  - split; [|split].
    + intros s. rewrite <- Hreg. unfold hgetall, addUserToGroup. rewrite lookup_hset.
      destruct (decide _) as [Heq|]; [|reflexivity].
      symmetry in Heq. now apply group_key_not_connections in Heq.
    + intros g s Hp. unfold getGroupUsers, hgetall, addUserToGroup in Hp.
      rewrite lookup_hset in Hp. destruct (decide _) as [Heq|]; [|now apply (Hpres g)].
      simpl in Hp. rewrite lookup_insert in Hp.
      destruct (decide (sid = s)) as [<-|]; [eauto|].
      apply (Hpres gid). unfold getGroupUsers, hgetall. exact Hp.
    + intros room s Hin.
      assert (Hold : s = sid /\ room = gid
                     \/ is_Some (getGroupUsers room (redis w) !! s)).
      { rewrite lookup_insert in Hin. destruct (decide (gid = room)) as [<-|].
        - simpl in Hin. apply elem_of_union in Hin. destruct Hin as [Hin|Hin].
          + apply elem_of_singleton in Hin. now left.
          + right. now apply Hroom.
        - right. now apply Hroom. }
      unfold getGroupUsers, hgetall, addUserToGroup in *. rewrite lookup_hset.
      destruct Hold as [[-> ->]|Hold].
      * destruct (decide _); [|congruence]. simpl. rewrite lookup_insert_eq. eauto.
      * destruct (decide _) as [Heq|]; [|exact Hold].
        simpl. rewrite lookup_insert. destruct (decide (sid = s)); [eauto|].
        now rewrite <- Heq.
  - split; [|split].
    + intros s. rewrite <- Hreg. unfold hgetall. rewrite lookup_removeUserFromGroup.
      destruct (decide _) as [Heq|]; [|reflexivity].
      symmetry in Heq. now apply group_key_not_connections in Heq.
    + intros g s Hp. apply (Hpres g). unfold getGroupUsers, hgetall in *.
      rewrite lookup_removeUserFromGroup in Hp.
      destruct (decide _) as [Heq|]; [|exact Hp].
      rewrite hgetall_purged in Hp. destruct Hp as [a Hp].
      apply lookup_delete_Some in Hp. destruct Hp as [_ Hp]. eauto.
    + intros room s Hin. unfold getGroupUsers, hgetall.
      rewrite lookup_removeUserFromGroup.
      rewrite lookup_insert in Hin. destruct (decide (gid = room)) as [<-|Hne].
      * simpl in Hin. apply elem_of_difference in Hin. destruct Hin as [Hin Hns].
        rewrite elem_of_singleton in Hns.
        destruct (decide _); [|congruence]. rewrite hgetall_purged.
        rewrite lookup_delete_ne by congruence. now apply Hroom.
      * destruct (decide _) as [Heq|]; [|now apply Hroom].
        apply group_key_inj in Heq. congruence.
  - split; [|split].
    + intros s. unfold hgetall. rewrite lookup_cleanup_connections.
      specialize (Hreg s). unfold hgetall in Hreg.
      rewrite lookup_delete. destruct (decide (sid = s)) as [<-|Hne].
      * destruct (redis w !! "user_connections"); simpl;
          [apply lookup_delete_eq | apply lookup_empty].
      * rewrite <- Hreg. destruct (redis w !! "user_connections"); simpl;
          [now apply lookup_delete_ne | reflexivity].
    + intros g s Hp. unfold getGroupUsers, hgetall in Hp.
      rewrite lookup_cleanup_group in Hp by apply glob_group_key.
      rewrite hgetall_purged in Hp. destruct Hp as [a Hp].
      apply lookup_delete_Some in Hp. destruct Hp as [Hne Hp].
      rewrite lookup_delete_ne by exact Hne. apply (Hpres g).
      unfold getGroupUsers, hgetall. eauto.
    + intros room s Hin. rewrite lookup_fmap in Hin.
      assert (Hin' : s ∈ default ∅ (rooms w !! room) /\ s <> sid).
      { destruct (rooms w !! room) as [m|]; simpl in Hin; [|now apply not_elem_of_empty in Hin].
        apply elem_of_difference in Hin. rewrite elem_of_singleton in Hin. exact Hin. }
      destruct Hin' as [Hin' Hne]. specialize (Hroom room s Hin').
      unfold getGroupUsers, hgetall in *.
      rewrite lookup_cleanup_group by apply glob_group_key.
      rewrite hgetall_purged. now rewrite lookup_delete_ne by congruence.
Qed.

Lemma step_connections_ok i w : connections_ok w -> connections_ok (step i w).
Proof. intros Hok. exact (conn_step_ok w _ _ _ (step_conn i w) Hok). Qed.

End Connections.

(** X7: when the inputs are handled one after the other, each to
    completion before the next (what [run] does; two handlers that
    overlap at an [await], as in [removeUserFromGroup_among], and a
    request that comes without its acknowledgement function, are
    outside it), the global hash, the
    presence hashes and the rooms stay consistent with the live
    connections.  From a state where this holds (no connection at all
    is one), after any such run: the global connection hash lists
    exactly the live connections with their users' addresses, every
    entry of a group's presence hash belongs to a live connection, and
    every connection in a room is in that room's presence hash. *)
Theorem presence_belongs_to_live_connections `{ObjectIdCodec} `{AddressFilter}
  (ins : list Input) (w : World) :
  connections_ok w -> connections_ok (run ins w).
Proof. apply (run_invariant connections_ok). apply step_connections_ok. Qed.

(** X8: the handshake never throws and reads only.  It lets a token
    through exactly when the token is truthy and the lookup
    [User.findOne({ address: token })] returns a user, and it binds that
    user, a user of the store, to the connection.  For a string that is
    the user whose address is the string, and the string is not empty.
    The type of the token is not checked: a truthy value of any type
    whose filter selects a user (an operator document, say) is let
    through as the first user it selects. *)
Theorem authMiddleware_accepts_what_the_lookup_finds `{AddressFilter}
  (token : option Json) (w : World) :
  (exists r, authMiddleware token w = (Ok r, w))
  /\ (forall user,
        authMiddleware token w = (Ok (inr user), w)
        <-> exists v, truthy_json token = Some v
                      /\ fst (User_findOne v w) = Ok (Some user))
  /\ (forall user w', authMiddleware token w = (Ok (inr user), w') ->
        In user (users (mongo w)))
  /\ (forall (s : string) user,
        authMiddleware (Some (JString s)) w = (Ok (inr user), w)
        <-> s <> ""
            /\ List.find (fun u => String.eqb (address u) s) (users (mongo w))
               = Some user)
  /\ (forall v selects user,
        truthy_json token = Some v ->
        address_filter v = Some selects ->
        List.find (fun u => selects (address u)) (users (mongo w)) = Some user ->
        authMiddleware token w = (Ok (inr user), w)).
Proof.
  split; [rewrite authMiddleware_cases; eauto|].
  split; [|split; [|split]].
  - intros user. rewrite authMiddleware_cases. split.
    + intros Heq. destruct (truthy_json token) as [v|]; [|discriminate].
      exists v. split; [reflexivity|]. rewrite User_findOne_cases. simpl.
      destruct (address_filter v) as [selects|]; [|discriminate].
      destruct (List.find _ (users (mongo w))) as [u|]; [|discriminate].
      now injection Heq as ->.
    + intros (v & -> & Hf). rewrite User_findOne_cases in Hf. simpl in Hf.
      destruct (address_filter v) as [selects|]; [|discriminate].
      now injection Hf as ->.
  - intros user w'. apply authMiddleware_accepts.
  - intros s user. rewrite authMiddleware_cases. simpl.
    destruct (String.eqb_spec s "") as [->|Hne].
    + split; [discriminate | intros [Hn _]; now contradiction Hn].
    + rewrite address_filter_string. split.
      * intros Heq. split; [exact Hne|].
        destruct (List.find _ (users (mongo w))) as [u|]; [|discriminate].
        now injection Heq as ->.
      * intros [_ ->]. reflexivity.
  - intros v selects user Ht Hsel Hfind.
    now rewrite authMiddleware_cases, Ht, Hsel, Hfind.
Qed.

Lemma NoDup_map_eq {A B} (f : A -> B) (l : list A) (a b : A) :
  NoDup (map f l) -> In a l -> In b l -> f a = f b -> a = b.
Proof.
  induction l as [|x l IH]; intros Hnd Ha Hb Heq; [destruct Ha|].
  simpl in Hnd. apply NoDup_cons in Hnd. destruct Hnd as [Hx Hnd].
  destruct Ha as [<-|Ha], Hb as [<-|Hb].
  - reflexivity.
  - exfalso. apply Hx. rewrite Heq. apply list_elem_of_In. now apply in_map.
  - exfalso. apply Hx. rewrite <- Heq. apply list_elem_of_In. now apply in_map.
  - now apply IH.
Qed.

(** X9: a handshake with the address of a user as token is accepted:
    the connection handler binds that user to the connection, records
    the connection with the address in the global connection hash, and
    sends the connection its id in one [connectionEstablished] event and
    nothing else; no group presence, room or document changes.
    Addresses are unique in the user collection (the schema's unique
    index). *)
Theorem accepted_handshake_registers_connection `{ObjectIdCodec} `{AddressFilter}
  (socketId : string) (user : User) (w : World) :
  In user (users (mongo w)) ->
  address user <> "" ->
  NoDup (map address (users (mongo w))) ->
  let w' := step (Connect socketId (Some (address user))) w in
  sessions w' = <[socketId := user]> (sessions w)
  /\ hgetall "user_connections" (redis w') !! socketId = Some (address user)
  /\ outbox w' = outbox w ++ [(socketId, EvConnectionEstablished socketId)]
  /\ (forall groupId, getGroupUsers groupId (redis w') = getGroupUsers groupId (redis w))
  /\ rooms w' = rooms w
  /\ mongo w' = mongo w.
Proof.
  intros Hin Hne Hnd w'.
  assert (Hfind : List.find (fun u => String.eqb (address u) (address user))
                            (users (mongo w)) = Some user).
  { destruct (List.find _ (users (mongo w))) as [u|] eqn:E.
    - apply find_some in E. destruct E as [Hu Ha]. apply String.eqb_eq in Ha.
      f_equal. now apply (NoDup_map_eq address (users (mongo w))).
    - pose proof (find_none _ _ E user Hin) as Hn. simpl in Hn.
      rewrite String.eqb_refl in Hn. discriminate. }
  assert (Hw' : w' = mkWorld (mongo w)
                       (addUserConnection socketId (address user) (redis w)) (rooms w)
                       (<[socketId := user]> (sessions w))
                       (outbox w ++ [(socketId, EvConnectionEstablished socketId)])).
  { assert (Ht : truthy_json (Some (JString (address user)))
                 = Some (JString (address user))).
    { simpl. now destruct (String.eqb_spec (address user) ""). }
    unfold w', step. cbn [react]. unfold bind at 1.
    rewrite authMiddleware_cases, Ht, address_filter_string, Hfind. reflexivity. }
  rewrite Hw'. simpl. repeat split.
  - unfold hgetall, addUserConnection. rewrite lookup_hset.
    destruct (decide _); [|congruence]. simpl. apply lookup_insert_eq.
  - intros groupId. unfold getGroupUsers, hgetall, addUserConnection.
    rewrite lookup_hset. destruct (decide _) as [Heq|]; [|reflexivity].
    now apply group_key_not_connections in Heq.
Qed.

(** X10: a disconnect is final and silent.  For a socket without a
    connection it does nothing; for a live one it removes the
    connection and takes the socket out of every room; in both cases it
    sends nothing and writes no document, a second disconnect changes
    nothing, and every later event of the socket is dropped. *)
Theorem disconnect_is_final `{ObjectIdCodec} `{AddressFilter} (socketId : string) (w : World) :
  let w' := step (Disconnect socketId) w in
  (sessions w !! socketId = None -> w' = w)
  /\ sessions w' = delete socketId (sessions w)
  /\ (is_Some (sessions w !! socketId) ->
      forall room, socketId ∉ default ∅ (rooms w' !! room))
  /\ outbox w' = outbox w
  /\ mongo w' = mongo w
  /\ step (Disconnect socketId) w' = w'
  /\ (forall now ev, step (Emit socketId now ev) w' = w').
Proof.
  intros w'. unfold w', step. simpl.
  destruct (sessions w !! socketId) as [user|] eqn:Hs; simpl.
  - repeat split; try discriminate.
    + intros _ room Hin. rewrite lookup_fmap in Hin.
      destruct (rooms w !! room); simpl in Hin;
        [|now apply not_elem_of_empty in Hin].
      apply elem_of_difference in Hin. destruct Hin as [_ Hn].
      apply Hn. now apply elem_of_singleton.
    + now rewrite lookup_delete_eq.
    + intros now ev. now rewrite lookup_delete_eq.
  - repeat split.
    + symmetry. now apply delete_id.
    + intros [u Hu]. discriminate Hu.
    + now rewrite Hs.
    + intros now ev. now rewrite Hs.
Qed.

(** X11: the server never writes the user collection, never changes
    or removes a stored message, and never stores a soft-deleted one:
    after any run the users are the same and the chats are the old ones
    followed by new ones whose [isDeleted] is [false]. *)
Theorem messages_are_append_only `{ObjectIdCodec} `{AddressFilter} (ins : list Input) (w : World) :
  users (mongo (run ins w)) = users (mongo w)
  /\ exists new,
       chats (mongo (run ins w)) = chats (mongo w) ++ new
       /\ Forall (fun c => c_isDeleted c = false) new.
Proof.
  split; [apply run_users|].
  revert w. induction ins as [|i ins IH]; intros w.
  - exists []. split; [now rewrite app_nil_r | constructor].
  - rewrite run_cons. destruct (IH (step i w)) as (new & Hnew & Hall).
    rewrite Hnew.
    destruct (step_mongo i w) as [| | |sid u message gid now Hu]; simpl;
      try (exists new; split; [reflexivity | exact Hall]).
    exists (mkChat (nextObjectId (mongo w)) message (user_id u) gid now false now :: new).
    split; [now rewrite <- app_assoc | now constructor].
Qed.


(** ** Loading a page *)

Section Pages.
Context `{ObjectIdCodec} `{AddressFilter}.

Lemma mapM_format_cases us page w :
  (senders_known us page
   /\ mapM format_message (map (fun c => (c, findUserById (c_sender c) us)) page) w
      = (Ok (map (format_chat us) page), w))
  \/ (~ senders_known us page
      /\ exists e,
           mapM format_message (map (fun c => (c, findUserById (c_sender c) us)) page) w
           = (Thrown e, w)).
Proof.
  induction page as [|c page IH].
  - left. split; [intros c []|reflexivity].
  - simpl. unfold bind, format_message at 1 3. simpl.
    destruct (findUserById (c_sender c) us) as [u|] eqn:E.
    + unfold ret at 1 3. destruct IH as [[Hk ->]|[Hk [e ->]]].
      * left. split.
        -- intros c' [<-|Hc']; [congruence | now apply Hk].
        -- unfold ret, format_chat. simpl. now rewrite E.
      * right. split; [|eauto]. intros Hk'. apply Hk. intros c' Hc'. apply Hk'. now right.
    + right. split; [|unfold throw; eauto].
      intros Hk'. apply (Hk' c); [now left | exact E].
Qed.

Lemma forallb_false_ex' {A} (f : A -> bool) (l : list A) :
  forallb f l = false -> exists x, In x l /\ f x = false.
Proof.
  induction l as [|x l IH]; simpl; [discriminate|].
  destruct (f x) eqn:E; simpl.
  - intros Hf. destruct (IH Hf) as (y & Hy & Hfy). eauto.
  - intros _. eauto.
Qed.

(** The answer of [loadMessages] in terms of the query's page. *)
Lemma loadMessages_cases groupId before w :
  loadMessages groupId before w
  = (Ok match castObjectId groupId, cursor_of before with
        | Some gid, Some cursor =>
            let page := find_page (chats (mongo w)) gid cursor in
            if senders_known_b (users (mongo w)) page
            then map (format_chat (users (mongo w))) page
            else []
        | _, _ => []
        end, w).
Proof.
  unfold loadMessages, Chat_find, cursor_of.
  destruct (castObjectId groupId) as [gid|]; [|reflexivity].
  assert (Hpage : forall cursor,
    try_catch
      (messages <- (m <- get_mongo ;;
                    ret (map (fun c => (c, findUserById (c_sender c) (users m)))
                             (find_page (chats m) gid cursor))) ;;
       formattedMessages <- mapM format_message messages ;;
       ret formattedMessages)
      (fun _ => ret []) w
    = (Ok (let page := find_page (chats (mongo w)) gid cursor in
           if senders_known_b (users (mongo w)) page
           then map (format_chat (users (mongo w))) page else []), w)).
  { intros cursor. unfold try_catch, bind at 1 2, get_mongo, ret at 1. simpl.
    unfold bind.
    destruct (mapM_format_cases (users (mongo w))
                (find_page (chats (mongo w)) gid cursor) w) as [[Hk ->]|[Hk [e ->]]].
    - unfold ret. destruct (senders_known_b _ _) eqn:E; [reflexivity|].
      exfalso. unfold senders_known_b in E. apply forallb_false_ex' in E.
      destruct E as (c & Hc & Hn). apply (Hk c Hc).
      now destruct (findUserById (c_sender c) (users (mongo w))).
    - unfold ret. destruct (senders_known_b _ _) eqn:E; [|reflexivity].
      exfalso. now apply Hk, senders_known_b_ok. }
  destruct (truthy before) as [b|].
  - destruct (castObjectId b) as [bid|]; [apply Hpage | reflexivity].
  - apply Hpage.
Qed.

End Pages.


Lemma StronglySorted_map {A B} (R : B -> B -> Prop) (f : A -> B) (l : list A) :
  StronglySorted (fun a b => R (f a) (f b)) l -> StronglySorted R (map f l).
Proof.
  induction 1 as [|x l Hs IH Hx]; simpl; constructor; [exact IH|].
  apply Forall_forall. intros y Hy. apply list_elem_of_fmap in Hy.
  destruct Hy as (a & -> & Ha). rewrite Forall_forall in Hx. now apply Hx.
Qed.

(** X12: whatever the store holds, [loadMessages] leaves the world as
    it is and answers with at most 50 messages, newest first by creation
    time; each of them is a stored, non-deleted message of the group
    asked for, carries the address of its sender, and has an identifier
    below [before] when a non-empty [before] was given. *)
Theorem loadMessages_answers_a_page_of_the_group `{ObjectIdCodec}
  (groupId : string) (before : option string) (w : World) :
  exists reply,
    loadMessages groupId before w = (Ok reply, w)
    /\ (length reply <= PAGE_LIMIT)%nat
    /\ StronglySorted (fun a b => (m_createdAt b <= m_createdAt a)%Z) reply
    /\ forall m, In m reply ->
         exists gid c,
           castObjectId groupId = Some gid
           /\ In c (chats (mongo w))
           /\ m = format_chat (users (mongo w)) c
           /\ c_groupId c = gid /\ c_isDeleted c = false
           /\ (exists u, findUserById (c_sender c) (users (mongo w)) = Some u
                         /\ m_sender_address m = address u)
           /\ forall b, truthy before = Some b ->
                exists bid, castObjectId b = Some bid /\ (c_id c < bid)%N.
Proof.
  rewrite loadMessages_cases. eexists. split; [reflexivity|].
  destruct (castObjectId groupId) as [gid|];
    [|split; [simpl; lia | split; [constructor | intros m []]]].
  destruct (cursor_of before) as [cursor|] eqn:Hcur;
    [|split; [simpl; lia | split; [constructor | intros m []]]].
  cbv zeta.
  destruct (senders_known_b _ _) eqn:Hk;
    [|split; [simpl; lia | split; [constructor | intros m []]]].
  apply senders_known_b_ok in Hk. unfold find_page in *.
  set (found := sort_desc c_createdAt
                  (List.filter (chat_matches gid cursor) (chats (mongo w)))) in *.
  split; [|split].
  - rewrite length_map, length_take. lia.
  - apply StronglySorted_map. simpl.
    apply (StronglySorted_sublist _ _ found (sublist_take _ _)).
    apply (sort_desc_sorted c_createdAt).
  - intros m Hm. apply in_map_iff in Hm. destruct Hm as (c & <- & Hc).
    pose proof (Hk c Hc) as Hs.
    apply In_take in Hc. unfold found in Hc. rewrite sort_desc_In in Hc.
    apply filter_In in Hc. destruct Hc as [Hin Hmatch].
    unfold chat_matches in Hmatch.
    apply andb_prop in Hmatch. destruct Hmatch as [Hmatch Hlt].
    apply andb_prop in Hmatch. destruct Hmatch as [Hg Hd].
    exists gid, c. repeat split; try assumption.
    + now apply N.eqb_eq.
    + now destruct (c_isDeleted c).
    + destruct (findUserById (c_sender c) (users (mongo w))) as [u|] eqn:E;
        [|contradiction].
      exists u. split; [reflexivity|]. unfold format_chat. simpl. now rewrite E.
    + intros b Hb. unfold cursor_of in Hcur. rewrite Hb in Hcur.
      destruct (castObjectId b) as [bid|]; [|discriminate].
      injection Hcur as <-. exists bid. split; [reflexivity | now apply N.ltb_lt].
Qed.

(** X13: where [loadMessages] answers with the empty list although
    messages may exist: a malformed group id, a non-empty [before] that
    is no identifier, and a page that holds a message whose sender
    resolves to no user.  An empty [before] is no cursor at all. *)
Theorem loadMessages_answers_empty_on_failure `{ObjectIdCodec}
  (groupId : string) (before : option string) (w : World) :
  (castObjectId groupId = None -> loadMessages groupId before w = (Ok [], w))
  /\ (forall b, truthy before = Some b -> castObjectId b = None ->
        loadMessages groupId before w = (Ok [], w))
  /\ (forall gid cursor,
        castObjectId groupId = Some gid -> cursor_of before = Some cursor ->
        (exists c, In c (find_page (chats (mongo w)) gid cursor)
                   /\ findUserById (c_sender c) (users (mongo w)) = None) ->
        loadMessages groupId before w = (Ok [], w))
  /\ loadMessages groupId (Some "") w = loadMessages groupId None w.
Proof.
  rewrite !loadMessages_cases. repeat split.
  - now intros ->.
  - intros b Hb Hc. unfold cursor_of. rewrite Hb, Hc.
    now destruct (castObjectId groupId).
  - intros gid cursor -> -> (c & Hc & Hn). cbv zeta.
    destruct (senders_known_b _ _) eqn:Hk; [|reflexivity].
    apply senders_known_b_ok in Hk. now apply Hk in Hc.
Qed.

(** ** Sending, joining and leaving *)

(** X14: a message sent with a non-empty text to a well-formed group
    id is delivered once to each connection that is in the room of that
    id and to no other connection (the sender receives it exactly when
    it is in the room itself); the event carries the new message's id,
    the text, the sender's address, the creation time and the group
    id. *)
Theorem message_reaches_exactly_the_room `{ObjectIdCodec} `{AddressFilter}
  (socketId : string) (user : User) (now : Z) (groupId message : string)
  (gid : ObjectId) (w : World) :
  sessions w !! socketId = Some user ->
  message <> "" ->
  castObjectId groupId = Some gid ->
  let w' := step (Emit socketId now (SendMessage groupId message)) w in
  let ev := EvMessage (mkMessage (oid_toString (nextObjectId (mongo w))) message
                                 (address user) now (oid_toString gid)) in
  exists sent,
    outbox w' = outbox w ++ sent
    /\ NoDup sent
    /\ forall s e, In (s, e) sent <-> e = ev /\ s ∈ default ∅ (rooms w !! groupId).
Proof.
  intros Hs Hn Hc w' ev.
  assert (Hw' : w' = snd (sendMessage socketId user now groupId message w)).
  { unfold w', step. simpl. now rewrite Hs. }
  rewrite Hw', (sendMessage_ok _ _ _ _ _ gid _ Hn Hc). simpl.
  fold ev. exists (map (fun s => (s, ev)) (room_members groupId w)).
  split; [reflexivity|]. split.
  - apply NoDup_fmap_2_strong; [|apply NoDup_elements].
    intros a b _ _ Heq. now injection Heq.
  - intros s e. rewrite in_map_iff. unfold room_members. split.
    + intros (s' & Heq & Hin). injection Heq as -> ->.
      split; [reflexivity|]. now apply elem_of_elements, list_elem_of_In.
    + intros [-> Hin]. exists s. split; [reflexivity|].
      now apply list_elem_of_In, elem_of_elements.
Qed.

(** X15: a join with a malformed group id fails half way: the
    connection is already written into the presence hash of that id
    when the lookup of the group throws, so it stays there, while the
    room is not joined, no document changes and the connection gets the
    error event. *)
Theorem join_with_malformed_id_leaves_presence `{ObjectIdCodec} `{AddressFilter}
  (socketId : string) (user : User) (now : Z) (groupId : string) (w : World) :
  sessions w !! socketId = Some user ->
  castObjectId groupId = None ->
  let w' := step (Emit socketId now (JoinGroup groupId)) w in
  getGroupUsers groupId (redis w') !! socketId = Some (address user)
  /\ rooms w' = rooms w
  /\ mongo w' = mongo w
  /\ sessions w' = sessions w
  /\ outbox w' = outbox w ++ [(socketId, EvError "Failed to join group")].
Proof.
  intros Hs Hc w'. unfold w', step. simpl. rewrite Hs.
  rewrite joinGroup_malformed by exact Hc. simpl. repeat split.
  unfold getGroupUsers, hgetall, addUserToGroup. rewrite lookup_hset.
  destruct (decide _); [|congruence]. simpl. apply lookup_insert_eq.
Qed.

(** X16: a join of an existing group by an identity that is not yet a
    member changes one document in one way: the group that [findById]
    returned gets the identity appended to its members and its
    [updatedAt] set; every other group document, the chats and the
    users are as before, and nothing is sent. *)
Theorem join_appends_one_member `{ObjectIdCodec} `{AddressFilter}
  (socketId : string) (user : User) (now : Z) (groupId : string) (id : ObjectId)
  (g : Group) (w : World) :
  sessions w !! socketId = Some user ->
  castObjectId groupId = Some id ->
  find_group id (mongo w) = Some g ->
  ~ In (user_id user) (g_members g) ->
  let w' := step (Emit socketId now (JoinGroup groupId)) w in
  exists before after g',
    groups (mongo w) = before ++ g :: after
    /\ groups (mongo w') = before ++ g' :: after
    /\ g_members g' = g_members g ++ [user_id user]
    /\ g_updatedAt g' = now
    /\ g_id g' = g_id g /\ g_name g' = g_name g /\ g_description g' = g_description g
    /\ g_owner g' = g_owner g /\ g_isPrivate g' = g_isPrivate g
    /\ g_createdAt g' = g_createdAt g
    /\ chats (mongo w') = chats (mongo w)
    /\ users (mongo w') = users (mongo w)
    /\ outbox w' = outbox w.
Proof.
  intros Hs Hc Hf Hnot w'.
  assert (Hi : includes (user_id user) (g_members g) = false).
  { destruct (includes _ _) eqn:E; [|reflexivity]. now apply includes_In in E. }
  destruct (updateOne_split id (mongo w) g (with_member g (user_id user) now) Hf)
    as (l1 & l2 & Hg & Hu).
  exists l1, l2, (with_member g (user_id user) now).
  unfold w', step. simpl. rewrite Hs.
  rewrite (joinGroup_new_member _ _ _ _ _ _ _ Hc Hf Hi). simpl.
  rewrite Hu. repeat split. exact Hg.
Qed.


Section JoinLeave.
Context `{ObjectIdCodec} `{AddressFilter}.

Lemma getGroupUsers_add g groupId socketId a r :
  getGroupUsers g (addUserToGroup groupId socketId a r)
  = if decide (g = groupId) then <[socketId := a]> (getGroupUsers g r)
    else getGroupUsers g r.
Proof.
  unfold getGroupUsers, hgetall, addUserToGroup. rewrite lookup_hset.
  destruct (decide (g = groupId)) as [->|Hne].
  - destruct (decide _); [reflexivity | congruence].
  - destruct (decide _) as [Heq|]; [|reflexivity].
    now apply group_key_inj in Heq.
Qed.

Lemma getGroupUsers_remove g groupId socketId r :
  getGroupUsers g (removeUserFromGroup groupId socketId r)
  = if decide (g = groupId) then delete socketId (getGroupUsers g r)
    else getGroupUsers g r.
Proof.
  unfold getGroupUsers, hgetall. rewrite lookup_removeUserFromGroup.
  destruct (decide (g = groupId)) as [->|Hne].
  - destruct (decide _); [apply hgetall_purged | congruence].
  - destruct (decide _) as [Heq|]; [|reflexivity].
    now apply group_key_inj in Heq.
Qed.

(** What a join does to the presence store, the rooms and the
    connections, in all of its four courses. *)
Lemma joinGroup_connections socketId user now groupId w :
  redis (snd (joinGroup socketId user now groupId w))
  = addUserToGroup groupId socketId (address user) (redis w)
  /\ sessions (snd (joinGroup socketId user now groupId w)) = sessions w
  /\ rooms (snd (joinGroup socketId user now groupId w))
     = match castObjectId groupId with
       | Some _ => <[groupId := {[socketId]} ∪ default ∅ (rooms w !! groupId)]> (rooms w)
       | None => rooms w
       end.
Proof.
  destruct (castObjectId groupId) as [id|] eqn:Hc.
  - destruct (find_group id (mongo w)) as [g|] eqn:Hf.
    + destruct (includes (user_id user) (g_members g)) eqn:Hi.
      * rewrite (joinGroup_already_member _ _ _ _ _ _ _ Hc Hf Hi). now simpl.
      * rewrite (joinGroup_new_member _ _ _ _ _ _ _ Hc Hf Hi). now simpl.
    + rewrite (joinGroup_no_group _ _ _ _ _ _ Hc Hf). now simpl.
  - rewrite joinGroup_malformed by exact Hc. now simpl.
Qed.

End JoinLeave.

(** X17: a leave undoes a join, however the join went (group found or
    not, member already or not, identifier malformed).  After the two,
    the connection is neither in the group's presence hash nor in its
    room; every other connection is in them exactly as before; no other
    group's presence or room, the global connection hash or the
    connections themselves have changed. *)
Theorem leave_undoes_join `{ObjectIdCodec} `{AddressFilter}
  (socketId : string) (user : User) (now later : Z) (groupId : string) (w : World) :
  sessions w !! socketId = Some user ->
  let w' := run [Emit socketId now (JoinGroup groupId);
                 Emit socketId later (LeaveGroup groupId)] w in
  getGroupUsers groupId (redis w') = delete socketId (getGroupUsers groupId (redis w))
  /\ (forall s, s ∈ default ∅ (rooms w' !! groupId)
                <-> s ∈ default ∅ (rooms w !! groupId) /\ s <> socketId)
  /\ (forall other, other <> groupId ->
        getGroupUsers other (redis w') = getGroupUsers other (redis w)
        /\ rooms w' !! other = rooms w !! other)
  /\ hgetall "user_connections" (redis w') = hgetall "user_connections" (redis w)
  /\ sessions w' = sessions w.
Proof.
  intros Hs w'.
  destruct (joinGroup_connections socketId user now groupId w) as (Hr & Hss & Hro).
  assert (Hw' : w' = snd (leaveGroup socketId groupId
                            (snd (joinGroup socketId user now groupId w)))).
  { assert (Hj : step (Emit socketId now (JoinGroup groupId)) w
                 = snd (joinGroup socketId user now groupId w)).
    { unfold step. simpl. now rewrite Hs. }
    unfold w'. rewrite !run_cons, Hj.
    change (run [] ?x) with x. unfold step. cbn [react].
    now rewrite Hss, Hs. }
  rewrite Hw', leaveGroup_eq. simpl. rewrite Hr, Hss, Hro. clear Hw' Hr Hss Hro.
  split; [|split; [|split; [|split]]].
  - rewrite getGroupUsers_remove, getGroupUsers_add.
    destruct (decide _); [|congruence]. apply delete_insert_eq.
  - intros s. rewrite lookup_insert_eq. simpl. rewrite elem_of_difference.
    rewrite elem_of_singleton.
    destruct (castObjectId groupId); [|reflexivity].
    rewrite lookup_insert_eq. simpl. rewrite elem_of_union, elem_of_singleton. tauto.
  - intros other Hne. split.
    + rewrite getGroupUsers_remove, getGroupUsers_add.
      destruct (decide _); [congruence | reflexivity].
    + rewrite lookup_insert_ne by congruence.
      destruct (castObjectId groupId); [|reflexivity].
      now rewrite lookup_insert_ne by congruence.
  - unfold hgetall. rewrite lookup_removeUserFromGroup.
    destruct (decide _) as [Heq|]; [symmetry in Heq; now apply group_key_not_connections in Heq|].
    unfold addUserToGroup. rewrite lookup_hset.
    destruct (decide _) as [Heq|]; [symmetry in Heq; now apply group_key_not_connections in Heq|].
    reflexivity.
  - reflexivity.
Qed.

Section Rooms.
Context `{ObjectIdCodec} `{AddressFilter}.

(** What each input does to the rooms. *)
Lemma step_rooms i w :
  rooms (step i w)
  = match i with
    | Connect _ _ => rooms w
    | Emit socketId _ ev =>
        match sessions w !! socketId, ev with
        | Some _, JoinGroup groupId =>
            match castObjectId groupId with
            | Some _ =>
                <[groupId := {[socketId]} ∪ default ∅ (rooms w !! groupId)]> (rooms w)
            | None => rooms w
            end
        | Some _, LeaveGroup groupId =>
            <[groupId := default ∅ (rooms w !! groupId) ∖ {[socketId]}]> (rooms w)
        | _, _ => rooms w
        end
    | Disconnect socketId =>
        match sessions w !! socketId with
        | Some _ => (fun members => members ∖ {[socketId]}) <$> rooms w
        | None => rooms w
        end
    end.
Proof.
  unfold step. destruct i as [socketId token | socketId now ev | socketId]; simpl.
  - unfold bind. rewrite authMiddleware_cases.
    destruct (truthy_json token) as [v|]; [|reflexivity].
    destruct (address_filter v) as [selects|]; [|reflexivity].
    now destruct (List.find _ (users (mongo w))).
  - destruct (sessions w !! socketId) as [user|] eqn:Hs; [|now destruct ev].
    destruct ev as [|name description|groupId|groupId|groupId message|groupId before]; simpl.
    + unfold bind. pose proof (getGroups_read_only user w) as Hro.
      destruct (getGroups user w) as [[gs|e] w']; simpl in Hro; now subst w'.
    + unfold bind. destruct (String.eqb_spec name "") as [->|Hn].
      * now rewrite createGroup_invalid.
      * now rewrite createGroup_valid by assumption.
    + apply joinGroup_connections.
    + reflexivity.
    + destruct (String.eqb_spec message "") as [->|Hn].
      * now rewrite sendMessage_fails by (now left).
      * destruct (castObjectId groupId) as [gid|] eqn:Hc.
        -- now erewrite sendMessage_ok by eassumption.
        -- now rewrite sendMessage_fails by (now right).
    + unfold bind. pose proof (loadMessages_read_only groupId before w) as Hro.
      destruct (loadMessages groupId before w) as [[ms|e] w']; simpl in Hro; now subst w'.
  - now destruct (sessions w !! socketId).
Qed.

(** A connection stays in a room as long as it neither leaves it nor
    disconnects. *)
Lemma step_keeps_subscription i w socketId room :
  socketId ∈ default ∅ (rooms w !! room) ->
  i <> Disconnect socketId ->
  (forall now, i <> Emit socketId now (LeaveGroup room)) ->
  socketId ∈ default ∅ (rooms (step i w) !! room).
Proof.
  intros Hin Hd Hl. rewrite step_rooms.
  destruct i as [sid token | sid now ev | sid]; [exact Hin| |].
  - destruct (sessions w !! sid); [|exact Hin].
    destruct ev as [| |groupId|groupId| |]; try exact Hin.
    + destruct (castObjectId groupId); [|exact Hin].
      destruct (decide (groupId = room)) as [->|Hne].
      * rewrite lookup_insert_eq. simpl. now apply elem_of_union_r.
      * now rewrite lookup_insert_ne by exact Hne.
    + destruct (decide (groupId = room)) as [->|Hne].
      * rewrite lookup_insert_eq. simpl. apply elem_of_difference.
        split; [exact Hin|]. intros Heq. apply elem_of_singleton in Heq.
        subst sid. now apply (Hl now).
      * now rewrite lookup_insert_ne by exact Hne.
  - destruct (sessions w !! sid); [|exact Hin].
    rewrite lookup_fmap. destruct (rooms w !! room) as [members|]; simpl in *;
      [|exact Hin].
    apply elem_of_difference. split; [exact Hin|].
    intros Heq. apply elem_of_singleton in Heq. subst sid. now apply Hd.
Qed.

(** A connection stays out of a room as long as it does not join it. *)
Lemma step_keeps_out i w socketId room :
  socketId ∉ default ∅ (rooms w !! room) ->
  (forall now, i <> Emit socketId now (JoinGroup room)) ->
  socketId ∉ default ∅ (rooms (step i w) !! room).
Proof.
  intros Hout Hj. rewrite step_rooms.
  destruct i as [sid token | sid now ev | sid]; [exact Hout| |].
  - destruct (sessions w !! sid); [|exact Hout].
    destruct ev as [| |groupId|groupId| |]; try exact Hout.
    + destruct (castObjectId groupId); [|exact Hout].
      destruct (decide (groupId = room)) as [->|Hne].
      * rewrite lookup_insert_eq. simpl. intros Hin.
        apply elem_of_union in Hin. destruct Hin as [Hin|Hin]; [|now apply Hout].
        apply elem_of_singleton in Hin. subst sid. now apply (Hj now).
      * now rewrite lookup_insert_ne by exact Hne.
    + destruct (decide (groupId = room)) as [->|Hne].
      * rewrite lookup_insert_eq. simpl. intros Hin.
        apply elem_of_difference in Hin. now apply Hout.
      * now rewrite lookup_insert_ne by exact Hne.
  - destruct (sessions w !! sid); [|exact Hout].
    rewrite lookup_fmap. destruct (rooms w !! room) as [members|]; simpl in *;
      [|exact Hout].
    intros Hin. apply elem_of_difference in Hin. now apply Hout.
Qed.

Lemma run_keeps_subscription ins w socketId room :
  socketId ∈ default ∅ (rooms w !! room) ->
  Forall (fun i => i <> Disconnect socketId
                   /\ forall now, i <> Emit socketId now (LeaveGroup room)) ins ->
  socketId ∈ default ∅ (rooms (run ins w) !! room).
Proof.
  intros Hin Hall. revert w Hin.
  induction Hall as [|i ins [Hd Hl] _ IH]; intros w Hin; [exact Hin|].
  rewrite run_cons. apply IH. now apply step_keeps_subscription.
Qed.

Lemma run_keeps_out ins w socketId room :
  socketId ∉ default ∅ (rooms w !! room) ->
  Forall (fun i => forall now, i <> Emit socketId now (JoinGroup room)) ins ->
  socketId ∉ default ∅ (rooms (run ins w) !! room).
Proof.
  intros Hout Hall. revert w Hout.
  induction Hall as [|i ins Hj _ IH]; intros w Hout; [exact Hout|].
  rewrite run_cons. apply IH. now apply step_keeps_out.
Qed.

End Rooms.

(** X18: a connection that joined a group under a well-formed
    identifier receives every message sent to that identifier
    afterwards, by any connection, its own included, whatever else the
    server handles in between, for as long as it neither leaves that
    identifier nor disconnects.  Once it has left, no message sent to
    the identifier by any connection reaches it, until it joins again. *)
Theorem subscription_follows_join_and_leave `{ObjectIdCodec} `{AddressFilter}
  (socketId : string) (user : User) (sender : string) (now later : Z)
  (groupId message : string) (gid : ObjectId) (between : list Input) (w : World) :
  sessions w !! socketId = Some user ->
  castObjectId groupId = Some gid ->
  message <> "" ->
  let joined := run between (step (Emit socketId now (JoinGroup groupId)) w) in
  let left := run between (step (Emit socketId now (LeaveGroup groupId)) w) in
  let send := step (Emit sender later (SendMessage groupId message)) in
  (forall author,
      Forall (fun i => i <> Disconnect socketId
                       /\ forall t, i <> Emit socketId t (LeaveGroup groupId)) between ->
      sessions joined !! sender = Some author ->
      exists sent m,
        outbox (send joined) = outbox joined ++ sent
        /\ In (socketId, EvMessage m) sent
        /\ m_message m = message /\ m_sender_address m = address author
        /\ m_groupId m = oid_toString gid /\ m_createdAt m = later)
  /\ (Forall (fun i => forall t, i <> Emit socketId t (JoinGroup groupId)) between ->
      exists sent,
        outbox (send left) = outbox left ++ sent
        /\ forall e, ~ In (socketId, e) sent).
Proof.
  intros Hs Hc Hn joined left send. split.
  - intros author Hall Hau.
    assert (Hin : socketId ∈ default ∅ (rooms joined !! groupId)).
    { apply run_keeps_subscription; [|exact Hall].
      rewrite step_rooms, Hs, Hc, lookup_insert_eq. simpl.
      apply elem_of_union_l. now apply elem_of_singleton. }
    assert (Hsend : send joined
                    = snd (sendMessage sender author later groupId message joined)).
    { unfold send, step. simpl. now rewrite Hau. }
    rewrite Hsend, (sendMessage_ok _ _ _ _ _ gid _ Hn Hc). simpl.
    eexists. eexists. split; [reflexivity|]. split.
    + apply in_map_iff. exists socketId.
      split; [reflexivity|]. now apply list_elem_of_In, elem_of_room_members.
    + repeat split.
  - intros Hall.
    assert (Hout : socketId ∉ default ∅ (rooms left !! groupId)).
    { apply run_keeps_out; [|exact Hall].
      rewrite step_rooms, Hs, lookup_insert_eq. simpl. intros Hin.
      apply elem_of_difference in Hin. destruct Hin as [_ Hnot].
      apply Hnot. now apply elem_of_singleton. }
    destruct (sessions left !! sender) as [author|] eqn:Hau.
    + assert (Hsend : send left
                      = snd (sendMessage sender author later groupId message left)).
      { unfold send, step. simpl. now rewrite Hau. }
      rewrite Hsend, (sendMessage_ok _ _ _ _ _ gid _ Hn Hc). simpl.
      eexists. split; [reflexivity|].
      intros e Hin. apply in_map_iff in Hin. destruct Hin as (s & Heq & Hin).
      injection Heq as -> _. apply Hout.
      now apply list_elem_of_In, elem_of_room_members in Hin.
    + exists []. split; [|intros e []].
      unfold send, step. simpl. rewrite Hau. simpl. now rewrite app_nil_r.
Qed.

(** ** Listing and creating groups *)

(** X19: for every viewer, known to the store or not, [getGroups]
    reads only and answers with the non-private groups of the store,
    each once and none that is private; each comes with its owner and
    its members resolved against the user collection (references to no
    user are dropped).  A viewer whose identifier names no user
    document is found in no member list, so gets the plain newest-first
    listing, also of groups whose member list holds that identifier. *)
Theorem getGroups_shows_the_public_groups `{ObjectIdCodec} (viewer : User) (w : World) :
  exists l,
    getGroups viewer w = (Ok l, w)
    /\ map pg_group l ≡ₚ public_groups (mongo w)
    /\ (forall p, In p l ->
          In (pg_group p) (groups (mongo w))
          /\ g_isPrivate (pg_group p) = false
          /\ pg_owner p = findUserById (g_owner (pg_group p)) (users (mongo w))
          /\ forall u, In u (pg_members p)
                       <-> exists id, In id (g_members (pg_group p))
                                      /\ findUserById id (users (mongo w)) = Some u)
    /\ (findUserById (user_id viewer) (users (mongo w)) = None ->
        map pg_group l = sort_desc g_createdAt (public_groups (mongo w))).
Proof.
  set (us := users (mongo w)).
  set (all := sort_desc g_createdAt (public_groups (mongo w))).
  assert (Hmap : forall l, map pg_group (map (populateGroup us) l) = l).
  { intros l. rewrite map_map. simpl. apply map_id. }
  assert (Heq : getGroups viewer w
                = (Ok (List.filter (is_member viewer) (map (populateGroup us) all)
                       ++ List.filter (fun g => negb (is_member viewer g))
                                      (map (populateGroup us) all)), w))
    by reflexivity.
  eexists. split; [exact Heq|]. split; [|split].
  - rewrite filter_partition_perm, Hmap. apply sort_desc_perm.
  - intros p Hp.
    assert (Hin : In p (map (populateGroup us) all)).
    { apply in_app_or in Hp. destruct Hp as [Hp|Hp]; now apply filter_In in Hp. }
    apply in_map_iff in Hin. destruct Hin as (g & <- & Hg).
    unfold all in Hg. rewrite sort_desc_In in Hg. unfold public_groups in Hg.
    apply filter_In in Hg. destruct Hg as [Hg Hpub]. simpl.
    split; [exact Hg|]. split; [now destruct (g_isPrivate g)|]. split; [reflexivity|].
    intros u. unfold populateMembers. rewrite <- list_elem_of_In, list_elem_of_omap.
    split; intros (id & Hid & Hf); exists id; split; try assumption;
      now apply list_elem_of_In.
  - intros Hnone.
    assert (Hno : forall p, In p (map (populateGroup us) all) -> is_member viewer p = false).
    { intros p Hp. apply in_map_iff in Hp. destruct Hp as (g & <- & _).
      unfold is_member, populateGroup, populateMembers. simpl.
      destruct (existsb _ _) eqn:E; [|reflexivity].
      apply existsb_exists in E. destruct E as (u & Hu & Heqb).
      rewrite oid_toString_eqb in Heqb. apply N.eqb_eq in Heqb.
      apply list_elem_of_In, list_elem_of_omap in Hu. destruct Hu as (id & _ & Hf).
      apply findUserById_some in Hf. destruct Hf as [Hin _].
      destruct (findUserById_known u us Hin) as [u' Hu']. rewrite Heqb in Hu'.
      congruence. }
    rewrite (filter_none _ _ Hno), (filter_all (fun g => negb (is_member viewer g))).
    + simpl. apply Hmap.
    + intros p Hp. now rewrite (Hno p Hp).
Qed.

(** X20: [createGroup] answers the caller and nobody else, and writes
    no presence, room or connection: with an empty name it answers
    [null] and stores nothing; with a name it answers the new group,
    whose owner is a member but whose connection is not subscribed, so a
    message the owner sends to the new group right away is not
    delivered to the owner (unless that connection had joined the room
    of that identifier before the group existed). *)
Theorem createGroup_does_not_subscribe_the_owner `{ObjectIdCodec} `{AddressFilter}
  (socketId : string) (user : User) (now : Z) (name : string)
  (description : option string) (w : World) :
  sessions w !! socketId = Some user ->
  let w1 := step (Emit socketId now (CreateGroup name description)) w in
  redis w1 = redis w /\ rooms w1 = rooms w /\ sessions w1 = sessions w
  /\ (name = "" -> mongo w1 = mongo w /\ outbox w1 = outbox w ++ [(socketId, AckGroup None)])
  /\ (name <> "" ->
      exists pg,
        outbox w1 = outbox w ++ [(socketId, AckGroup (Some pg))]
        /\ In (pg_group pg) (groups (mongo w1))
        /\ In (user_id user) (g_members (pg_group pg))
        /\ forall later message,
             message <> "" ->
             socketId ∉ default ∅ (rooms w !! oid_toString (g_id (pg_group pg))) ->
             exists sent,
               outbox (step (Emit socketId later
                               (SendMessage (oid_toString (g_id (pg_group pg))) message)) w1)
               = outbox w1 ++ sent
               /\ forall e, ~ In (socketId, e) sent).
Proof.
  intros Hs w1.
  destruct (String.eqb_spec name "") as [->|Hn].
  - assert (Hw1 : w1 = mkWorld (mongo w) (redis w) (rooms w) (sessions w)
                         (outbox w ++ [(socketId, AckGroup None)])).
    { unfold w1, step. simpl. rewrite Hs. unfold bind.
      now rewrite createGroup_invalid. }
    rewrite Hw1. simpl. repeat split. intros Hne. now contradiction Hne.
  - pose proof (createGroup_valid user now name description w Hn) as Hc. simpl in Hc.
    set (g := mkGroup (nextObjectId (mongo w)) name description (user_id user)
                      [user_id user] false now now) in *.
    assert (Hw1 : w1 = mkWorld (mkMongo (users (mongo w)) (groups (mongo w) ++ [g])
                                  (chats (mongo w)) (N.succ (nextObjectId (mongo w))))
                         (redis w) (rooms w) (sessions w)
                         (outbox w ++ [(socketId,
                                        AckGroup (Some (populateGroup (users (mongo w)) g)))])).
    { unfold w1, step. simpl. rewrite Hs. unfold bind. now rewrite Hc. }
    rewrite Hw1. simpl. split; [reflexivity|]. split; [reflexivity|].
    split; [reflexivity|]. split; [intros Heq; now contradiction Hn|].
    intros _. exists (populateGroup (users (mongo w)) g). simpl.
    split; [reflexivity|]. split; [apply in_or_app; right; now left|].
    split; [now left|].
    intros later message Hm Hnot. unfold step. simpl. rewrite Hs.
    rewrite (sendMessage_ok _ _ _ _ _ (nextObjectId (mongo w)) _ Hm (cast_toString _)).
    simpl. eexists. split; [reflexivity|].
    intros e Hin. apply in_map_iff in Hin. destruct Hin as (s & Heq & Hin).
    injection Heq as -> _. apply Hnot.
    now apply list_elem_of_In, elem_of_room_members in Hin.
Qed.

(** ** The two versions of the join handler *)

(** X21: [joinGroup] of [src/server.ts] and the one of the later
    server file do the same to the documents, the presence store, the
    rooms and the connections; they differ in one case only: with a
    malformed group identifier the later one sends the connection the
    error event and the earlier one sends nothing. *)
Theorem joinGroup_versions_differ_in_the_error_event `{ObjectIdCodec}
  (socketId : string) (user : User) (now : Z) (groupId : string) (w : World) :
  let later := snd (joinGroup socketId user now groupId w) in
  let earlier := snd (ServerTs.joinGroup socketId user now groupId w) in
  mongo earlier = mongo later
  /\ redis earlier = redis later
  /\ rooms earlier = rooms later
  /\ sessions earlier = sessions later
  /\ outbox earlier = outbox w
  /\ outbox later
     = outbox w ++ match castObjectId groupId with
                   | Some _ => []
                   | None => [(socketId, EvError "Failed to join group")]
                   end.
Proof.
  intros later earlier. unfold later, earlier, joinGroup, ServerTs.joinGroup, Group_findById.
  destruct (castObjectId groupId) as [id|] eqn:Hc.
  - unfold_async.
    destruct (List.find _ (groups (mongo w))) as [g|]; simpl;
      [destruct (includes (user_id user) (g_members g)); simpl|];
      now rewrite app_nil_r.
  - unfold_async. repeat split.
Qed.


(** ** Sending, then reading *)

Lemma sort_desc_snoc {A} (key : A -> Z) (l : list A) (c : A) :
  (forall x, In x l -> (key x < key c)%Z) ->
  sort_desc key (l ++ [c]) = c :: sort_desc key l.
Proof.
  unfold sort_desc. induction l as [|x l IH]; intros Hlt; simpl; [reflexivity|].
  rewrite IH by (intros y Hy; apply Hlt; now right). simpl.
  destruct (Z.leb_spec (key c) (key x)) as [Hle|_]; [|reflexivity].
  specialize (Hlt x (or_introl eq_refl)). lia.
Qed.

Lemma senders_known_b_intro us l : senders_known us l -> senders_known_b us l = true.
Proof.
  unfold senders_known_b. intros Hk. apply forallb_forall. intros c Hc.
  specialize (Hk c Hc). now destruct (findUserById (c_sender c) us).
Qed.

(** X22: a message that was sent is read back.  In a store the server
    produced (distinct user identifiers, every sender and every
    connection's user a user), after a message was accepted with a
    creation time later than that of every message of the group,
    [loadMessages] without a cursor answers with that message first,
    carrying the text, the sender's address, the time and the group
    identifier it was sent with, followed by the first 49 messages of
    what the first page was before. *)
Theorem sent_message_heads_the_first_page `{ObjectIdCodec} `{AddressFilter}
  (socketId : string) (user : User) (now : Z) (groupId message : string)
  (gid : ObjectId) (w : World) :
  store_ok w ->
  NoDup (map user_id (users (mongo w))) ->
  sessions w !! socketId = Some user ->
  message <> "" ->
  castObjectId groupId = Some gid ->
  (forall c, In c (chats (mongo w)) -> c_groupId c = gid -> (c_createdAt c < now)%Z) ->
  let w1 := step (Emit socketId now (SendMessage groupId message)) w in
  exists previous,
    loadMessages groupId None w = (Ok previous, w)
    /\ loadMessages groupId None w1
       = (Ok (mkMessage (oid_toString (nextObjectId (mongo w))) message (address user)
                        now (oid_toString gid)
              :: take (PAGE_LIMIT - 1) previous), w1).
Proof.
  intros (_ & _ & Hk & Hss) Hnd Hs Hn Hc Hlt w1.
  set (c := mkChat (nextObjectId (mongo w)) message (user_id user) gid now false now).
  assert (Hw1 : w1 = mkWorld (mkMongo (users (mongo w)) (groups (mongo w))
                                (chats (mongo w) ++ [c])
                                (N.succ (nextObjectId (mongo w))))
                       (redis w) (rooms w) (sessions w)
                       (outbox w ++ map (fun s => (s, EvMessage
                           (mkMessage (oid_toString (c_id c)) message (address user) now
                                      (oid_toString gid))))
                                    (room_members groupId w))).
  { unfold w1, step. simpl. rewrite Hs.
    now rewrite (sendMessage_ok _ _ _ _ _ gid _ Hn Hc). }
  assert (Hu : findUserById (user_id user) (users (mongo w)) = Some user).
  { pose proof (Hss _ _ Hs) as Hin.
    destruct (findUserById_known user _ Hin) as [u Hu]. rewrite Hu. f_equal.
    apply findUserById_some in Hu. destruct Hu as [Hu Hid].
    now apply (NoDup_map_eq user_id (users (mongo w))). }
  set (old := sort_desc c_createdAt
                (List.filter (chat_matches gid None) (chats (mongo w)))).
  assert (Hold : forall x, In x old -> In x (chats (mongo w)) /\ c_groupId x = gid).
  { intros x Hx. unfold old in Hx. rewrite sort_desc_In in Hx.
    apply filter_In in Hx. destruct Hx as [Hx Hm]. split; [exact Hx|].
    unfold chat_matches in Hm. apply andb_prop in Hm. destruct Hm as [Hm _].
    apply andb_prop in Hm. destruct Hm as [Hm _]. now apply N.eqb_eq. }
  assert (Hpage : find_page (chats (mongo w) ++ [c]) gid None
                  = c :: take (PAGE_LIMIT - 1) (find_page (chats (mongo w)) gid None)).
  { unfold find_page. rewrite List.filter_app.
    assert (Hcm : List.filter (chat_matches gid None) [c] = [c]).
    { simpl. unfold chat_matches. simpl. now rewrite N.eqb_refl. }
    rewrite Hcm, sort_desc_snoc.
    - fold old. change (take PAGE_LIMIT (c :: old)) with (c :: take (PAGE_LIMIT - 1) old).
      f_equal. rewrite take_take. f_equal.
    - intros x Hx. apply filter_In in Hx.
      destruct Hx as [Hx Hm]. simpl. apply Hlt; [exact Hx|].
      unfold chat_matches in Hm. apply andb_prop in Hm. destruct Hm as [Hm _].
      apply andb_prop in Hm. destruct Hm as [Hm _]. now apply N.eqb_eq. }
  assert (Hkold : senders_known (users (mongo w)) (find_page (chats (mongo w)) gid None)).
  { intros x Hx. apply Hk. unfold find_page in Hx. apply In_take in Hx.
    fold old in Hx. now apply Hold. }
  exists (map (format_chat (users (mongo w))) (find_page (chats (mongo w)) gid None)).
  rewrite !loadMessages_cases, Hc. change (cursor_of None) with (Some (@None ObjectId)).
  cbv zeta. rewrite Hw1. cbn [mongo users chats]. rewrite Hpage.
  rewrite (senders_known_b_intro _ _ Hkold).
  rewrite senders_known_b_intro.
  - split; [reflexivity|]. f_equal. f_equal. cbn [map]. f_equal.
    + unfold format_chat. simpl. now rewrite Hu.
    + apply (fmap_take (format_chat (users (mongo w)))).
  - intros x [<-|Hx]; [simpl; now rewrite Hu|].
    apply Hkold. now apply In_take in Hx.
Qed.

(** X23: after a connection joined an existing non-private group,
    [getGroups] for that user answers with the groups the user is a
    member of, followed by the groups the user is not a member of, and
    the joined group is among the former: only groups of which the user
    is a member are listed ahead of it, and every group of which the
    user is not a member is listed after it. *)
Theorem joined_group_is_listed_among_the_first `{ObjectIdCodec} `{AddressFilter}
  (socketId : string) (user : User) (now : Z) (groupId : string) (id : ObjectId)
  (g : Group) (w : World) :
  sessions w !! socketId = Some user ->
  In user (users (mongo w)) ->
  castObjectId groupId = Some id ->
  find_group id (mongo w) = Some g ->
  g_isPrivate g = false ->
  let w1 := step (Emit socketId now (JoinGroup groupId)) w in
  exists ahead entry behind,
    getGroups user w1 = (Ok (ahead ++ entry :: behind), w1)
    /\ g_id (pg_group entry) = id
    /\ In (user_id user) (g_members (pg_group entry))
    /\ Forall (fun p => In (user_id user) (g_members (pg_group p))) ahead
    /\ exists mine others,
         behind = mine ++ others
         /\ Forall (fun p => In (user_id user) (g_members (pg_group p))) mine
         /\ Forall (fun p => ~ In (user_id user) (g_members (pg_group p))) others.
Proof.
  intros Hs Hin Hc Hf Hpub w1.
  assert (Hw1 : w1 = snd (joinGroup socketId user now groupId w)).
  { unfold w1, step. simpl. now rewrite Hs. }
  assert (Hg1 : users (mongo w1) = users (mongo w)
                /\ exists g1, In g1 (groups (mongo w1)) /\ g_id g1 = id
                              /\ g_isPrivate g1 = false
                              /\ In (user_id user) (g_members g1)).
  { rewrite Hw1. destruct (find_group_some _ _ _ Hf) as [Hg Hid].
    destruct (includes (user_id user) (g_members g)) eqn:Hi.
    - rewrite (joinGroup_already_member _ _ _ _ _ _ _ Hc Hf Hi). simpl.
      split; [reflexivity|]. exists g. repeat split; try assumption.
      now apply includes_In.
    - rewrite (joinGroup_new_member _ _ _ _ _ _ _ Hc Hf Hi). simpl.
      split; [reflexivity|].
      destruct (updateOne_split id (mongo w) g (with_member g (user_id user) now) Hf)
        as (l1 & l2 & _ & ->).
      exists (with_member g (user_id user) now). simpl. repeat split; try assumption.
      + apply in_or_app. right. now left.
      + apply in_or_app. right. now left. }
  destruct Hg1 as (Hus & g1 & Hg1 & Hid1 & Hpub1 & Hm1).
  pose proof (getGroups_eq user w1) as Heq. cbv zeta in Heq.
  rewrite Hus in Heq. specialize (Heq Hin).
  set (all := sort_desc g_createdAt (public_groups (mongo w1))) in Heq.
  set (member := fun g => includes (user_id user) (g_members g)) in Heq.
  assert (Hmine : In g1 (List.filter member all)).
  { apply filter_In. split.
    - unfold all. rewrite sort_desc_In. unfold public_groups. apply filter_In.
      split; [exact Hg1 | now rewrite Hpub1].
    - now apply includes_In. }
  apply in_split in Hmine. destruct Hmine as (l1 & l2 & Hsplit).
  assert (Hall : Forall (fun g => In (user_id user) (g_members g)) (l1 ++ g1 :: l2)).
  { rewrite <- Hsplit. apply Forall_forall. intros g2 Hg2.
    apply list_elem_of_In, filter_In in Hg2. destruct Hg2 as [_ Hm].
    now apply includes_In. }
  apply Forall_app in Hall. destruct Hall as [Hl1 Hl2].
  apply Forall_cons in Hl2. destruct Hl2 as [_ Hl2].
  exists (map (populateGroup (users (mongo w))) l1),
         (populateGroup (users (mongo w)) g1),
         (map (populateGroup (users (mongo w))) l2
          ++ map (populateGroup (users (mongo w)))
               (List.filter (fun g => negb (member g)) all)).
  split; [|split; [exact Hid1 | split; [exact Hm1 | split]]].
  - rewrite Heq, Hsplit, map_app. simpl. now rewrite <- app_assoc.
  - apply Forall_fmap. exact Hl1.
  - eexists. eexists. split; [reflexivity|]. split.
    + apply Forall_fmap. exact Hl2.
    + apply Forall_forall. intros p Hp. apply list_elem_of_In in Hp.
      apply in_map_iff in Hp. destruct Hp as (g2 & <- & Hg2).
      apply filter_In in Hg2. destruct Hg2 as [_ Hneg]. simpl.
      intros Hmem. apply includes_In in Hmem. unfold member in Hneg.
      now rewrite Hmem in Hneg.
Qed.

(** ** Commands of two handlers in turn *)

(** X24: [removeUserFromGroup] is not atomic.  When the leaving
    connection is the only one in the group's presence hash and another
    connection's [addUserToGroup] reaches the store between the [hlen]
    and the [del], the [del] removes the entry that was just written:
    the other connection is left without a presence entry, although it
    has one in either order in which the two calls can run one after
    the other. *)
Theorem removeUserFromGroup_can_drop_a_concurrent_join
  (groupId socketId other a : string) (r : gmap string (gmap string string)) :
  other <> socketId ->
  delete socketId (getGroupUsers groupId r) = ∅ ->
  removeUserFromGroup_among groupId socketId (fun r0 => r0) r
  = removeUserFromGroup groupId socketId r
  /\ getGroupUsers groupId
       (removeUserFromGroup_among groupId socketId (addUserToGroup groupId other a) r)
     !! other = None
  /\ getGroupUsers groupId
       (removeUserFromGroup groupId socketId (addUserToGroup groupId other a r))
     !! other = Some a
  /\ getGroupUsers groupId
       (addUserToGroup groupId other a (removeUserFromGroup groupId socketId r))
     !! other = Some a.
Proof.
  intros Hne Hlast. split; [reflexivity|]. split; [|split].
  - unfold removeUserFromGroup_among. cbv zeta.
    assert (Hlen : hlen (group_key groupId) (hdel (group_key groupId) socketId r) = 0%nat).
    { unfold hlen. rewrite lookup_hdel_eq.
      unfold getGroupUsers, hgetall in Hlast.
      destruct (r !! group_key groupId) as [h|]; simpl in *.
      - rewrite Hlast. apply map_size_empty.
      - apply map_size_empty. }
    rewrite Hlen. simpl. unfold getGroupUsers, hgetall, del.
    rewrite lookup_delete_eq. simpl. apply lookup_empty.
  - rewrite getGroupUsers_remove, getGroupUsers_add.
    destruct (decide _); [|congruence].
    rewrite lookup_delete_ne by congruence. apply lookup_insert_eq.
  - rewrite getGroupUsers_add. destruct (decide _); [|congruence].
    apply lookup_insert_eq.
Qed.

Module Checks.
Import Sample.
#[local] Existing Instance Hex.codec.
#[local] Existing Instance Operators.address.

Lemma world0_store_ok : store_ok world0.
Proof.
  repeat split.
  - constructor.
  - intros c [].
  - intros c [].
  - intros socketId user Hs. simpl in Hs. rewrite lookup_empty in Hs. discriminate Hs.
Qed.

Lemma walk_returns_every_message_once_witness :
  castObjectId G1 = Some 16%N
  /\ length (group_messages 16%N (chats (mongo world120))) = 120%nat
  /\ length (group_messages 16%N (chats (mongo (run (sends 2 5000) world120)))) = 122%nat
  /\ exists pages : list (list Chat),
       walk 121 G1 None world120
       = Some (map (map (format_chat (users (mongo world120)))) pages)
       /\ walk_during 121 G1 None (fun k => run (sends k 5000) world120) 0
          = Some (map (map (format_chat (users (mongo world120)))) pages)
       /\ length (concat pages) = 120%nat
       /\ (forall i page, pages !! i = Some page ->
             length page = min 50 (120 - 50 * i)).
Proof.
  split; [reflexivity|]. split; [vm_compute; reflexivity|].
  split; [vm_compute; reflexivity|].
  assert (Hok : store_ok world120)
    by (unfold world120, world1; repeat apply run_store_ok; exact world0_store_ok).
  destruct (store_ok_history 16%N world120 Hok) as [Hnd Hk].
  destruct (walk_returns_every_message_once G1 16%N world120)
    as (pages & Hwalk & Hduring & _ & Hlen & _ & _ & _ & Hpage & _).
  - reflexivity.
  - exact Hnd.
  - apply time_follows_ids_b_ok. vm_compute. reflexivity.
  - exact Hk.
  - exists pages. split; [|split; [|split]].
    + apply Hwalk. vm_compute. lia.
    + apply (Hduring (fun k => run (sends k 5000) world120)).
      * reflexivity.
      * intros k. now apply run_inserted_no_smaller.
      * vm_compute. lia.
    + rewrite Hlen. vm_compute. reflexivity.
    + intros i page Hi. destruct (Hpage i page Hi) as [Hl _]. rewrite Hl.
      replace (length (group_messages 16%N (chats (mongo world120)))) with 120%nat
        by (vm_compute; reflexivity).
      reflexivity.
Defined.

(** C1 as stated fails: 51 messages of one group, with distinct
    identifiers increasing in creation order (17 to 67), the first two
    created in the same millisecond.  The first page ends with the older
    of the two, the walk asks for what lies below its identifier, gets
    the empty page and ends: 50 messages were returned and the message
    with identifier 18 never was.  The same happens, with no two
    creation times equal, when the second message was created one
    millisecond before the first. *)
Lemma walk_skips_a_message :
  castObjectId G1 = Some 16%N
  /\ (map c_id (group_messages 16%N (chats (mongo world_tied)))
      = map N.of_nat (seq 17 51)
      /\ map c_createdAt (take 3 (group_messages 16%N (chats (mongo world_tied))))
         = [2000; 2000; 2001]%Z
      /\ exists pages,
           (forall fuel, (2 <= fuel)%nat -> walk fuel G1 None world_tied = Some pages)
           /\ length (concat pages) = 50%nat
           /\ oid_toString 18%N ∉ map m_id (concat pages))
  /\ (map c_id (group_messages 16%N (chats (mongo world_stepped)))
      = map N.of_nat (seq 17 51)
      /\ map c_createdAt (take 3 (group_messages 16%N (chats (mongo world_stepped))))
         = [2000; 1999; 2001]%Z
      /\ NoDup (map c_createdAt (group_messages 16%N (chats (mongo world_stepped))))
      /\ exists pages,
           (forall fuel, (2 <= fuel)%nat -> walk fuel G1 None world_stepped = Some pages)
           /\ length (concat pages) = 50%nat
           /\ oid_toString 18%N ∉ map m_id (concat pages)).
Proof.
  split; [reflexivity|]. split.
  - split; [vm_compute; reflexivity|]. split; [vm_compute; reflexivity|].
    eexists. split; [|split].
    + intros fuel Hf. apply (walk_fuel_mono 2); [|exact Hf]. vm_compute. reflexivity.
    + vm_compute. reflexivity.
    + apply (bool_decide_unpack _). vm_compute. exact I.
  - split; [vm_compute; reflexivity|]. split; [vm_compute; reflexivity|].
    split; [apply (bool_decide_unpack _); vm_compute; exact I|].
    eexists. split; [|split].
    + intros fuel Hf. apply (walk_fuel_mono 2); [|exact Hf]. vm_compute. reflexivity.
    + vm_compute. reflexivity.
    + apply (bool_decide_unpack _). vm_compute. exact I.
Qed.

Lemma join_is_idempotent_on_members_witness :
  exists g2, find_group 16%N
               (mongo (run [Emit "s2" 1002 (JoinGroup G1); Emit "s2" 1003 (JoinGroup G1)]
                           (run [Connect "s1" (Some "0xA11CE");
                                 Emit "s1" 1000 (CreateGroup "G1" None);
                                 Connect "s2" (Some "0xB0B")] world0)))
             = Some g2
             /\ count_occ N.eq_dec (g_members g2) 2%N = 1%nat.
Proof.
  set (w := run [Connect "s1" (Some "0xA11CE");
                 Emit "s1" 1000 (CreateGroup "G1" None);
                 Connect "s2" (Some "0xB0B")] world0).
  pose proof (join_is_idempotent_on_members "s2" "s2" bob 1002 1003 G1 16%N
                (mkGroup 16%N "G1" None 1%N [1%N] false 1000 1000) w) as Hthm.
  cbv zeta in Hthm. destruct Hthm as [Hg _]; try reflexivity.
  - unfold members_nodup. vm_compute. repeat constructor.
    intros Hin. inversion Hin.
  - exact Hg.
Defined.

Lemma cleanup_purges_connection_witness :
  sessions world1 !! "s1" = Some alice
  /\ getGroupUsers G1 (redis world1) !! "s1" = Some "0xA11CE"
  /\ getGroupUsers G1 (redis (step (Disconnect "s1") world1)) !! "s1" = None
  /\ hgetall "user_connections" (redis (step (Disconnect "s1") world1)) !! "s1" = None.
Proof.
  destruct (cleanup_purges_connection "s1") as (Hgroup & _ & Hconn & Hstep).
  split; [reflexivity|]. split; [reflexivity|].
  rewrite (Hstep world1 alice eq_refl). split; [apply Hgroup | apply Hconn].
Defined.

Lemma refused_handshake_creates_no_session_witness :
  (step (Emit "s9" 7 (JoinGroup G1)) (step (Connect "s9" None) world1)
   = step (Connect "s9" None) world1
   /\ redis (step (Connect "s9" None) world1) = redis world1)
  /\ (sessions (step (Connect "s9" (Some "0xDEAD")) world1) = sessions world1
      /\ outbox (step (Connect "s9" (Some "0xDEAD")) world1)
         = outbox world1 ++ [("s9", EvConnectError "Authentication failed")])
  /\ (sessions (step (Connect "s9" (Some (JArray []))) world1) = sessions world1
      /\ outbox (step (Connect "s9" (Some (JArray []))) world1)
         = outbox world1 ++ [("s9", EvConnectError "Authentication failed")]).
Proof.
  split; [|split].
  - pose proof (refused_handshake_creates_no_session "s9" None world1
                  (or_introl eq_refl) eq_refl) as Hthm.
    cbv zeta in Hthm. destruct Hthm as (_ & _ & Hredis & _ & _ & Hevs & _).
    split; [exact (Hevs [(7%Z, JoinGroup G1)]) | exact Hredis].
  - pose proof (refused_handshake_creates_no_session "s9" (Some "0xDEAD") world1)
      as Hthm.
    cbv zeta in Hthm. destruct Hthm as ((err & Herr & Hout) & _ & _ & _ & Hss & _).
    + right. exists (JString "0xDEAD"). split; [reflexivity|].
      apply User_findOne_unknown_address.
      intros u Hu. vm_compute in Hu. destruct Hu as [<-|[<-|[]]]; discriminate.
    + reflexivity.
    + split; [exact Hss|]. rewrite Hout. f_equal.
      vm_compute in Herr. now injection Herr as <-.
  - pose proof (refused_handshake_creates_no_session "s9" (Some (JArray [])) world1)
      as Hthm.
    cbv zeta in Hthm. destruct Hthm as ((err & Herr & Hout) & _ & _ & _ & Hss & _).
    + right. exists (JArray []). split; [reflexivity|]. intros user. discriminate.
    + reflexivity.
    + split; [exact Hss|]. rewrite Hout. f_equal.
      vm_compute in Herr. now injection Herr as <-.
Defined.

(** C5 as stated fails twice over.  Alice joined the well-formed id
    [missing], which names no group: her message to it is stored and its
    [message] event reaches her connection, so the set of subscribers of
    a group that does not exist is not empty.  And an empty text with
    the same well-formed id fails with the error event. *)
Lemma sendMessage_to_missing_group_reaches_its_room :
  castObjectId missing = Some 255%N
  /\ find_group 255%N (mongo world_ghost) = None
  /\ room_members missing world_ghost = ["s1"]
  /\ outbox (step (Emit "s1" 1004 (SendMessage missing "hi")) world_ghost)
     = outbox world_ghost
       ++ [("s1", EvMessage (mkMessage "000000000000000000000011" "hi" "0xA11CE"
                                       1004 missing))]
  /\ outbox (step (Emit "s1" 1004 (SendMessage missing "")) world_ghost)
     = outbox world_ghost ++ [("s1", EvError "Failed to send message")].
Proof. repeat split; vm_compute; reflexivity. Qed.

Lemma sendMessage_checks_only_the_id_form_witness :
  chats (mongo (step (Emit "s1" 1004 (SendMessage missing "hi")) world1))
  = [mkChat 17%N "hi" 1%N 255%N 1004 false 1004]
  /\ outbox (step (Emit "s1" 1004 (SendMessage missing "hi")) world1) = outbox world1.
Proof.
  pose proof (sendMessage_checks_only_the_id_form "s1" alice 1004 missing "hi" world1
                eq_refl) as Hthm.
  cbv zeta in Hthm. destruct Hthm as [Hsend _]; [discriminate|].
  change (castObjectId missing) with (Some 255%N) in Hsend.
  destruct Hsend as (Hchats & _ & _ & _ & Hnobody).
  split; [exact Hchats | now apply Hnobody].
Defined.

Lemma leave_keeps_durable_membership_witness :
  getGroupUsers G1 (redis (step (Emit "s1" 1003 (LeaveGroup G1)) world1)) !! "s1" = None
  /\ map g_members (groups (mongo (step (Emit "s1" 1003 (LeaveGroup G1)) world1)))
     = [[1%N; 2%N]].
Proof.
  pose proof (leave_keeps_durable_membership "s1" alice 1003 G1 world1 eq_refl) as Hthm.
  cbv zeta in Hthm. destruct Hthm as (Hgone & _ & Hmongo & _).
  split; [exact Hgone | now rewrite Hmongo].
Defined.

Lemma no_empty_presence_key_persists_witness :
  redis (step (Emit "s2" 1004 (LeaveGroup G1))
              (step (Emit "s1" 1003 (LeaveGroup G1)) world1)) !! group_key G1 = None
  /\ no_empty_presence (redis (run [Emit "s1" 1003 (LeaveGroup G1)] world1)).
Proof.
  destruct no_empty_presence_key_persists as (_ & _ & Hrun & _).
  split; [vm_compute; reflexivity|].
  apply Hrun. intros key Hk Hempty.
  destruct (decide (key = group_key G1)) as [->|Hne]; [vm_compute in Hempty; discriminate|].
  assert (Hnone : redis world1 !! key = None \/ key = "user_connections").
  { destruct (redis world1 !! key) eqn:E; [|now left]. right.
    assert (Hdom : key ∈ dom (redis world1)) by (apply elem_of_dom; eauto).
    change (dom (redis world1)) with ({[ "user_connections"; group_key G1 ]} : gset string)
      in Hdom.
    apply elem_of_union in Hdom. destruct Hdom as [Hd|Hd];
      apply elem_of_singleton in Hd; congruence. }
  destruct Hnone as [Hnone| ->]; [congruence | discriminate Hk].
Defined.

Lemma getGroups_lists_members_first_witness :
  exists mine others : list PopulatedGroup,
    getGroups alice world_groups = (Ok (mine ++ others), world_groups)
    /\ map g_name (map pg_group mine) = ["G3"; "G1"]
    /\ map g_name (map pg_group others) = ["G2"].
Proof.
  pose proof (getGroups_lists_members_first alice world_groups (or_introl eq_refl))
    as Hthm.
  cbv zeta in Hthm.
  destruct Hthm as (mine & others & Hget & _ & _ & _ & _ & _ & Hmine & Hothers & _).
  exists mine, others. split; [exact Hget|]. rewrite Hmine, Hothers.
  split; vm_compute; reflexivity.
Defined.

Lemma created_group_is_public_and_listed_witness :
  exists g, groups (mongo (step (Emit "s2" 1010 (CreateGroup "G2" None)) world1))
            = groups (mongo world1) ++ [g]
            /\ g_isPrivate g = false /\ g_members g = [2%N].
Proof.
  pose proof (created_group_is_public_and_listed "s2" bob 1010 "G2" None world1 eq_refl)
    as Hthm.
  cbv zeta in Hthm. destruct Hthm as (g & _ & Hgroups & Hpub & _ & Hmem & _);
    [discriminate|].
  exists g. auto.
Defined.

Lemma join_of_missing_group_succeeds_witness :
  getGroupUsers missing
    (redis (step (Emit "s1" 1003 (JoinGroup missing)) world1)) !! "s1" = Some "0xA11CE"
  /\ mongo (step (Emit "s1" 1003 (JoinGroup missing)) world1) = mongo world1
  /\ outbox (step (Emit "s1" 1003 (JoinGroup missing)) world1) = outbox world1.
Proof.
  pose proof (join_of_missing_group_succeeds "s1" alice 1003 missing 255%N world1
                eq_refl eq_refl) as Hthm.
  cbv zeta in Hthm. destruct Hthm as (_ & Hout & Hredis & _ & Hmongo & _).
  - intros g Hg. vm_compute in Hg. destruct Hg as [<-|[]]. discriminate.
  - auto.
Defined.

End Checks.

(** * The further properties on the sample worlds *)

Module Examples.
Import Sample.
#[local] Existing Instance Hex.codec.
#[local] Existing Instance Operators.address.

Lemma world0_connections_ok : connections_ok world0.
Proof.
  split; [|split].
  - intros socketId. reflexivity.
  - intros groupId socketId [a Ha]. discriminate Ha.
  - intros room socketId Hin. simpl in Hin. rewrite lookup_empty in Hin.
    simpl in Hin. now apply not_elem_of_empty in Hin.
Qed.

Lemma removeUserFromGroup_undoes_add_witness :
  getGroupUsers G1 (redis world1) !! "s9" = None
  /\ hgetall (group_key G1)
       (removeUserFromGroup G1 "s9" (addUserToGroup G1 "s9" "0xC0DE" (redis world1)))
     = hgetall (group_key G1) (redis world1).
Proof.
  split; [reflexivity|].
  apply (removeUserFromGroup_undoes_add G1 "s9" "0xC0DE" (redis world1)). reflexivity.
Defined.

Lemma removeUserFromGroup_can_drop_a_concurrent_join_witness :
  getGroupUsers G2 (redis (step (Emit "s2" 1030 (JoinGroup G2)) world_groups)) !! "s2"
  = Some "0xB0B"
  /\ getGroupUsers G2
       (removeUserFromGroup_among G2 "s2" (addUserToGroup G2 "s1" "0xA11CE")
          (redis (step (Emit "s2" 1030 (JoinGroup G2)) world_groups)))
     !! "s1" = None
  /\ getGroupUsers G2
       (removeUserFromGroup G2 "s2"
          (addUserToGroup G2 "s1" "0xA11CE"
             (redis (step (Emit "s2" 1030 (JoinGroup G2)) world_groups))))
     !! "s1" = Some "0xA11CE".
Proof.
  destruct (removeUserFromGroup_can_drop_a_concurrent_join G2 "s2" "s1" "0xA11CE"
              (redis (step (Emit "s2" 1030 (JoinGroup G2)) world_groups)))
    as (_ & Hlost & Hkept & _).
  - discriminate.
  - apply map_eq. intros s. rewrite lookup_empty.
    destruct (decide (s = "s2")) as [->|Hne]; [apply lookup_delete_eq|].
    rewrite lookup_delete_ne by congruence.
    destruct (getGroupUsers G2 (redis (step (Emit "s2" 1030 (JoinGroup G2)) world_groups))
                !! s) eqn:E; [|reflexivity].
    exfalso. apply Hne.
    assert (Hdom : s ∈ dom (getGroupUsers G2
                     (redis (step (Emit "s2" 1030 (JoinGroup G2)) world_groups))))
      by (apply elem_of_dom; eauto).
    change (dom (getGroupUsers G2
                   (redis (step (Emit "s2" 1030 (JoinGroup G2)) world_groups))))
      with ({[ "s2" ]} : gset string) in Hdom.
    now apply elem_of_singleton in Hdom.
  - split; [reflexivity|]. split; [exact Hlost | exact Hkept].
Defined.

Lemma presence_belongs_to_live_connections_witness :
  connections_ok world1
  /\ hgetall "user_connections" (redis world1) !! "s2" = Some "0xB0B".
Proof.
  split; [|reflexivity].
  unfold world1. apply presence_belongs_to_live_connections.
  exact world0_connections_ok.
Defined.

Lemma authMiddleware_accepts_what_the_lookup_finds_witness :
  truthy_json (Some (JObject [("$ne", JNull)])) = Some (JObject [("$ne", JNull)])
  /\ authMiddleware (Some (JObject [("$ne", JNull)])) world1 = (Ok (inr alice), world1)
  /\ sessions (step (Connect "s3" (Some (JObject [("$ne", JNull)]))) world1) !! "s3"
     = Some alice.
Proof.
  destruct (authMiddleware_accepts_what_the_lookup_finds
              (Some (JObject [("$ne", JNull)])) world1) as (_ & _ & _ & _ & Hany).
  assert (Hacc : authMiddleware (Some (JObject [("$ne", JNull)])) world1
                 = (Ok (inr alice), world1)).
  { apply (Hany (JObject [("$ne", JNull)]) (fun _ => true)); reflexivity. }
  split; [reflexivity|]. split; [exact Hacc|].
  unfold step. cbn [react]. unfold bind at 1. rewrite Hacc. reflexivity.
Defined.

Lemma accepted_handshake_registers_connection_witness :
  sessions (step (Connect "s3" (Some "0xB0B")) world1) !! "s3" = Some bob
  /\ outbox (step (Connect "s3" (Some "0xB0B")) world1)
     = outbox world1 ++ [("s3", EvConnectionEstablished "s3")].
Proof.
  pose proof (accepted_handshake_registers_connection "s3" bob world1) as Hthm.
  cbv zeta in Hthm.
  destruct Hthm as (Hs & _ & Hout & _).
  - right. left. reflexivity.
  - discriminate.
  - apply (bool_decide_unpack _). vm_compute. exact I.
  - change (address bob) with "0xB0B" in Hs, Hout.
    rewrite Hs. split; [apply lookup_insert_eq | exact Hout].
Defined.

Lemma message_reaches_exactly_the_room_witness :
  exists sent,
    outbox (step (Emit "s1" 2000 (SendMessage G1 "hi")) world1) = outbox world1 ++ sent
    /\ In ("s2", EvMessage (mkMessage "000000000000000000000011" "hi" "0xA11CE" 2000 G1)) sent
    /\ forall e, ~ In ("s3", e) sent.
Proof.
  pose proof (message_reaches_exactly_the_room "s1" alice 2000 G1 "hi" 16%N world1
                eq_refl) as Hthm.
  cbv zeta in Hthm. destruct Hthm as (sent & Hout & _ & Hsent);
    [discriminate | reflexivity |].
  exists sent. split; [exact Hout|]. split.
  - apply Hsent. split; [reflexivity|].
    apply (bool_decide_unpack _). vm_compute. exact I.
  - intros e He. apply Hsent in He. destruct He as [_ He].
    revert He. apply (bool_decide_unpack _). vm_compute. exact I.
Defined.

Lemma join_with_malformed_id_leaves_presence_witness :
  getGroupUsers "lobby" (redis (step (Emit "s1" 1003 (JoinGroup "lobby")) world1)) !! "s1"
  = Some "0xA11CE"
  /\ rooms (step (Emit "s1" 1003 (JoinGroup "lobby")) world1) = rooms world1
  /\ outbox (step (Emit "s1" 1003 (JoinGroup "lobby")) world1)
     = outbox world1 ++ [("s1", EvError "Failed to join group")].
Proof.
  pose proof (join_with_malformed_id_leaves_presence "s1" alice 1003 "lobby" world1
                eq_refl eq_refl) as Hthm.
  cbv zeta in Hthm. destruct Hthm as (Hp & Hr & _ & _ & Hout). auto.
Defined.

Lemma join_appends_one_member_witness :
  map g_members (groups (mongo world_groups)) = [[1%N; 2%N]; [2%N]; [1%N]]
  /\ exists before after g',
       groups (mongo (step (Emit "s1" 1030 (JoinGroup G2)) world_groups))
       = before ++ g' :: after
       /\ g_members g' = [2%N; 1%N] /\ g_updatedAt g' = 1030%Z.
Proof.
  split; [vm_compute; reflexivity|].
  pose proof (join_appends_one_member "s1" alice 1030 G2 17%N
                (mkGroup 17%N "G2" (Some "second") 2%N [2%N] false 1010 1010)
                world_groups eq_refl eq_refl eq_refl) as Hthm.
  cbv zeta in Hthm.
  destruct Hthm as (l1 & l2 & g' & _ & Hg & Hm & Hu & _).
  - intros [Hin|[]]. discriminate Hin.
  - exists l1, l2, g'. auto.
Defined.

Lemma leave_undoes_join_witness :
  getGroupUsers G2
    (redis (run [Emit "s1" 1030 (JoinGroup G2); Emit "s1" 1031 (LeaveGroup G2)]
                world_groups))
  = getGroupUsers G2 (redis world_groups)
  /\ sessions (run [Emit "s1" 1030 (JoinGroup G2); Emit "s1" 1031 (LeaveGroup G2)]
                   world_groups)
     = sessions world_groups.
Proof.
  pose proof (leave_undoes_join "s1" alice 1030 1031 G2 world_groups eq_refl) as Hthm.
  cbv zeta in Hthm. destruct Hthm as (Hp & _ & _ & _ & Hs).
  split; [|exact Hs]. rewrite Hp. apply delete_id. reflexivity.
Defined.

Lemma subscription_follows_join_and_leave_witness :
  (exists sent m,
      outbox (step (Emit "s2" 1033 (SendMessage G2 "hi"))
                   (run [Emit "s2" 1031 GetGroups; Emit "s2" 1032 (LeaveGroup G1)]
                        (step (Emit "s1" 1030 (JoinGroup G2)) world_groups)))
      = outbox (run [Emit "s2" 1031 GetGroups; Emit "s2" 1032 (LeaveGroup G1)]
                    (step (Emit "s1" 1030 (JoinGroup G2)) world_groups)) ++ sent
      /\ In ("s1", EvMessage m) sent
      /\ m_message m = "hi" /\ m_sender_address m = "0xB0B")
  /\ (exists sent,
        outbox (step (Emit "s2" 1033 (SendMessage G1 "hi"))
                     (run [Emit "s2" 1031 GetGroups]
                          (step (Emit "s1" 1030 (LeaveGroup G1)) world_groups)))
        = outbox (run [Emit "s2" 1031 GetGroups]
                      (step (Emit "s1" 1030 (LeaveGroup G1)) world_groups)) ++ sent
        /\ In ("s2", EvMessage (mkMessage "000000000000000000000013" "hi" "0xB0B"
                                          1033 G1)) sent
        /\ forall e, ~ In ("s1", e) sent).
Proof.
  split.
  - pose proof (subscription_follows_join_and_leave "s1" alice "s2" 1030 1033 G2 "hi"
                  17%N [Emit "s2" 1031 GetGroups; Emit "s2" 1032 (LeaveGroup G1)]
                  world_groups eq_refl eq_refl) as Hthm.
    cbv zeta in Hthm. destruct Hthm as [Hjoined _]; [discriminate|].
    destruct (Hjoined bob) as (sent & m & Hout & Hin & Hm & Ha & _).
    + repeat constructor; try discriminate; intros t; discriminate.
    + reflexivity.
    + exists sent, m. auto.
  - pose proof (subscription_follows_join_and_leave "s1" alice "s2" 1030 1033 G1 "hi"
                  16%N [Emit "s2" 1031 GetGroups] world_groups eq_refl eq_refl) as Hthm.
    cbv zeta in Hthm. destruct Hthm as [_ Hleft]; [discriminate|].
    destruct Hleft as (sent & Hout & Hnot).
    + repeat constructor. intros t. discriminate.
    + exists sent. split; [exact Hout|]. split; [|exact Hnot].
      assert (Hsent : sent = [("s2", EvMessage (mkMessage "000000000000000000000013"
                                                          "hi" "0xB0B" 1033 G1))]).
      { apply (app_inv_head (outbox (run [Emit "s2" 1031 GetGroups]
                 (step (Emit "s1" 1030 (LeaveGroup G1)) world_groups)))).
        rewrite <- Hout. vm_compute. reflexivity. }
      rewrite Hsent. now left.
Defined.

Lemma createGroup_does_not_subscribe_the_owner_witness :
  rooms (step (Emit "s2" 1010 (CreateGroup "G2" None)) world1) = rooms world1
  /\ exists pg,
       outbox (step (Emit "s2" 1010 (CreateGroup "G2" None)) world1)
       = outbox world1 ++ [("s2", AckGroup (Some pg))]
       /\ In 2%N (g_members (pg_group pg)).
Proof.
  pose proof (createGroup_does_not_subscribe_the_owner "s2" bob 1010 "G2" None world1
                eq_refl) as Hthm.
  cbv zeta in Hthm. destruct Hthm as (_ & Hr & _ & _ & Hnew).
  split; [exact Hr|].
  destruct Hnew as (pg & Hout & _ & Hm & _); [discriminate|].
  exists pg. auto.
Defined.

Lemma sent_message_heads_the_first_page_witness :
  exists previous,
    length previous = 3%nat
    /\ loadMessages G1 None
         (step (Emit "s2" 3000 (SendMessage G1 "hi")) (run (sends 3 2000) world1))
       = (Ok (mkMessage "000000000000000000000014" "hi" "0xB0B" 3000 G1 :: previous),
          step (Emit "s2" 3000 (SendMessage G1 "hi")) (run (sends 3 2000) world1)).
Proof.
  pose proof (sent_message_heads_the_first_page "s2" bob 3000 G1 "hi" 16%N
                (run (sends 3 2000) world1)) as Hthm.
  cbv zeta in Hthm. destruct Hthm as (previous & Hbefore & Hafter).
  - unfold world1. repeat apply run_store_ok. exact Checks.world0_store_ok.
  - apply (bool_decide_unpack _). vm_compute. exact I.
  - reflexivity.
  - discriminate.
  - reflexivity.
  - intros c Hc _. vm_compute in Hc.
    destruct Hc as [<-|[<-|[<-|[]]]]; reflexivity.
  - assert (Hp : previous
                 = [mkMessage "000000000000000000000013" "m" "0xA11CE" 2002 G1;
                    mkMessage "000000000000000000000012" "m" "0xA11CE" 2001 G1;
                    mkMessage "000000000000000000000011" "m" "0xA11CE" 2000 G1]).
    { vm_compute in Hbefore. now injection Hbefore as <-. }
    exists (take (PAGE_LIMIT - 1) previous). split; [now rewrite Hp|].
    exact Hafter.
Defined.

Lemma joined_group_is_listed_among_the_first_witness :
  ~ In 1%N (g_members (mkGroup 17%N "G2" (Some "second") 2%N [2%N] false 1010 1010))
  /\ exists ahead entry behind,
       getGroups alice (step (Emit "s1" 1030 (JoinGroup G2)) world_groups)
       = (Ok (ahead ++ entry :: behind),
          step (Emit "s1" 1030 (JoinGroup G2)) world_groups)
       /\ g_id (pg_group entry) = 17%N
       /\ In 1%N (g_members (pg_group entry))
       /\ Forall (fun p => In 1%N (g_members (pg_group p))) ahead.
Proof.
  split; [intros [Hin|[]]; discriminate Hin|].
  pose proof (joined_group_is_listed_among_the_first "s1" alice 1030 G2 17%N
                (mkGroup 17%N "G2" (Some "second") 2%N [2%N] false 1010 1010)
                world_groups eq_refl (or_introl eq_refl) eq_refl eq_refl eq_refl) as Hthm.
  cbv zeta in Hthm.
  destruct Hthm as (ahead & entry & behind & Hget & Hid & Hm & Hahead & _).
  exists ahead, entry, behind. auto.
Defined.

End Examples.
